(** * improve-ai: pose comparison and session analysis

    A shallow embedding of the JavaScript utilities under [src/utils]
    (poseNormalizer, poseSimilarity, findWorstMoments, feedbackEngine,
    audioCoach, poseDescriber) and the properties stated about them.

    Numbers.  JavaScript numbers are binary64 floating-point numbers.
    They are modelled by the real numbers where the code takes square
    roots (normalizer, scorer, posecodes, voice cues, smoothing) and by
    the rationals where it only adds, divides and compares (worst
    moments, session analysis), so that the latter definitions evaluate.
    Every operation of the model is exact, while the program rounds the
    result of each operation to 53 bits.  A statement about computed
    values that is true only of exact arithmetic therefore carries an
    explicit tolerance, and where the error of rounding grows with the
    size of the input it names the inputs it speaks of ([ordinary],
    [in_range]); the tolerances are wide enough for the rounding of the
    program on those inputs.  Statements about counts, orders, keys,
    strings and values that the code copies or negates need no
    tolerance.  NaN and the infinities are outside the model unless a
    definition says how it treats them.  Clock readings ([Date.now()])
    are integers and are passed in explicitly. *)

From Stdlib Require Import Reals ZArith QArith Qround Qminmax Qreals String Psatz.
From stdpp Require Import base list strings pretty sorting gmap.

(** ** JavaScript helpers *)

Module JS.
Local Open Scope R_scope.

(** [v || 0] on a field that may be undefined. *)
Definition orZero (v : option R) : R :=
match v with Some r => r | None => 0 end.

(** [Math.round]: the nearest integer, halves going up. *)
Definition Math_round (r : R) : R := IZR (Zfloor (r + 1 / 2)).

(** [a < b] as a JavaScript condition. *)
Definition ltb (a b : R) : bool := if Rlt_dec a b then true else false.

(** [a > b]. *)
Definition gtb (a b : R) : bool := ltb b a.

(** [a >= b]. *)
Definition geb (a b : R) : bool := if Rge_dec a b then true else false.

(** [within eps a b]: the number [a] is [b] up to [eps]. *)
Definition within (eps a b : R) : Prop := b - eps <= a <= b + eps.

End JS.

(** ** poseNormalizer.js *)

Module PoseNormalizer.
Import JS.
Local Open Scope R_scope.

(** A landmark as the pose provider delivers it; [z] and [visibility]
    may be missing, which the code reads through [|| 0]. *)
Record Landmark : Type := mkLandmark {
  x : R;
  y : R;
  z : option R;
  visibility : option R
}.

Definition midpoint (a b : Landmark) : Landmark :=
{| x := (x a + x b) / 2;
   y := (y a + y b) / 2;
   z := Some ((orZero (z a) + orZero (z b)) / 2);
   visibility := Some (Rmin (orZero (visibility a)) (orZero (visibility b))) |}.

Definition distance (a b : Landmark) : R :=
sqrt ((x a - x b) ^ 2 + (y a - y b) ^ 2 + (orZero (z a) - orZero (z b)) ^ 2).

(** The hip midpoint and the torso length of an array that has the four
    indices 23, 24, 11, 12. *)
Definition midHip_of (landmarks : list Landmark) : option Landmark :=
match landmarks !! 23%nat, landmarks !! 24%nat with
| Some a, Some b => Some (midpoint a b)
| _, _ => None
end.

Definition midShoulder_of (landmarks : list Landmark) : option Landmark :=
match landmarks !! 11%nat, landmarks !! 12%nat with
| Some a, Some b => Some (midpoint a b)
| _, _ => None
end.

Definition torsoLen_of (landmarks : list Landmark) : option R :=
match midShoulder_of landmarks, midHip_of landmarks with
| Some midShoulder, Some midHip => Some (distance midShoulder midHip)
| _, _ => None
end.

(** [normalizePose]: [None] is JavaScript's [null], both as the input
    (a pose that is absent) and as the result.  The subtractions and
    divisions are exact here and rounded in the program. *)
Definition normalizePose (landmarks : option (list Landmark))
  : option (list Landmark) :=
match landmarks with
| None => None
| Some lms =>
  if (length lms <? 33)%nat then None else
  match midHip_of lms, torsoLen_of lms with
  | Some midHip, Some torsoLen =>
    if ltb torsoLen 0.001 then None else
    Some ((fun lm =>
      {| x := (x lm - x midHip) / torsoLen;
         y := (y lm - y midHip) / torsoLen;
         z := Some ((orZero (z lm) - orZero (z midHip)) / torsoLen);
         visibility := Some (orZero (visibility lm)) |}) <$> lms)
  | _, _ => None
  end
end.

Definition SWAP_PAIRS : list (nat * nat) :=
[ (11, 12); (13, 14); (15, 16); (17, 18); (19, 20); (21, 22);
  (23, 24); (25, 26); (27, 28); (29, 30); (31, 32);
  (1, 4); (2, 5); (3, 6); (7, 8); (9, 10) ]%nat.

(** One turn of the swap loop.  Both indices exist in every array of 33
    landmarks.  On a shorter array JavaScript would store empty objects
    past the end; such arrays are not poses, a [Landmark] cannot be
    empty, and the model leaves the array as it is there. *)
Definition swap (mirrored : list Landmark) (lr : nat * nat) : list Landmark :=
match mirrored !! lr.1, mirrored !! lr.2 with
| Some ml, Some mr => <[lr.2 := ml]> (<[lr.1 := mr]> mirrored)
| _, _ => mirrored
end.

Definition mirrorPose (landmarks : option (list Landmark))
  : option (list Landmark) :=
match landmarks with
| None => None
| Some lms =>
  let mirrored := (fun lm =>
    {| x := - x lm; y := y lm; z := z lm; visibility := visibility lm |}) <$> lms in
  Some (foldl swap mirrored SWAP_PAIRS)
end.

(** The index a landmark is moved to by the swap table (itself when the
    table does not mention it). *)
Definition partner (i : nat) : nat :=
match list_find (fun lr : nat * nat => lr.1 = i \/ lr.2 = i) SWAP_PAIRS with
| Some (_, lr) => if decide (lr.1 = i) then lr.2 else lr.1
| None => i
end.

(** What [mirrorPose] makes of one landmark before the swaps. *)
Definition flipped (lm : Landmark) : Landmark :=
{| x := - x lm; y := y lm; z := z lm; visibility := visibility lm |}.

(** A pose in ordinary position: 33 landmarks or more, every coordinate
    between -10 and 10 and a torso at least 0.01 long.  The pose provider
    delivers coordinates of the order of 1; on an ordinary pose the
    rounding of [normalizePose] moves a normalized coordinate by less
    than a billionth. *)
Definition ordinary (P : list Landmark) : Prop :=
(33 <= length P)%nat /\
Forall (fun lm => -10 <= x lm <= 10 /\ -10 <= y lm <= 10 /\
                  -10 <= orZero (z lm) <= 10) P /\
exists torsoLen, torsoLen_of P = Some torsoLen /\ 0.01 <= torsoLen.

End PoseNormalizer.

(** ** poseSimilarity.js *)

Module PoseSimilarity.
Import JS PoseNormalizer.
Local Open Scope R_scope.

Inductive Segment : Type :=
| leftArm | rightArm | leftLeg | rightLeg | torso | head.

#[global] Instance Segment_eq_dec : EqDecision Segment.
Proof. solve_decision. Defined.

Record SegmentInfo : Type := mkSegmentInfo {
  pairs : list (nat * nat);
  label : string;
  weight : R
}.

(** The table [BODY_SEGMENTS] (its emoji field is presentation only). *)
Definition BODY_SEGMENTS (name : Segment) : SegmentInfo :=
match name with
| leftArm => mkSegmentInfo [(11, 13); (13, 15)]%nat "Left Arm" 1.5
| rightArm => mkSegmentInfo [(12, 14); (14, 16)]%nat "Right Arm" 1.5
| leftLeg => mkSegmentInfo [(23, 25); (25, 27)]%nat "Left Leg" 1.5
| rightLeg => mkSegmentInfo [(24, 26); (26, 28)]%nat "Right Leg" 1.5
| torso => mkSegmentInfo [(11, 12); (11, 23); (12, 24); (23, 24)]%nat "Torso" 1.0
| head => mkSegmentInfo [(0, 11); (0, 12)]%nat "Head" 0.5
end.

(** The keys of [BODY_SEGMENTS] in the order [Object.entries] lists them. *)
Definition segment_keys : list Segment :=
[leftArm; rightArm; leftLeg; rightLeg; torso; head].

Record Vec : Type := mkVec { vx : R; vy : R; vz : R }.

(** [vecBetween] is applied to normalized landmarks only, whose [z] is
    always a number. *)
Definition vecBetween (a b : Landmark) : Vec :=
{| vx := x b - x a; vy := y b - y a; vz := orZero (z b) - orZero (z a) |}.

(** [cosineSim], in exact arithmetic: the program rounds the products,
    the sums, the square roots and the quotient, so that its cosine of a
    vector with itself can be 0.9999999999999999. *)
Definition cosineSim (v1 v2 : Vec) : R :=
let dot := vx v1 * vx v2 + vy v1 * vy v2 + vz v1 * vz v2 in
let mag1 := sqrt (vx v1 ^ 2 + vy v1 ^ 2 + vz v1 ^ 2) in
let mag2 := sqrt (vx v2 ^ 2 + vy v2 ^ 2 + vz v2 ^ 2) in
if ltb mag1 0.0001 || ltb mag2 0.0001 then 0 else dot / (mag1 * mag2).

(** [Math.min] of the four endpoint visibilities of a bone; the
    normalizer has already replaced a missing visibility by 0. *)
Definition minVis (ra rb ua ub : Landmark) : R :=
Rmin (Rmin (Rmin (orZero (visibility ra)) (orZero (visibility rb)))
           (orZero (visibility ua))) (orZero (visibility ub)).

(** The body of the inner loop: the state is [(totalSim, validPairs)]. *)
Definition pairStep (refNorm userNorm : list Landmark)
  (acc : R * nat) (ab : nat * nat) : R * nat :=
match refNorm !! ab.1, refNorm !! ab.2, userNorm !! ab.1, userNorm !! ab.2 with
| Some ra, Some rb, Some ua, Some ub =>
  if ltb (minVis ra rb ua ub) 0.4 then acc
  else (acc.1 + cosineSim (vecBetween ra rb) (vecBetween ua ub), S acc.2)
| _, _, _, _ => acc (* not reached: a normalized pose has 33 entries *)
end.

(** The score of one segment, in exact arithmetic: the program adds the
    cosines in the order of [pairs], rounding each sum. *)
Definition segmentScore (refNorm userNorm : list Landmark) (seg : SegmentInfo)
  : option R :=
let acc := foldl (pairStep refNorm userNorm) (0, 0%nat) (pairs seg) in
if (acc.2 =? 0)%nat then None
else Some (Rmax 0 (Rmin 100 (((acc.1 / INR acc.2 + 1) / 2) * 100))).

(** The second loop: the state is [(weightedSum, weightTotal)]. *)
Definition weightStep (acc : R * R) (entry : Segment * option R) : R * R :=
match entry.2 with
| None => acc
| Some score =>
  let weight := weight (BODY_SEGMENTS entry.1) in
  (acc.1 + score * weight, acc.2 + weight)
end.

Record ComparisonResult : Type := mkComparisonResult {
  overall : R;
  segments : list (Segment * option R);
  timestamp : Z
}.

(** [comparePoses]; [now] is the reading of [Date.now()]. *)
Definition comparePoses (now : Z) (refLandmarks userLandmarks : option (list Landmark))
  : option ComparisonResult :=
match normalizePose refLandmarks, normalizePose userLandmarks with
| Some refNorm, Some userNorm =>
  let segmentScores :=
    (fun name => (name, segmentScore refNorm userNorm (BODY_SEGMENTS name)))
      <$> segment_keys in
  let sums := foldl weightStep (0, 0) segmentScores in
  Some {| overall := if gtb sums.2 0
                     then Math_round ((sums.1 / sums.2) * 10) / 10 else 0;
          segments := segmentScores;
          timestamp := now |}
| _, _ => None
end.

(** [scoreToColor], [scoreToLabel] and [scoreToGrade]; [None] is a
    [null] score. *)
Definition scoreToColor (score : option R) : string :=
match score with
| None => "#64748b"
| Some score =>
  if geb score 85 then "#22c55e"
  else if geb score 70 then "#84cc16"
  else if geb score 55 then "#f59e0b"
  else if geb score 40 then "#f97316"
  else "#ef4444"
end.

Definition scoreToLabel (score : option R) : string :=
match score with
| None => "N/A"
| Some score =>
  if geb score 85 then "Perfect!"
  else if geb score 70 then "Good"
  else if geb score 55 then "Close"
  else if geb score 40 then "Off"
  else "Way Off"
end.

Definition scoreToGrade (score : option R) : string :=
match score with
| None => "—"
| Some score =>
  if geb score 90 then "S"
  else if geb score 80 then "A"
  else if geb score 70 then "B"
  else if geb score 60 then "C"
  else if geb score 50 then "D"
  else "F"
end.

(** *** Vocabulary of the statements about the scorer *)

(** Every landmark has visibility at least 0.4. *)
Definition fully_visible (P : list Landmark) : Prop :=
Forall (fun lm => 0.4 <= orZero (visibility lm)) P.

(** No bone of the six segments is shorter than the cut-off 0.0001 of
    [cosineSim]. *)
Definition bones_nondegenerate (Q : list Landmark) : Prop :=
forall name ab la lb,
  ab ∈ pairs (BODY_SEGMENTS name) ->
  Q !! ab.1 = Some la -> Q !! ab.2 = Some lb ->
  0.0001 <= distance la lb.

(** The per-bone condition under which a pose scores 1 against itself. *)
Definition bone_ok (Q : list Landmark) (ab : nat * nat) : Prop :=
exists la lb,
  Q !! ab.1 = Some la /\ Q !! ab.2 = Some lb /\
  0.4 <= orZero (visibility la) /\ 0.4 <= orZero (visibility lb) /\
  0.0001 <= distance la lb.

(** The uniform map [p' = s * p + t] on a landmark (a missing [z] reads
    as 0, as everywhere in the code); visibility is left alone. *)
Definition affine (s tx ty tz : R) (lm : Landmark) : Landmark :=
{| x := s * x lm + tx;
   y := s * y lm + ty;
   z := Some (s * orZero (z lm) + tz);
   visibility := visibility lm |}.

(** Two entries of [segments] for the same key whose scores are both
    none or differ by [eps] at most. *)
Definition same_score (eps : R) (a b : Segment * option R) : Prop :=
a.1 = b.1 /\
match a.2, b.2 with
| Some va, Some vb => within eps va vb
| None, None => True
| _, _ => False
end.

End PoseSimilarity.

(** ** Numbers and arrays of the session analysis *)

Module JSQ.
Local Open Scope Q_scope.

(** [Math.round] on a rational: the nearest integer, halves going up. *)
Definition Math_round (q : Q) : Z := Qfloor (q + (1 # 2)).

(** [arr.sort(cmp)]: a stable sort (ECMAScript 2019) that puts [a]
    before [b] when [cmp a b <= 0]; insertion from the right end. *)
Fixpoint sort_insert {A : Type} (cmp : A -> A -> Q) (a : A) (l : list A) : list A :=
match l with
| [] => [a]
| b :: rest => if Qle_bool (cmp a b) 0 then a :: b :: rest
               else b :: sort_insert cmp a rest
end.

Definition sort {A : Type} (cmp : A -> A -> Q) (l : list A) : list A :=
foldr (sort_insert cmp) [] l.

(** [arr.reduce((s, v) => s + f v, 0)]. *)
Definition sum {A : Type} (f : A -> Q) (l : list A) : Q :=
foldl (fun s v => s + f v) 0 l.

End JSQ.

(** ** findWorstMoments.js *)

Module FindWorstMoments.
Import JSQ.
Local Open Scope Q_scope.

(** Every pair of members of a list stands in the relation [R]. *)
Fixpoint pairwise {A : Type} (R : A -> A -> Prop) (l : list A) : Prop :=
match l with
| [] => True
| a :: rest => Forall (R a) rest /\ pairwise R rest
end.

Section WithPose.

(** The stored poses are only tested for presence. *)
Variable Pose : Type.

Record SessionSample : Type := mkSample {
  overall : Q;
  timestamp : Z;
  videoTime : option Q;
  refPose : option Pose;
  userPose : option Pose
}.

(** The filter [d.videoTime !== undefined && d.refPose && d.userPose]. *)
Definition valid (d : SessionSample) : bool :=
bool_decide (is_Some (videoTime d)) && bool_decide (is_Some (refPose d))
&& bool_decide (is_Some (userPose d)).

(** [d.videoTime] of a sample that passed the filter. *)
Definition videoTimeOf (d : option SessionSample) : Q :=
default 0 (d ≫= videoTime).

(** [windowSamples]: [None] when the JavaScript value is not a finite
    number, which happens when all timestamps coincide: the quotient is
    then [Infinity] (or [NaN] for [windowSec] 0) and no window is formed;
    for a negative [windowSec] it is [-Infinity] and [Math.max] gives 3. *)
Definition windowSamples (validData : list SessionSample) (windowSec : Q)
  : option nat :=
let totalDurationMs :=
  (from_option timestamp 0 (last validData)
   - from_option timestamp 0 (head validData))%Z in
let avgSampleIntervalMs :=
  inject_Z totalDurationMs / inject_Z (Z.of_nat (length validData) - 1) in
if Qeq_bool avgSampleIntervalMs 0 then
  if Qle_bool 0 (windowSec * 1000) then None else Some 3%nat
else
  Some (Z.to_nat (Z.max 3 (Math_round ((windowSec * 1000) / avgSampleIntervalMs)))).

Record Window : Type := mkWindow {
  index : nat;
  avg : Q;
  w_startVideoTime : Q;
  w_endVideoTime : Q;
  w_samples : list SessionSample
}.

(** The entry pushed to [rollingAvgs] at [i]. *)
Definition windowAt (validData : list SessionSample) (windowSamples i : nat) : Window :=
let window := take windowSamples (drop i validData) in
{| index := i;
   avg := sum overall window / inject_Z (Z.of_nat (length window));
   w_startVideoTime := videoTimeOf (head window);
   w_endVideoTime := videoTimeOf (last window);
   w_samples := window |}.

(** [i] runs from 0 to [validData.length - windowSamples] inclusive. *)
Definition rollingAvgs (validData : list SessionSample) (windowSamples : nat)
  : list Window :=
windowAt validData windowSamples <$> seq 0 (length validData + 1 - windowSamples).

Definition guardZone (windowSamples : nat) : nat :=
Z.to_nat (Z.max (Z.of_nat windowSamples)
                (Math_round (inject_Z (Z.of_nat windowSamples) * 1.5))).

Record Moment : Type := mkMoment {
  startVideoTime : Q;
  endVideoTime : Q;
  avgScore : Q;
  samples : list SessionSample;
  centerIndex : nat
}.

(** Does the candidate window touch a used index? *)
Definition overlaps (usedIndices : gset nat) (candidateIndex windowSamples : nat) : bool :=
existsb (fun i => bool_decide (i ∈ usedIndices)) (seq candidateIndex windowSamples).

(** One turn of the selection loop on the state [(results, usedIndices)];
    once [results.length >= count] the loop has been left and nothing
    changes any more. *)
Definition pickStep (count n windowSamples guardZone : nat)
  (acc : list Moment * gset nat) (candidate : Window) : list Moment * gset nat :=
if (count <=? length acc.1)%nat then acc
else if overlaps acc.2 (index candidate) windowSamples then acc
else
  let from := (index candidate - guardZone)%nat in
  let to := Nat.min n (index candidate + windowSamples + guardZone) in
  (acc.1 ++ [ {| startVideoTime := w_startVideoTime candidate;
                 endVideoTime := w_endVideoTime candidate;
                 avgScore := inject_Z (Math_round (avg candidate * 10)) / 10;
                 samples := w_samples candidate;
                 centerIndex := (index candidate + windowSamples / 2)%nat |} ],
   acc.2 ∪ set_seq from (to - from)).

(** [findWorstMoments (sessionData, count, windowSec)]; an absent
    [sessionData] behaves as the empty list. *)
Definition findWorstMoments (sessionData : list SessionSample)
  (count : nat) (windowSec : Q) : list Moment :=
if (length sessionData <? 5)%nat then [] else
let validData := List.filter valid sessionData in
if (length validData <? 5)%nat then [] else
match windowSamples validData windowSec with
| None => []
| Some windowSamples =>
  let rollingAvgs := rollingAvgs validData windowSamples in
  if (length rollingAvgs =? 0)%nat then [] else
  let sorted := sort (fun a b => avg a - avg b) rollingAvgs in
  let guardZone := guardZone windowSamples in
  let picked :=
    foldl (pickStep count (length validData) windowSamples guardZone) ([], ∅) sorted in
  sort (fun a b => startVideoTime a - startVideoTime b) picked.1
end.

(** *** Vocabulary of the statements about worst moments *)

(** The first sample index of a moment's window. *)
Definition windowStart (windowSamples : nat) (m : Moment) : nat :=
(centerIndex m - windowSamples / 2)%nat.

(** Two windows of [w] samples with a gap of at least [g] between them. *)
Definition apart (w g : nat) (m1 m2 : Moment) : Prop :=
(windowStart w m1 + w + g <= windowStart w m2)%nat \/
(windowStart w m2 + w + g <= windowStart w m1)%nat.

(** What the selection loop keeps true of [(results, usedIndices)]:
    at most [count] results, pairwise apart, each with its guard zone
    marked as used, and their windows covering [length * w] indices
    below [n]. *)
Definition picked_ok (count n w g : nat) (acc : list Moment * gset nat) : Prop :=
(length acc.1 <= count)%nat /\
pairwise (apart w g) acc.1 /\
Forall (fun m => exists i, centerIndex m = (i + w / 2)%nat /\ (i + w <= n)%nat /\
          forall k, (i - g <= k < Nat.min n (i + w + g))%nat -> k ∈ acc.2) acc.1 /\
exists covered : gset nat,
  size covered = (length acc.1 * w)%nat /\ covered ⊆ acc.2 /\ covered ⊆ set_seq 0 n.

(** The moment [m] reports the window of [w] valid samples that starts
    at sample [i]: its samples, centre, video times and its average
    rounded to one decimal. *)
Definition reports (validData : list SessionSample) (w i : nat) (m : Moment) : Prop :=
let window := take w (drop i validData) in
(i + w <= length validData)%nat /\
samples m = window /\
centerIndex m = (i + w / 2)%nat /\
startVideoTime m = videoTimeOf (head window) /\
endVideoTime m = videoTimeOf (last window) /\
avgScore m
= inject_Z (Math_round (sum overall window / inject_Z (Z.of_nat w) * 10)) / 10.

End WithPose.

Arguments index {Pose}.
Arguments avg {Pose}.
Arguments pickStep {Pose}.
Arguments picked_ok {Pose}.
Arguments mkSample {Pose}.
Arguments overall {Pose}.
Arguments timestamp {Pose}.
Arguments videoTime {Pose}.
Arguments valid {Pose}.
Arguments windowSamples {Pose}.
Arguments rollingAvgs {Pose}.
Arguments findWorstMoments {Pose}.
Arguments startVideoTime {Pose}.
Arguments endVideoTime {Pose}.
Arguments avgScore {Pose}.
Arguments samples {Pose}.
Arguments centerIndex {Pose}.
Arguments windowStart {Pose}.
Arguments apart {Pose}.
Arguments reports {Pose}.

(** Ten samples a second apart with a dip at samples 5 to 7. *)
Definition scenario : list (@SessionSample unit) :=
(fun p : Z * Z => mkSample (inject_Z p.2) (1000 * p.1) (Some (inject_Z p.1))
                           (Some tt) (Some tt))
<$> [ (0, 90); (1, 88); (2, 91); (3, 89); (4, 90);
      (5, 40); (6, 38); (7, 42); (8, 90); (9, 92) ]%Z.

(** Thirty samples a second apart, the scores of the scenario three
    times over. *)
Definition long_session : list (SessionSample unit) :=
(fun k : nat =>
   mkSample (overall (default (mkSample 0 0 None None None) (scenario !! (k mod 10))))
            (1000 * Z.of_nat k) (Some (inject_Z (Z.of_nat k))) (Some tt) (Some tt))
<$> seq 0 30.

End FindWorstMoments.

(** ** feedbackEngine.js *)

Module FeedbackEngine.
Import JSQ.
Import PoseSimilarity(Segment, BODY_SEGMENTS, label, segment_keys).
Local Open Scope Q_scope.

(** What the session analysis reads of a stored sample. *)
Record SessionSample : Type := mkSample {
  overall : Q;
  segments : list (Segment * option Q);
  timestamp : Z
}.

Record Phase : Type := mkPhase {
  plabel : string;
  avg : Z;
  weakestSegment : option string;
  weakestScore : Z
}.

(** [segTotals[k] = segTotals[k] || []; segTotals[k].push(v)]: an
    object keeps its keys in the order they were first stored. *)
Fixpoint push (segTotals : list (Segment * list Q)) (k : Segment) (v : Q)
  : list (Segment * list Q) :=
match segTotals with
| [] => [(k, [v])]
| (k', vals) :: rest =>
  if decide (k' = k) then (k', vals ++ [v]) :: rest
  else (k', vals) :: push rest k v
end.

Definition pushEntry (segTotals : list (Segment * list Q))
  (entry : Segment * option Q) : list (Segment * list Q) :=
match entry.2 with
| None => segTotals
| Some v => push segTotals entry.1 v
end.

Definition segTotalsOf (chunk : list SessionSample) : list (Segment * list Q) :=
foldl (fun segTotals d => foldl pushEntry segTotals (segments d)) [] chunk.

Definition mean (vals : list Q) : Q :=
sum (fun v => v) vals / inject_Z (Z.of_nat (length vals)).

(** The loop over [segTotals]: the state is [(weakest, weakestAvg)]. *)
Definition weakestStep (acc : option Segment * Q) (entry : Segment * list Q)
  : option Segment * Q :=
let a := mean entry.2 in
if Qlt_le_dec a acc.2 then (Some entry.1, a) else acc.

Definition weakestOf (chunk : list SessionSample) : option Segment * Q :=
foldl weakestStep (None, 100) (segTotalsOf chunk).

(** [chunk[0].timestamp] and the like, on a chunk that is not empty. *)
Definition timestampOf (d : option SessionSample) : Z :=
from_option timestamp 0%Z d.

(** One turn of the loop of [analyzeTimeline]: the phase pushed for a
    chunk.  The means are exact rationals here and rounded sums and
    quotients in the program, so a mean within rounding of a half can be
    rounded to the other integer by [Math.round] there; the seconds are
    computed from integers and are the same. *)
Definition phaseOf (sessionData chunk : list SessionSample) : Phase :=
let avg := sum overall chunk / inject_Z (Z.of_nat (length chunk)) in
let startSec :=
  Math_round (inject_Z (timestampOf (head chunk) - timestampOf (head sessionData)) / 1000) in
let endSec :=
  Math_round (inject_Z (timestampOf (last chunk) - timestampOf (head sessionData)) / 1000) in
let weakest := weakestOf chunk in
{| plabel := pretty startSec +:+ "s–" +:+ pretty endSec +:+ "s";
   avg := Math_round avg;
   weakestSegment := (fun k => label (BODY_SEGMENTS k)) <$> weakest.1;
   weakestScore := Math_round weakest.2 |}.

(** The loop [for (let i = 0; i < sessionData.length; i += chunkSize)];
    [fuel] bounds the number of turns. *)
Fixpoint timelineLoop (fuel : nat) (sessionData : list SessionSample)
  (chunkSize i : nat) : list Phase :=
match fuel with
| O => []
| S fuel' =>
  if (i <? length sessionData)%nat then
    phaseOf sessionData (take chunkSize (drop i sessionData))
    :: timelineLoop fuel' sessionData chunkSize (i + chunkSize)
  else []
end.

Definition chunkSizeOf (sessionData : list SessionSample) : nat :=
Nat.max 1 (length sessionData / 4).

(** [analyzeTimeline]: a chunk has at least one sample, so
    [sessionData.length] turns are enough. *)
Definition analyzeTimeline (sessionData : list SessionSample) : list Phase :=
timelineLoop (length sessionData) sessionData (chunkSizeOf sessionData) 0.

(** The [timeline] field of the result of [analyzeSession] (the other
    fields are not modelled). *)
Definition analyzeSession_timeline (sessionData : list SessionSample) : list Phase :=
if (length sessionData <? 3)%nat then [] else analyzeTimeline sessionData.

(** *** The rest of feedbackEngine.js *)

(** [a < b] on rationals as a JavaScript condition. *)
Definition Qltb (a b : Q) : bool := negb (Qle_bool b a).

Record Grade : Type := mkGrade {
  letter : string;
  glabel : string;
  gcolor : string
}.

Definition getGrade (score : Q) : Grade :=
if Qle_bool 90 score then mkGrade "S" "Superstar!" "#22c55e"
else if Qle_bool 80 score then mkGrade "A" "Excellent" "#84cc16"
else if Qle_bool 70 score then mkGrade "B" "Good Work" "#38bdf8"
else if Qle_bool 60 score then mkGrade "C" "Getting There" "#f59e0b"
else if Qle_bool 50 score then mkGrade "D" "Keep Practicing" "#f97316"
else mkGrade "F" "Beginner — Keep Going!" "#ef4444".

Record Struggle : Type := mkStruggle {
  s_start : nat;
  s_end : nat
}.

(** One turn of the loop of [findStruggles] at index [iv.1] with score
    [iv.2]: the state is [(struggles, start)]. *)
Definition strugglesStep (threshold : Q) (minLength : nat)
  (acc : list Struggle * option nat) (iv : nat * Q) : list Struggle * option nat :=
if Qltb iv.2 threshold then
  match acc.2 with
  | None => (acc.1, Some iv.1)
  | Some _ => acc
  end
else
  match acc.2 with
  | Some start =>
    if (minLength <=? iv.1 - start)%nat
    then (acc.1 ++ [mkStruggle start (iv.1 - 1)], None)
    else (acc.1, None)
  | None => (acc.1, None)
  end.

Definition findStruggles (scores : list Q) (threshold : Q) (minLength : nat)
  : list Struggle :=
let acc := foldl (strugglesStep threshold minLength) ([], None) (imap pair scores) in
match acc.2 with
| Some start =>
  if (minLength <=? length scores - start)%nat
  then acc.1 ++ [mkStruggle start (length scores - 1)]
  else acc.1
| None => acc.1
end.

(** [standardDeviation]: the variance is rational, its root is real. *)
Definition variance (arr : list Q) : Q :=
let mean := sum (fun v => v) arr / inject_Z (Z.of_nat (length arr)) in
sum (fun v => (v - mean) ^ 2) arr / inject_Z (Z.of_nat (length arr)).

Definition standardDeviation (arr : list Q) : R := sqrt (Q2R (variance arr)).

(** [Math.min(...scores)] and [Math.max(...scores)] of scores that are
    not empty. *)
Definition Math_min (scores : list Q) : Q :=
match scores with
| [] => 0
| v :: rest => foldl Qmin v rest
end.

Definition Math_max (scores : list Q) : Q :=
match scores with
| [] => 0
| v :: rest => foldl Qmax v rest
end.

(** The emoji column of [BODY_SEGMENTS]. *)
Definition emoji (key : Segment) : string :=
match key with
| PoseSimilarity.leftArm | PoseSimilarity.rightArm => "💪"
| PoseSimilarity.leftLeg | PoseSimilarity.rightLeg => "🦵"
| PoseSimilarity.torso => "🫁"
| PoseSimilarity.head => "🗣️"
end.

(** The statistics of one segment; [trend] is [None] where JavaScript
    has [NaN]: with a single score the first half is empty. *)
Record SegmentStats : Type := mkStats {
  st_avg : Q;
  st_min : Q;
  st_max : Q;
  trend : option Q;
  struggles : list Struggle;
  st_label : string;
  st_emoji : string;
  consistency : R
}.

(** [d.segments[key]] on a sample that has the key, as every sample of
    [comparePoses] has ([complete]).  On a sample without the key the
    code reads [undefined], which the filter [v !== null] keeps and
    which turns the statistics of the key into NaN; the model has no
    such value and reads the missing key like a [null] score. *)
Definition scoreAt (key : Segment) (d : SessionSample) : option Q :=
match list_find (fun e : Segment * option Q => e.1 = key) (segments d) with
| Some (_, e) => e.2
| None => None
end.

(** The statistics of the scores of one key; the averages are exact
    rationals here and rounded sums and quotients in the program. *)
Definition statsOf (key : Segment) (scores : list Q) : SegmentStats :=
let avg := sum (fun v => v) scores / inject_Z (Z.of_nat (length scores)) in
let firstHalf := take (length scores / 2) scores in
let secondHalf := drop (length scores / 2) scores in
let firstAvg := sum (fun v => v) firstHalf / inject_Z (Z.of_nat (length firstHalf)) in
let secondAvg := sum (fun v => v) secondHalf / inject_Z (Z.of_nat (length secondHalf)) in
{| st_avg := avg;
   st_min := Math_min scores;
   st_max := Math_max scores;
   trend := if (length firstHalf =? 0)%nat then None else Some (secondAvg - firstAvg);
   struggles := findStruggles scores 50 5;
   st_label := label (BODY_SEGMENTS key);
   st_emoji := emoji key;
   consistency := (100 - standardDeviation scores * 2)%R |}.

(** The object [segmentStats], keys in the order they were stored. *)
Definition segmentStatsOf (sessionData : list SessionSample)
  : list (Segment * SegmentStats) :=
omap (fun key =>
        let scores := omap (scoreAt key) sessionData in
        if (length scores =? 0)%nat then None else Some (key, statsOf key scores))
     segment_keys.

(** [s.toLowerCase()] on the ASCII letters the labels consist of. *)
Definition lowerAscii (c : Ascii.ascii) : Ascii.ascii :=
let n := Ascii.nat_of_ascii c in
if (65 <=? n)%nat && (n <=? 90)%nat then Ascii.ascii_of_nat (n + 32) else c.

Fixpoint toLowerCase (s : string) : string :=
match s with
| EmptyString => EmptyString
| String c rest => String (lowerAscii c) (toLowerCase rest)
end.

(** [trend > c] and [trend < c]: false on [NaN]. *)
Definition trendAbove (c : Q) (t : option Q) : bool :=
match t with Some t => Qltb c t | None => false end.

Definition trendBelow (c : Q) (t : option Q) : bool :=
match t with Some t => Qltb t c | None => false end.

Definition specifics (segKey : Segment) : string :=
match segKey with
| PoseSimilarity.leftArm => "Focus on matching the extension and angle of your left arm."
| PoseSimilarity.rightArm => "Pay attention to your right arm's reach and angle."
| PoseSimilarity.leftLeg => "Your left leg placement and kick height may need work."
| PoseSimilarity.rightLeg =>
  "Right leg positioning — check kick height, step width, or knee bend."
| PoseSimilarity.torso =>
  "Torso alignment is the foundation. Keep your core aligned with the reference."
| PoseSimilarity.head =>
  "Head position affects the overall look. Match your gaze and head angle."
end.

Definition generateSegmentFeedback (segKey : Segment) (stats : SegmentStats)
  : list string :=
let label := toLowerCase (st_label stats) in
[ if Qltb (st_avg stats) 40
  then "Your " +:+ label +:+ " positioning was significantly different from the reference."
  else if Qltb (st_avg stats) 55
  then "Your " +:+ label +:+ " needs considerable work."
  else "Your " +:+ label +:+ " was close but not consistently matching." ] ++
(if (0 <? length (struggles stats))%nat
 then ["There were " +:+ pretty (length (struggles stats)) +:+ " periods where your "
       +:+ label +:+ " dropped below 50%."]
 else []) ++
(if trendAbove 5 (trend stats)
 then ["Good news: your " +:+ label +:+ " improved (+"
       +:+ pretty (Math_round (default 0 (trend stats))) +:+ "% in second half)."]
 else if trendBelow (-5) (trend stats)
 then ["Your " +:+ label +:+ " accuracy dropped towards the end."]
 else []) ++
[specifics segKey].

Record Exercise : Type := mkExercise {
  ename : string;
  edesc : string
}.

Definition generateExercises (segKey : Segment) : list Exercise :=
match segKey with
| PoseSimilarity.leftArm =>
  [ mkExercise "Arm Isolation Drill" "Practice arm movements at 0.5× speed";
    mkExercise "Mirror Matching" "Pause and match arm position exactly" ]
| PoseSimilarity.rightArm =>
  [ mkExercise "Arm Isolation Drill" "Practice arm movements at 0.5× speed";
    mkExercise "Position Holds" "Freeze at trickiest arm positions for 5s each" ]
| PoseSimilarity.leftLeg =>
  [ mkExercise "Footwork Breakdown" "Practice leg movements without arms at half speed";
    mkExercise "Kick Height Check" "Compare kick height against reference" ]
| PoseSimilarity.rightLeg =>
  [ mkExercise "Step Width Practice" "Focus on matching width and depth of each step";
    mkExercise "Slow-Mo Leg Drill" "Run reference at 0.5× for right leg only" ]
| PoseSimilarity.torso =>
  [ mkExercise "Core Alignment Check"
      "Dance while watching skeleton — keep torso lines green";
    mkExercise "Hip-Shoulder Sync" "Rotate hips and shoulders together" ]
| PoseSimilarity.head =>
  [ mkExercise "Head Position Awareness" "Practice with fixed gaze matching reference";
    mkExercise "Posture Check" "Keep chin level and head centered" ]
end.

Record FocusArea : Type := mkFocusArea {
  fa_segment : Segment;
  fa_stats : SegmentStats;
  fa_feedback : list string;
  exercises : list Exercise
}.

Record Strength : Type := mkStrength {
  sg_segment : Segment;
  sg_stats : SegmentStats;
  sg_feedback : string
}.

Record Tip : Type := mkTip {
  icon : string;
  text : string
}.

(** [arr.join(sep)]. *)
Fixpoint join (sep : string) (l : list string) : string :=
match l with
| [] => ""
| [s] => s
| s :: rest => s +:+ sep +:+ join sep rest
end.

Definition generateTopTips (focusAreas : list FocusArea)
  (segmentStats : list (Segment * SegmentStats)) (overallAvg : Q) : list Tip :=
match focusAreas with
| [] =>
  [mkTip "🌟" "Amazing work! All body parts are matching well. Try increasing the speed or a harder routine."]
| worst :: _ =>
  let improving :=
    (fun e : Segment * SegmentStats => st_label e.2)
    <$> List.filter (fun e : Segment * SegmentStats => trendAbove 8 (trend e.2)) segmentStats in
  let declining :=
    (fun e : Segment * SegmentStats => st_label e.2)
    <$> List.filter (fun e : Segment * SegmentStats => trendBelow (-8) (trend e.2)) segmentStats in
  take 5
    ((if (3 <=? length focusAreas)%nat
      then [mkTip "🎯" "Multiple areas need work. Focus on ONE body part at a time at half speed."]
      else []) ++
     [mkTip "⚡" ("Priority fix: your " +:+ toLowerCase (st_label (fa_stats worst)) +:+ " ("
                 +:+ pretty (Math_round (st_avg (fa_stats worst)))
                 +:+ "%). Slow to 0.5× and practice just this area.")] ++
     (if (0 <? length improving)%nat
      then [mkTip "📈" ("Your " +:+ join " and " improving +:+ " improved during the session!")]
      else []) ++
     (if (0 <? length declining)%nat
      then [mkTip "💤" ("Your " +:+ join " and " declining
                        +:+ " got worse towards the end — take a break.")]
      else []) ++
     [mkTip "💡" "Pro tip: Use mirror mode if the reference dancer faces you. Use speed controls to slow down."])
end.

(** The grade of a session: the string ['N/A'] or a grade object. *)
Inductive OverallGrade : Type :=
| NotAvailable
| Graded (g : Grade).

Record Analysis : Type := mkAnalysis {
  overallGrade : OverallGrade;
  overallAvg : option Q;
  focusAreas : list FocusArea;
  strengths : list Strength;
  timeline : list Phase;
  tips : list Tip;
  segmentStats : option (list (Segment * SegmentStats))
}.

(** [analyzeSession]; an absent [sessionData] behaves as the empty
    list, and the two fields the short result lacks are [None]. *)
Definition analyzeSession (sessionData : list SessionSample) : Analysis :=
if (length sessionData <? 3)%nat then
  mkAnalysis NotAvailable None [] [] [] [] None
else
  let segmentStats := segmentStatsOf sessionData in
  let sorted :=
    sort (fun a b : Segment * SegmentStats => st_avg a.2 - st_avg b.2) segmentStats in
  let focusAreas :=
    (fun e : Segment * SegmentStats =>
       mkFocusArea e.1 e.2 (generateSegmentFeedback e.1 e.2) (generateExercises e.1))
    <$> List.filter (fun e : Segment * SegmentStats => Qltb (st_avg e.2) 70) sorted in
  let strengths :=
    (fun e : Segment * SegmentStats =>
       mkStrength e.1 e.2
         (if Qle_bool 85 (st_avg e.2)
          then "Your " +:+ toLowerCase (st_label e.2) +:+ " positioning is excellent!"
          else "Your " +:+ toLowerCase (st_label e.2)
               +:+ " is good overall — minor adjustments would make it perfect."))
    <$> reverse (List.filter (fun e : Segment * SegmentStats => Qle_bool 70 (st_avg e.2)) sorted) in
  let overallScores := overall <$> sessionData in
  let overallAvg :=
    sum (fun v => v) overallScores / inject_Z (Z.of_nat (length overallScores)) in
  mkAnalysis (Graded (getGrade overallAvg)) (Some overallAvg) focusAreas strengths
             (analyzeTimeline sessionData)
             (generateTopTips focusAreas segmentStats overallAvg)
             (Some segmentStats).

(** Index [i] of [l] holds a score below, or not below, [threshold]. *)
Definition below (threshold : Q) (l : list Q) (i : nat) : Prop :=
exists v, l !! i = Some v /\ v < threshold.

Definition notBelow (threshold : Q) (l : list Q) (i : nat) : Prop :=
exists v, l !! i = Some v /\ threshold <= v.

(** A run of scores below [threshold] starts at [a]: there is no score
    before it, or the one before it is not below. *)
Definition runStart (threshold : Q) (l : list Q) (a : nat) : Prop :=
a = 0%nat \/ notBelow threshold l (a - 1).

(** What the loop of [findStruggles] keeps true after the scores [pre]:
    an open run is recorded in [start], and [struggles] holds, in order,
    exactly the closed runs that are long enough. *)
Definition struggles_ok (threshold : Q) (minLength : nat) (pre : list Q)
  (acc : list Struggle * option nat) : Prop :=
match acc.2 with
| Some s => (s < length pre)%nat /\
            (forall i, (s <= i < length pre)%nat -> below threshold pre i) /\
            runStart threshold pre s
| None => pre = [] \/ notBelow threshold pre (length pre - 1)
end /\
(forall a b, mkStruggle a b ∈ acc.1 <->
   (a <= b)%nat /\ (forall i, (a <= i <= b)%nat -> below threshold pre i) /\
   runStart threshold pre a /\ notBelow threshold pre (b + 1) /\
   (minLength <= b + 1 - a)%nat) /\
StronglySorted (fun r1 r2 => (s_end r1 + 1 < s_start r2)%nat) acc.1.

(** A sample as [comparePoses] stores it: the six keys, each once. *)
Definition complete (d : SessionSample) : Prop :=
fst <$> segments d = segment_keys.

(** A sample whose scores are percentages, as those of [comparePoses]
    are. *)
Definition in_range (d : SessionSample) : Prop :=
0 <= overall d <= 100 /\
Forall (fun e : Segment * option Q =>
          match e.2 with Some v => 0 <= v <= 100 | None => True end) (segments d).

(** The tolerance of the statements about means of scores: a millionth
    of a point. *)
Definition tolerance : Q := 1 # 1000000.

(** [rounds_to z q]: the integer [z] is [q] rounded to the nearest
    integer, up to [tolerance] in [q]. *)
Definition rounds_to (z : Z) (q : Q) : Prop :=
q - (1 # 2) - tolerance <= inject_Z z <= q + (1 # 2) + tolerance.

(** [seconds z ms]: [z] is [ms] milliseconds rounded to the nearest
    second, halves going up. *)
Definition seconds (z ms : Z) : Prop :=
(1000 * z - 500 <= ms < 1000 * z + 500)%Z.

(** *** Vocabulary of the statements about the timeline *)

(** The [k]-th chunk. *)
Definition chunkAt (sessionData : list SessionSample) (k : nat) : list SessionSample :=
take (chunkSizeOf sessionData) (drop (k * chunkSizeOf sessionData) sessionData).


(** The score an entry holds for segment [k], if any. *)
Definition sel (k : Segment) (e : Segment * option Q) : option Q :=
if decide (e.1 = k) then e.2 else None.

(** The scores a chunk holds for a segment, in order. *)
Definition scoresOf (k : Segment) (chunk : list SessionSample) : list Q :=
chunk ≫= (fun d => omap (sel k) (segments d)).

(** [segTotals] lists, each once, the segments that have scores so far,
    each with its scores. *)
Definition totals_ok (st : list (Segment * list Q)) (seen : Segment -> list Q) : Prop :=
NoDup (fst <$> st) /\
forall k vals, (k, vals) ∈ st <-> vals = seen k /\ vals <> [].

(** A session of [n] samples a second apart, every segment scoring like
    the sample as a whole. *)
Definition session (scores : list Z) : list SessionSample :=
(fun p : nat * Z =>
   mkSample (inject_Z p.2)
            ((fun name => (name, Some (inject_Z p.2))) <$> segment_keys)
            (1000 * Z.of_nat p.1))
<$> imap pair scores.

End FeedbackEngine.

(** ** audioCoach.js *)

Module AudioCoach.
Import JS PoseNormalizer PoseSimilarity.
Local Open Scope R_scope.

Definition COOLDOWN_MS : Z := 4000.
Definition SCORE_THRESHOLD_SPEAK : R := 55.
Definition SCORE_THRESHOLD_PRAISE : R := 85.

(** The three module-level variables, threaded through the calls. *)
Record State : Type := mkState {
  lastSpeakTime : Z;
  lastSpokenSegment : option Segment;
  enabled : bool
}.

Definition initial : State :=
{| lastSpeakTime := 0; lastSpokenSegment := None; enabled := true |}.

Record Joints : Type := mkJoints {
  primary : nat * nat;    (* tip, base *)
  jlabel : string
}.

Definition SEGMENT_TO_JOINTS (segmentKey : Segment) : Joints :=
match segmentKey with
| leftArm => mkJoints (15, 13)%nat "left arm"
| rightArm => mkJoints (16, 14)%nat "right arm"
| leftLeg => mkJoints (27, 25)%nat "left leg"
| rightLeg => mkJoints (28, 26)%nat "right leg"
| torso => mkJoints (11, 23)%nat "torso"
| head => mkJoints (0, 11)%nat "head"
end.

(** [analyzeDifference]; every key the caller passes is in the table. *)
Definition analyzeDifference (refLandmarks userLandmarks : list Landmark)
  (segmentKey : Segment) : option string :=
let seg := SEGMENT_TO_JOINTS segmentKey in
let tipIdx := (primary seg).1 in
let baseIdx := (primary seg).2 in
match refLandmarks !! tipIdx, userLandmarks !! tipIdx,
      refLandmarks !! baseIdx, userLandmarks !! baseIdx with
| Some ref, Some user, Some refBase, Some userBase =>
  if ltb (orZero (visibility ref)) 0.4 || ltb (orZero (visibility user)) 0.4
  then None else
  let refRelY := y ref - y refBase in
  let userRelY := y user - y userBase in
  let refRelX := x ref - x refBase in
  let userRelX := x user - x userBase in
  let yDiff := userRelY - refRelY in
  let xDiff := userRelX - refRelX in
  let label := jlabel seg in
  let absY := Rabs yDiff in
  let absX := Rabs xDiff in
  if gtb absY absX && gtb absY 0.04 then
    Some (if gtb yDiff 0 then "Raise your " +:+ label +:+ " higher"
          else "Lower your " +:+ label +:+ " a bit")
  else if gtb absX 0.04 then
    Some (if gtb xDiff 0 then "Bring your " +:+ label +:+ " more to the left"
          else "Extend your " +:+ label +:+ " more to the right")
  else Some ("Adjust your " +:+ label +:+ " position")
| _, _, _, _ => None
end.

(** The loop that finds the worst segment: the state is
    [(worstSeg, worstScore)]. *)
Definition worstStep (acc : option Segment * R) (entry : Segment * option R)
  : option Segment * R :=
match entry.2 with
| None => acc
| Some score => if ltb score acc.2 then (Some entry.1, score) else acc
end.

Definition worstSegment (comparison : ComparisonResult) : option Segment * R :=
foldl worstStep (None, 100) (segments comparison).

(** A string used as a condition: the empty string is falsy. *)
Definition truthy (s : option string) : option string :=
match s with
| Some EmptyString => None
| other => other
end.

(** [generateVoiceCue]: the state before, the reading [now] of
    [Date.now()] and the arguments give the state after and the text
    handed to [speak], if any. *)
Definition generateVoiceCue (st : State) (now : Z)
  (comparison : option ComparisonResult)
  (refLandmarks userLandmarks : option (list Landmark))
  (posecodeVoiceCue : option string) : State * option string :=
if negb (enabled st) then (st, None) else
match comparison with
| None => (st, None)
| Some comparison =>
  if (now - lastSpeakTime st <? COOLDOWN_MS)%Z then (st, None) else
  let worst := worstSegment comparison in
  let worstSeg := worst.1 in
  let worstScore := worst.2 in
  if geb worstScore SCORE_THRESHOLD_SPEAK then
    if geb (overall comparison) SCORE_THRESHOLD_PRAISE
       && (8000 <? now - lastSpeakTime st)%Z
    then ({| lastSpeakTime := now;
             lastSpokenSegment := lastSpokenSegment st;
             enabled := enabled st |},
          Some "Great form! You're nailing it!")
    else (st, None)
  else
  if bool_decide (worstSeg = lastSpokenSegment st)
     && (now - lastSpeakTime st <? COOLDOWN_MS * 2)%Z
  then (st, None) else
  let message :=
    match truthy posecodeVoiceCue, refLandmarks, userLandmarks, worstSeg with
    | Some cue, _, _, _ => Some cue
    | None, Some refL, Some userL, Some seg => analyzeDifference refL userL seg
    | None, _, _, _ => None
    end in
  let message :=
    match truthy message with
    | Some m => m
    | None =>
      "Watch your " +:+ match worstSeg with
                        | Some seg => jlabel (SEGMENT_TO_JOINTS seg)
                        | None => "null"
                        end
    end in
  ({| lastSpeakTime := now; lastSpokenSegment := worstSeg; enabled := enabled st |},
   Some message)
end.

Definition resetAudioCoach (st : State) : State :=
{| lastSpeakTime := 0; lastSpokenSegment := None; enabled := enabled st |}.

Definition setAudioCoachEnabled (st : State) (val : bool) : State :=
{| lastSpeakTime := lastSpeakTime st;
   lastSpokenSegment := lastSpokenSegment st;
   enabled := val |}.

(** One call of [generateVoiceCue] with its clock reading. *)
Record Call : Type := mkCall {
  c_now : Z;
  c_comparison : option ComparisonResult;
  c_ref : option (list Landmark);
  c_user : option (list Landmark);
  c_cue : option string
}.

(** The utterances of a sequence of calls, each with the time it was
    spoken at. *)
Fixpoint run (st : State) (calls : list Call) : list (Z * string) :=
match calls with
| [] => []
| c :: rest =>
  let r := generateVoiceCue st (c_now c) (c_comparison c) (c_ref c) (c_user c) (c_cue c) in
  match r.2 with
  | Some text => (c_now c, text) :: run r.1 rest
  | None => run r.1 rest
  end
end.

(** A call whose comparison has worst segment [seg], below 55. *)
Definition flags (seg : Segment) (c : Call) : Prop :=
exists comparison,
  c_comparison c = Some comparison /\
  (worstSegment comparison).1 = Some seg /\
  (worstSegment comparison).2 < SCORE_THRESHOLD_SPEAK.

(** Any two utterances of a trace are at least [gap] ms apart, the later
    call speaking later. *)
Definition spaced (gap : Z) (trace : list (Z * string)) : Prop :=
forall i j e1 e2, (i < j)%nat ->
  trace !! i = Some e1 -> trace !! j = Some e2 -> (e1.1 + gap <= e2.1)%Z.

(** Each utterance comes at least [gap] ms after the one before it, the
    first one at least [gap] ms after [last]. *)
Fixpoint chain (gap last : Z) (trace : list (Z * string)) : Prop :=
match trace with
| [] => True
| e :: rest => (last + gap <= e.1)%Z /\ chain gap e.1 rest
end.

(** A comparison with the left arm at 40 and everything else at 90, and
    [n] ticks of it, 200 ms apart from time [t0] on. *)
Definition lowLeftArm (now : Z) : ComparisonResult :=
{| overall := 80;
   segments := [ (leftArm, Some 40); (rightArm, Some 90); (leftLeg, Some 90);
                 (rightLeg, Some 90); (torso, Some 90); (head, Some 90) ];
   timestamp := now |}.

Definition ticks (t0 : Z) (n : nat) : list Call :=
(fun k : nat =>
   let now := (t0 + 200 * Z.of_nat k)%Z in
   mkCall now (Some (lowLeftArm now)) None None None) <$> seq 0 n.

End AudioCoach.

(** ** poseDescriber.js *)

Module PoseDescriber.
Import JS PoseNormalizer PoseSimilarity.
Import FeedbackEngine(join).
Local Open Scope R_scope.

(** MediaPipe landmark indices. *)
Module LM.
Definition NOSE : nat := 0.
Definition LEFT_SHOULDER : nat := 11.
Definition RIGHT_SHOULDER : nat := 12.
Definition LEFT_ELBOW : nat := 13.
Definition RIGHT_ELBOW : nat := 14.
Definition LEFT_WRIST : nat := 15.
Definition RIGHT_WRIST : nat := 16.
Definition LEFT_HIP : nat := 23.
Definition RIGHT_HIP : nat := 24.
Definition LEFT_KNEE : nat := 25.
Definition RIGHT_KNEE : nat := 26.
Definition LEFT_ANKLE : nat := 27.
Definition RIGHT_ANKLE : nat := 28.
End LM.

(** The interior angle at [b], in degrees; none when an arm of the angle
    is shorter than 0.001.  [acos] is the exact arc cosine; the
    program's [Math.acos] of a rounded cosine gives 179.9999988 or so
    where this gives 180. *)
Definition angle3 (a b c : Landmark) : option R :=
let bax := x a - x b in
let bay := y a - y b in
let bcx := x c - x b in
let bcy := y c - y b in
let dot := bax * bcx + bay * bcy in
let magBA := sqrt (bax ^ 2 + bay ^ 2) in
let magBC := sqrt (bcx ^ 2 + bcy ^ 2) in
if ltb magBA 0.001 || ltb magBC 0.001 then None else
let cosAngle := Rmax (-1) (Rmin 1 (dot / (magBA * magBC))) in
Some ((acos cosAngle * 180) / PI).

(** [vis(lm, ...indices)]: every index names a landmark of visibility
    0.4 or more. *)
Definition vis (lm : list Landmark) (indices : list nat) : bool :=
forallb (fun i =>
  geb (orZero (match lm !! i with Some l => visibility l | None => None end)) 0.4)
  indices.

(** Reading [lm[i]] where the array is known to have 33 entries. *)
Definition get (lm : list Landmark) (i : nat) : Landmark :=
default (mkLandmark 0 0 None None) (lm !! i).

Definition midY (lm : list Landmark) (a b : nat) : R :=
(y (get lm a) + y (get lm b)) / 2.

Record Posecode : Type := mkPosecode {
  segment : Segment;
  code : string;
  desc : string
}.

Inductive Side : Type := left | right.

(** The codes one turn of the arm loop pushes. *)
Definition armCodes (lm : list Landmark) (side : Side) : list Posecode :=
let S := match side with left => LM.LEFT_SHOULDER | right => LM.RIGHT_SHOULDER end in
let E := match side with left => LM.LEFT_ELBOW | right => LM.RIGHT_ELBOW end in
let W := match side with left => LM.LEFT_WRIST | right => LM.RIGHT_WRIST end in
let H := match side with left => LM.LEFT_HIP | right => LM.RIGHT_HIP end in
let label := match side with left => "Left arm" | right => "Right arm" end in
let seg := match side with left => leftArm | right => rightArm end in
if negb (vis lm [S; E; W]) then [] else
let elbowAngle := angle3 (get lm S) (get lm E) (get lm W) in
(* elbow bend *)
match elbowAngle with
| None => []
| Some elbowAngle =>
  if ltb elbowAngle 60 then
    [mkPosecode seg "arm_tightly_bent" (label +:+ " is tightly bent at the elbow")]
  else if ltb elbowAngle 100 then
    [mkPosecode seg "arm_bent" (label +:+ " is bent at roughly 90°")]
  else if gtb elbowAngle 155 then
    [mkPosecode seg "arm_straight" (label +:+ " is fully extended")]
  else []
end ++
(* arm height relative to shoulder *)
(if ltb (y (get lm W)) (y (get lm S) - 0.05) then
   if ltb (y (get lm W)) (y (get lm LM.NOSE)) then
     [mkPosecode seg "arm_overhead" (label +:+ " is raised overhead")]
   else [mkPosecode seg "arm_raised" (label +:+ " is raised above shoulder level")]
 else if gtb (y (get lm W)) (y (get lm H)) then
   [mkPosecode seg "arm_dropped" (label +:+ " is hanging down by the side")]
 else []) ++
(* arm extension outward *)
(let xDist := Rabs (x (get lm W) - x (get lm S)) in
 if gtb xDist 0.15 && ltb (Rabs (y (get lm W) - y (get lm S))) 0.08 then
   [mkPosecode seg "arm_extended_sideways" (label +:+ " is extended out to the side")]
 else []) ++
(* hand crossing the body midline *)
(let midX := (x (get lm LM.LEFT_SHOULDER) + x (get lm LM.RIGHT_SHOULDER)) / 2 in
 match side with
 | left =>
   if gtb (x (get lm W)) (midX + 0.05) then
     [mkPosecode seg "arm_crossed" (label +:+ " is crossed over the body")]
   else []
 | right =>
   if ltb (x (get lm W)) (midX - 0.05) then
     [mkPosecode seg "arm_crossed" (label +:+ " is crossed over the body")]
   else []
 end).

(** The codes one turn of the leg loop pushes. *)
Definition legCodes (lm : list Landmark) (side : Side) : list Posecode :=
let H := match side with left => LM.LEFT_HIP | right => LM.RIGHT_HIP end in
let K := match side with left => LM.LEFT_KNEE | right => LM.RIGHT_KNEE end in
let A := match side with left => LM.LEFT_ANKLE | right => LM.RIGHT_ANKLE end in
let label := match side with left => "Left leg" | right => "Right leg" end in
let seg := match side with left => leftLeg | right => rightLeg end in
if negb (vis lm [H; K; A]) then [] else
let kneeAngle := angle3 (get lm H) (get lm K) (get lm A) in
match kneeAngle with
| None => []
| Some kneeAngle =>
  if ltb kneeAngle 90 then
    [mkPosecode seg "knee_deep_bend" (label +:+ " is deeply bent (plié/squat position)")]
  else if ltb kneeAngle 140 then
    [mkPosecode seg "knee_bent" (label +:+ " has a bent knee")]
  else if gtb kneeAngle 165 then
    [mkPosecode seg "leg_straight" (label +:+ " is straight and extended")]
  else []
end ++
(if ltb (y (get lm K)) (y (get lm H) - 0.03) then
   [mkPosecode seg "leg_raised" (label +:+ " is raised with knee above hip level")]
 else []) ++
(let hipMidX := (x (get lm LM.LEFT_HIP) + x (get lm LM.RIGHT_HIP)) / 2 in
 let legSpread := Rabs (x (get lm A) - hipMidX) in
 if gtb legSpread 0.15 then
   [mkPosecode seg "leg_spread" (label +:+ " is extended outward (wide stance)")]
 else []).

Definition torsoCodes (lm : list Landmark) : list Posecode :=
if vis lm [LM.LEFT_SHOULDER; LM.RIGHT_SHOULDER; LM.LEFT_HIP; LM.RIGHT_HIP] then
  let shoulderMidY := midY lm LM.LEFT_SHOULDER LM.RIGHT_SHOULDER in
  let hipMidY := midY lm LM.LEFT_HIP LM.RIGHT_HIP in
  let shoulderMidX := (x (get lm LM.LEFT_SHOULDER) + x (get lm LM.RIGHT_SHOULDER)) / 2 in
  let hipMidX := (x (get lm LM.LEFT_HIP) + x (get lm LM.RIGHT_HIP)) / 2 in
  let xTilt := shoulderMidX - hipMidX in
  (if gtb (Rabs xTilt) 0.04 then
     [mkPosecode torso
        (if gtb xTilt 0 then "torso_lean_right" else "torso_lean_left")
        ("Torso is leaning to the " +:+ (if gtb xTilt 0 then "right" else "left"))]
   else []) ++
  (let shoulderTilt := y (get lm LM.LEFT_SHOULDER) - y (get lm LM.RIGHT_SHOULDER) in
   if gtb (Rabs shoulderTilt) 0.04 then
     [mkPosecode torso "shoulders_tilted"
        ("Shoulders are tilted (" +:+
         (if gtb shoulderTilt 0 then "left shoulder lower" else "right shoulder lower")
         +:+ ")")]
   else []) ++
  (let torsoHeight := Rabs (hipMidY - shoulderMidY) in
   if ltb torsoHeight 0.08 then
     [mkPosecode torso "torso_compact" "Body is in a compact/crouched position"]
   else [])
else [].

Definition headCodes (lm : list Landmark) : list Posecode :=
if vis lm [LM.NOSE; LM.LEFT_SHOULDER; LM.RIGHT_SHOULDER] then
  let shoulderMidX := (x (get lm LM.LEFT_SHOULDER) + x (get lm LM.RIGHT_SHOULDER)) / 2 in
  let shoulderMidY_ := midY lm LM.LEFT_SHOULDER LM.RIGHT_SHOULDER in
  let headTiltX := x (get lm LM.NOSE) - shoulderMidX in
  (if gtb (Rabs headTiltX) 0.05 then
     [mkPosecode head "head_tilted"
        ("Head is tilted to the " +:+ (if gtb headTiltX 0 then "right" else "left"))]
   else []) ++
  (if gtb (y (get lm LM.NOSE)) (shoulderMidY_ + 0.02) then
     [mkPosecode head "head_dropped" "Head is dropped/looking down"]
   else [])
else [].

(** [extractPosecodes]: the array [codes] after the two arm turns, the
    two leg turns, the torso block and the head block. *)
Definition extractPosecodes (landmarks : option (list Landmark))
  : option (list Posecode) :=
match landmarks with
| None => None
| Some lm =>
  if (length lm <? 33)%nat then None else
  Some (armCodes lm left ++ armCodes lm right ++
        legCodes lm left ++ legCodes lm right ++
        torsoCodes lm ++ headCodes lm)
end.

(** *** Vocabulary of the statements about posecodes *)

(** The landmarks whose visibility gates the rules of a segment. *)
Definition gate (seg : Segment) : list nat :=
match seg with
| leftArm => [LM.LEFT_SHOULDER; LM.LEFT_ELBOW; LM.LEFT_WRIST]
| rightArm => [LM.RIGHT_SHOULDER; LM.RIGHT_ELBOW; LM.RIGHT_WRIST]
| leftLeg => [LM.LEFT_HIP; LM.LEFT_KNEE; LM.LEFT_ANKLE]
| rightLeg => [LM.RIGHT_HIP; LM.RIGHT_KNEE; LM.RIGHT_ANKLE]
| torso => [LM.LEFT_SHOULDER; LM.RIGHT_SHOULDER; LM.LEFT_HIP; LM.RIGHT_HIP]
| head => [LM.NOSE; LM.LEFT_SHOULDER; LM.RIGHT_SHOULDER]
end.

(** Landmark [i] of the pose is there and has visibility 0.4 or more. *)
Definition visible (lm : list Landmark) (i : nat) : Prop :=
exists l, lm !! i = Some l /\ 0.4 <= orZero (visibility l).

(** The segment on the other side of the body, and the code that says
    the same of the other side. *)
Definition opposite (seg : Segment) : Segment :=
match seg with
| leftArm => rightArm
| rightArm => leftArm
| leftLeg => rightLeg
| rightLeg => leftLeg
| torso => torso
| head => head
end.

Definition oppositeCode (c : string) : string :=
if String.eqb c "torso_lean_right" then "torso_lean_left"
else if String.eqb c "torso_lean_left" then "torso_lean_right"
else c.

(** The segment and code of a posecode, as they are and as they read
    from the other side. *)
Definition sided (pc : Posecode) : Segment * string := (segment pc, code pc).

Definition mirrored (pc : Posecode) : Segment * string :=
(opposite (segment pc), oppositeCode (code pc)).

(** *** Comparing the posecodes of two poses *)

(** The property name of a segment, as it appears in the keys. *)
Definition segmentName (s : Segment) : string :=
match s with
| leftArm => "leftArm"
| rightArm => "rightArm"
| leftLeg => "leftLeg"
| rightLeg => "rightLeg"
| torso => "torso"
| head => "head"
end.

(** The key [`${c.segment}:${c.code}`] of a posecode. *)
Definition key (c : Posecode) : string :=
segmentName (segment c) +:+ ":" +:+ code c.

Inductive DescriptionType : Type := missing | extra.

Record Description : Type := mkDescription {
  d_segment : Segment;
  d_text : string;
  d_type : DescriptionType
}.

Record Difference : Type := mkDifference {
  descriptions : list Description;
  refPosecodes : list Posecode;
  userPosecodes : list Posecode
}.

(** [set.has(k)] on the set built from an array of keys. *)
Definition has (keys : list string) (k : string) : bool :=
bool_decide (k ∈ keys).

Definition describePoseDifference (refLandmarks userLandmarks : option (list Landmark))
  : option Difference :=
match extractPosecodes refLandmarks, extractPosecodes userLandmarks with
| Some refCodes, Some userCodes =>
  let userCodeSet := key <$> userCodes in
  let refCodeSet := key <$> refCodes in
  let missed :=
    (fun rc => mkDescription (segment rc)
                 ("Reference shows: " +:+ desc rc +:+ " — try to match this") missing)
    <$> List.filter (fun rc => negb (has userCodeSet (key rc))) refCodes in
  let extras :=
    (fun uc => mkDescription (segment uc)
                 ("Your pose: " +:+ desc uc
                  +:+ " — but the reference doesn't do this here") extra)
    <$> List.filter (fun uc => negb (has refCodeSet (key uc))) userCodes in
  Some {| descriptions := missed ++ extras;
          refPosecodes := refCodes;
          userPosecodes := userCodes |}
| _, _ => None
end.

(** The loop over [Object.entries(segmentScores)] that both coaching
    functions run; without [segmentScores] it is skipped. *)
Definition worstOf (segmentScores : option (list (Segment * option R)))
  : option Segment * R :=
foldl (fun (acc : option Segment * R) (entry : Segment * option R) =>
         match entry.2 with
         | Some score => if ltb score acc.2 then (Some entry.1, score) else acc
         | None => acc
         end)
      (None, 100) (default [] segmentScores).

(** [diff.descriptions[0]?.text || null]. *)
Definition firstText (descriptions : list Description) : option string :=
match descriptions with
| [] => None
| d :: _ => match d_text d with EmptyString => None | t => Some t end
end.

Definition getRealtimeCoachingLabel (refLandmarks userLandmarks : option (list Landmark))
  (segmentScores : option (list (Segment * option R))) : option string :=
match describePoseDifference refLandmarks userLandmarks with
| None => None
| Some diff =>
  if (length (descriptions diff) =? 0)%nat then None else
  let worst := worstOf segmentScores in
  match worst.1 with
  | Some worstSeg =>
    if ltb worst.2 70 then
      match List.find (fun d => bool_decide (d_segment d = worstSeg)) (descriptions diff) with
      | Some segFeedback => Some (d_text segFeedback)
      | None => firstText (descriptions diff)
      end
    else firstText (descriptions diff)
  | None => firstText (descriptions diff)
  end
end.

Definition getVoiceCoachingCue (refLandmarks userLandmarks : option (list Landmark))
  (segmentScores : option (list (Segment * option R))) : option string :=
match describePoseDifference refLandmarks userLandmarks with
| None => None
| Some diff =>
  if (length (descriptions diff) =? 0)%nat then None else
  let worst := worstOf segmentScores in
  match worst.1 with
  | Some worstSeg =>
    match List.filter (fun c => bool_decide (segment c = worstSeg)) (refPosecodes diff) with
    | c :: _ => Some (desc c)
    | [] => firstText (descriptions diff)
    end
  | None => firstText (descriptions diff)
  end
end.

Definition newline : string := String (Ascii.ascii_of_nat 10) "".

Definition serializePosecodesForLLM (refLandmarks userLandmarks : option (list Landmark))
  : string :=
match describePoseDifference refLandmarks userLandmarks with
| None => ""
| Some diff =>
  join newline
    ((if (0 <? length (refPosecodes diff))%nat
      then ["Reference pose: " +:+ join "; " (desc <$> refPosecodes diff)] else []) ++
     (if (0 <? length (userPosecodes diff))%nat
      then ["Your pose: " +:+ join "; " (desc <$> userPosecodes diff)] else []) ++
     (if (0 <? length (descriptions diff))%nat
      then ["Differences: " +:+ join "; " (d_text <$> descriptions diff)] else []))
end.

End PoseDescriber.

(** ** skeletonRenderer.js *)

Module SkeletonRenderer.
Import JS PoseNormalizer PoseSimilarity.
Local Open Scope R_scope.

Definition SEGMENT_CONNECTIONS (segName : Segment) : list (nat * nat) :=
match segName with
| leftArm => [(11, 13); (13, 15)]
| rightArm => [(12, 14); (14, 16)]
| leftLeg => [(23, 25); (25, 27)]
| rightLeg => [(24, 26); (26, 28)]
| torso => [(11, 12); (11, 23); (12, 24); (23, 24)]
| head => [(0, 11); (0, 12)]
end%nat.

(** [segmentScores[segName]]: the outer [None] is [undefined], the
    value of a property the object does not have. *)
Definition scoreOf (segmentScores : list (Segment * option R)) (segName : Segment)
  : option (option R) :=
snd <$> List.find (fun e : Segment * option R => bool_decide (e.1 = segName)) segmentScores.

(** [scoreToColor] of such a value: [undefined] is not [null] and
    fails every comparison, which leaves the last colour. *)
Definition colorOf (score : option (option R)) : string :=
match score with
| None => "#ef4444"
| Some score => scoreToColor score
end.

Definition includes (arr : list nat) (idx : nat) : bool := bool_decide (idx ∈ arr).

Definition getKeypointSegmentColor (idx : nat) (segmentScores : list (Segment * option R))
  : string :=
if includes [11; 13; 15; 17; 19; 21]%nat idx then colorOf (scoreOf segmentScores leftArm)
else if includes [12; 14; 16; 18; 20; 22]%nat idx then colorOf (scoreOf segmentScores rightArm)
else if includes [23; 25; 27; 29; 31]%nat idx then colorOf (scoreOf segmentScores leftLeg)
else if includes [24; 26; 28; 30; 32]%nat idx then colorOf (scoreOf segmentScores rightLeg)
else if includes [0; 7; 8]%nat idx then colorOf (scoreOf segmentScores head)
else colorOf (scoreOf segmentScores torso).

(** What [drawSkeleton] puts on the canvas: the stroked lines with the
    stroke settings in force, and the keypoints, each a white disc of
    radius 7 under a disc of radius 5 in [fillStyle]. *)
Record Line : Type := mkLine {
  strokeStyle : string;
  lineWidth : nat;
  shadowBlur : nat;
  moveTo : R * R;
  lineTo : R * R
}.

Record Dot : Type := mkDot {
  center : R * R;
  fillStyle : string
}.

Record Drawing : Type := mkDrawing {
  lines : list Line;
  dots : list Dot
}.

(** Reading [landmarks[i]] in an array of at least 33 entries. *)
Definition get (landmarks : list Landmark) (i : nat) : Landmark :=
default (mkLandmark 0 0 None None) (landmarks !! i).

Definition shown (lm : Landmark) : bool := negb (ltb (orZero (visibility lm)) 0.4).

Definition SKIP : list nat := [1; 2; 3; 4; 5; 6; 9; 10]%nat.

(** The lines of one segment. *)
Definition segmentLines (landmarks : list Landmark) (w h : R)
  (segmentScores : option (list (Segment * option R))) (uniformColor : string)
  (segName : Segment) : list Line :=
let color :=
  match segmentScores with
  | Some scores => colorOf (scoreOf scores segName)
  | None => uniformColor
  end in
let isOff :=
  match segmentScores with
  | Some scores =>
    match scoreOf scores segName with
    | Some (Some score) => ltb score 55
    | _ => false
    end
  | None => false
  end in
omap (fun c : nat * nat =>
        let start := get landmarks c.1 in
        let end_ := get landmarks c.2 in
        if shown start && shown end_ then
          Some (mkLine color (if isOff then 5 else 3) (if isOff then 15 else 0)
                  (x start * w, y start * h) (x end_ * w, y end_ * h))
        else None)
     (SEGMENT_CONNECTIONS segName).

Definition drawSkeleton (landmarks : option (list Landmark)) (w h : R)
  (segmentScores : option (list (Segment * option R))) (uniformColor : string) : Drawing :=
match landmarks with
| None => mkDrawing [] []
| Some landmarks =>
  if (length landmarks <? 33)%nat then mkDrawing [] [] else
  mkDrawing
    (segment_keys ≫= segmentLines landmarks w h segmentScores uniformColor)
    (omap (fun i : nat =>
             if includes SKIP i then None else
             let lm := get landmarks i in
             if shown lm then
               Some (mkDot (x lm * w, y lm * h)
                       match segmentScores with
                       | Some scores => getKeypointSegmentColor i scores
                       | None => uniformColor
                       end)
             else None)
          (seq 0 (Nat.min (length landmarks) 33)))
end.

(** *** Smoothing *)

Definition SMOOTHING_WINDOW : nat := 4.

Inductive Channel : Type := ref | user.

#[global] Instance Channel_eq_dec : EqDecision Channel.
Proof. solve_decision. Defined.

(** The module variable [histories]. *)
Record Histories : Type := mkHistories {
  h_ref : list (list Landmark);
  h_user : list (list Landmark)
}.

Definition history_of (histories : Histories) (channel : Channel) : list (list Landmark) :=
match channel with ref => h_ref histories | user => h_user histories end.

Definition set_history (histories : Histories) (channel : Channel)
  (history : list (list Landmark)) : Histories :=
match channel with
| ref => mkHistories history (h_user histories)
| user => mkHistories (h_ref histories) history
end.

(** A call returns, or reading a coordinate of [frame[idx]] throws
    because an earlier frame is too short to have that landmark. *)
Inductive Outcome (A : Type) : Type :=
| Returned (a : A)
| TypeError.

Arguments Returned {A}.
Arguments TypeError {A}.

(** The landmark the [map] callback makes for index [idx]: the exact
    means of the frames of the window, which the program rounds. *)
Definition smoothAt (history : list (list Landmark)) (idx : nat) : option Landmark :=
frames ← mapM (fun frame : list Landmark => frame !! idx) history;
let n := INR (length history) in
Some {| x := foldl (fun s f => s + x f) 0 frames / n;
        y := foldl (fun s f => s + y f) 0 frames / n;
        z := Some (foldl (fun s f => s + orZero (z f)) 0 frames / n);
        visibility := Some (foldl (fun s f => s + orZero (visibility f)) 0 frames / n) |}.

(** [smoothLandmarks]: the histories before and the arguments give the
    histories after and the outcome; the frame is pushed before
    anything can throw. *)
Definition smoothLandmarks (histories : Histories) (landmarks : option (list Landmark))
  (channel : Channel) : Histories * Outcome (option (list Landmark)) :=
match landmarks with
| None => (histories, Returned None)
| Some lms =>
  if (length lms =? 0)%nat then (histories, Returned landmarks) else
  let pushed := history_of histories channel ++ [lms] in
  let history :=
    if (SMOOTHING_WINDOW <? length pushed)%nat then drop 1 pushed else pushed in
  let histories := set_history histories channel history in
  if (length history <? 2)%nat then (histories, Returned landmarks) else
  match mapM (smoothAt history) (seq 0 (length lms)) with
  | Some smoothed => (histories, Returned (Some smoothed))
  | None => (histories, TypeError)
  end
end.

Definition resetSmoothing (histories : Histories) (channel : option Channel) : Histories :=
match channel with
| Some channel => set_history histories channel []
| None => mkHistories [] []
end.

(** [isPoseValid]. *)
Definition isPoseValid (landmarks : option (list Landmark)) : bool :=
match landmarks with
| None => false
| Some landmarks =>
  if (length landmarks <? 33)%nat then false else
  forallb (fun i : nat =>
             match landmarks !! i with
             | Some lm => gtb (orZero (visibility lm)) 0.3
             | None => false
             end)
          [11; 12; 23; 24]%nat
end.

(** The rounding allowed in the mean of numbers between [lo] and [hi]:
    a billionth of the larger of the two bounds. *)
Definition slack (lo hi : R) : R := 0.000000001 * Rmax (Rabs lo) (Rabs hi).

End SkeletonRenderer.

(** ** Sample poses *)

Module Poses.
Import PoseNormalizer.
Local Open Scope R_scope.

(** A landmark in the image plane with visibility [v]. *)
Definition at_ (v px py : R) : Landmark := mkLandmark px py (Some 0) (Some v).

(** A stick figure standing upright, arms hanging: hips around (1, 1),
    shoulders around (1, 3), so the torso has length 2.  Every landmark
    has visibility [v]; the left elbow sits at height [e]. *)
Definition figure (v e : R) : list Landmark :=
[ at_ v 1 4;                                              (* 0 nose *)
  at_ v 1 4; at_ v 1 4; at_ v 1 4; at_ v 1 4; at_ v 1 4; at_ v 1 4;
  at_ v 1 4; at_ v 1 4; at_ v 1 4; at_ v 1 4;             (* 1-10 face *)
  at_ v 2 3; at_ v 0 3;                                   (* 11, 12 shoulders *)
  at_ v 2 e; at_ v 0 2;                                   (* 13, 14 elbows *)
  at_ v 2 1; at_ v 0 1;                                   (* 15, 16 wrists *)
  at_ v 2 1; at_ v 0 1; at_ v 2 1; at_ v 0 1; at_ v 2 1; at_ v 0 1;
  at_ v 2 1; at_ v 0 1;                                   (* 23, 24 hips *)
  at_ v 2 0; at_ v 0 0;                                   (* 25, 26 knees *)
  at_ v 2 (-1); at_ v 0 (-1);                             (* 27, 28 ankles *)
  at_ v 2 (-1); at_ v 0 (-1); at_ v 2 (-1); at_ v 0 (-1) ].

(** The same figure in the body-centred frame (hip midpoint at the
    origin, torso length 1), the left elbow at height [e]. *)
Definition figure_normalized (v e : R) : list Landmark :=
[ at_ v 0 1.5;
  at_ v 0 1.5; at_ v 0 1.5; at_ v 0 1.5; at_ v 0 1.5; at_ v 0 1.5; at_ v 0 1.5;
  at_ v 0 1.5; at_ v 0 1.5; at_ v 0 1.5; at_ v 0 1.5;
  at_ v 0.5 1; at_ v (-0.5) 1;
  at_ v 0.5 e; at_ v (-0.5) 0.5;
  at_ v 0.5 0; at_ v (-0.5) 0;
  at_ v 0.5 0; at_ v (-0.5) 0; at_ v 0.5 0; at_ v (-0.5) 0; at_ v 0.5 0; at_ v (-0.5) 0;
  at_ v 0.5 0; at_ v (-0.5) 0;
  at_ v 0.5 (-0.5); at_ v (-0.5) (-0.5);
  at_ v 0.5 (-1); at_ v (-0.5) (-1);
  at_ v 0.5 (-1); at_ v (-0.5) (-1); at_ v 0.5 (-1); at_ v (-0.5) (-1) ].

(** Fully visible, arms hanging. *)
Definition standing : list Landmark := figure 1 2.

(** Fully visible, the left elbow drawn up onto the left shoulder. *)
Definition tucked : list Landmark := figure 1 3.

(** The standing figure with no landmark visible. *)
Definition hidden : list Landmark := figure 0 2.

(** The standing figure with the left elbow out of sight. *)
Definition elbow_hidden : list Landmark :=
<[13%nat := mkLandmark 2 2 (Some 0) (Some 0)]> standing.

(** The standing figure with the nose out of sight. *)
Definition nose_hidden : list Landmark :=
<[0%nat := mkLandmark 1 4 (Some 0) (Some 0)]> standing.

(** The standing figure with the left shoulder drawn up by half a unit. *)
Definition tilted : list Landmark :=
<[11%nat := at_ 1 2 3.5]> standing.

End Poses.

(** * Properties *)

(** ** Facts about the JavaScript helpers *)

Module JSFacts.
Import JS.
Local Open Scope R_scope.

Lemma ltb_true (a b : R) : ltb a b = true <-> a < b.
Proof. unfold ltb. destruct (Rlt_dec a b); split; (congruence || tauto || lra). Qed.

Lemma ltb_false (a b : R) : ltb a b = false <-> b <= a.
Proof. unfold ltb. destruct (Rlt_dec a b); split; (congruence || lra). Qed.

Lemma Math_round_IZR (n : Z) : Math_round (IZR n) = IZR n.
Proof.
unfold Math_round. f_equal. apply Zfloor_eq. lra.
Qed.

Lemma sumsq_nonneg (a b c : R) : 0 <= a ^ 2 + b ^ 2 + c ^ 2.
Proof.
pose proof (pow2_ge_0 a). pose proof (pow2_ge_0 b). pose proof (pow2_ge_0 c). lra.
Qed.

Lemma sqrt_of_square (a b : R) : 0 <= b -> a = b * b -> sqrt a = b.
Proof. intros Hb ->. apply sqrt_square, Hb. Qed.

Lemma sqrt_ge (a c : R) : 0 <= c -> c * c <= a -> c <= sqrt a.
Proof.
intros Hc Hca. rewrite <- (sqrt_square c Hc). apply sqrt_le_1_alt, Hca.
Qed.

Lemma sqrt_lt (a c : R) : 0 < c -> a < c * c -> sqrt a < c.
Proof.
intros Hc Hac.
destruct (Rle_dec 0 a) as [Ha|Ha].
- apply Rlt_le_trans with (sqrt (c * c)).
  + apply sqrt_lt_1_alt. lra.
  + rewrite sqrt_square; lra.
- unfold sqrt. destruct (Rcase_abs a) as [_|Hge]; [lra|].
  exfalso. apply Ha. apply Rge_le, Hge.
Qed.

End JSFacts.

(** ** The normalizer *)

Module NormalizerFacts.
Import JS JSFacts PoseNormalizer.
Local Open Scope R_scope.

(** What a successful normalization tells about its input. *)
Lemma normalizePose_Some (P Q : list Landmark) :
  normalizePose (Some P) = Some Q ->
  exists h1 h2 s1 s2 L,
    P !! 23%nat = Some h1 /\ P !! 24%nat = Some h2 /\
    P !! 11%nat = Some s1 /\ P !! 12%nat = Some s2 /\
    (33 <= length P)%nat /\
    L = distance (midpoint s1 s2) (midpoint h1 h2) /\ 0.001 <= L /\
    Q = (fun lm =>
      {| x := (x lm - x (midpoint h1 h2)) / L;
         y := (y lm - y (midpoint h1 h2)) / L;
         z := Some ((orZero (z lm) - orZero (z (midpoint h1 h2))) / L);
         visibility := Some (orZero (visibility lm)) |}) <$> P.
Proof.
unfold normalizePose, torsoLen_of, midHip_of, midShoulder_of.
destruct (Nat.ltb_spec (length P) 33) as [Hlen|Hlen]; [discriminate|].
destruct (P !! 23%nat) as [h1|] eqn:E1; [|destruct (P !! 11%nat), (P !! 12%nat); discriminate].
destruct (P !! 24%nat) as [h2|] eqn:E2; [|destruct (P !! 11%nat), (P !! 12%nat); discriminate].
destruct (P !! 11%nat) as [s1|] eqn:E3; [|discriminate].
destruct (P !! 12%nat) as [s2|] eqn:E4; [|discriminate].
destruct (ltb _ _) eqn:Hlt; [discriminate|].
apply ltb_false in Hlt. intros [= <-].
exists h1, h2, s1, s2, (distance (midpoint s1 s2) (midpoint h1 h2)).
repeat split; auto.
Qed.

(** Conversely, the guards are the only way to fail. *)
Lemma normalizePose_intro (P : list Landmark) (h1 h2 s1 s2 : Landmark) :
  P !! 23%nat = Some h1 -> P !! 24%nat = Some h2 ->
  P !! 11%nat = Some s1 -> P !! 12%nat = Some s2 ->
  (33 <= length P)%nat ->
  0.001 <= distance (midpoint s1 s2) (midpoint h1 h2) ->
  normalizePose (Some P) = Some ((fun lm =>
      {| x := (x lm - x (midpoint h1 h2)) / distance (midpoint s1 s2) (midpoint h1 h2);
         y := (y lm - y (midpoint h1 h2)) / distance (midpoint s1 s2) (midpoint h1 h2);
         z := Some ((orZero (z lm) - orZero (z (midpoint h1 h2)))
                    / distance (midpoint s1 s2) (midpoint h1 h2));
         visibility := Some (orZero (visibility lm)) |}) <$> P).
Proof.
intros E1 E2 E3 E4 Hlen HL.
unfold normalizePose, torsoLen_of, midHip_of, midShoulder_of.
rewrite E1, E2, E3, E4.
destruct (Nat.ltb_spec (length P) 33) as [Hlt|_]; [lia|].
apply ltb_false in HL. rewrite HL. reflexivity.
Qed.

(** The square of a distance is the sum of squares under the root. *)
Lemma distance_sqr (a b : Landmark) :
  distance a b * distance a b =
  (x a - x b) ^ 2 + (y a - y b) ^ 2 + (orZero (z a) - orZero (z b)) ^ 2.
Proof.
unfold distance. apply sqrt_sqrt. apply sumsq_nonneg.
Qed.

(** C3. Normalization is idempotent: when [normalizePose] succeeds on a
    pose, applying it to its own output succeeds and returns that output
    again, coordinates and visibility values alike (exactly so over the
    reals, hence within any tolerance). *)
Theorem normalizePose_idempotent (P Q : list Landmark) :
  normalizePose (Some P) = Some Q ->
  normalizePose (Some Q) = Some Q.
Proof.
intros HQ.
destruct (normalizePose_Some P Q HQ)
  as (h1 & h2 & s1 & s2 & L & E1 & E2 & E3 & E4 & Hlen & HL & Hpos & ->).
set (f := fun lm : Landmark => _).
assert (HL2 : L * L = (x (midpoint s1 s2) - x (midpoint h1 h2)) ^ 2
                    + (y (midpoint s1 s2) - y (midpoint h1 h2)) ^ 2
                    + (orZero (z (midpoint s1 s2)) - orZero (z (midpoint h1 h2))) ^ 2).
{ rewrite HL. apply distance_sqr. }
assert (HD : distance (midpoint (f s1) (f s2)) (midpoint (f h1) (f h2)) = 1).
{ unfold distance. rewrite <- sqrt_1. f_equal.
  unfold f; cbn [x y z visibility midpoint orZero] in *.
  field_simplify_eq; [|lra]. nra. }
rewrite (normalizePose_intro (f <$> P) (f h1) (f h2) (f s1) (f s2)).
- rewrite HD. rewrite <- list_fmap_compose. f_equal.
  apply list_fmap_ext. intros i lm _.
  unfold f, compose; cbn [x y z visibility midpoint orZero].
  f_equal; [| | f_equal]; field; lra.
- rewrite list_lookup_fmap, E1. reflexivity.
- rewrite list_lookup_fmap, E2. reflexivity.
- rewrite list_lookup_fmap, E3. reflexivity.
- rewrite list_lookup_fmap, E4. reflexivity.
- rewrite length_fmap. exact Hlen.
- rewrite HD. lra.
Qed.

Lemma lookup_33 (P : list Landmark) (i : nat) :
  (33 <= length P)%nat -> (i < 33)%nat -> exists lm, P !! i = Some lm.
Proof.
intros Hlen Hi. destruct (lookup_lt_is_Some_2 P i) as [lm E]; [lia|]. eauto.
Qed.

(** [normalizePose] fails exactly on an absent pose, on fewer than 33
    landmarks and on a torso shorter than 0.001. *)
Lemma normalizePose_None_iff (p : option (list Landmark)) :
  normalizePose p = None <->
  match p with
  | None => True
  | Some P => (length P < 33)%nat \/ exists L, torsoLen_of P = Some L /\ L < 0.001
  end.
Proof.
destruct p as [P|]; [|simpl; tauto].
unfold normalizePose.
destruct (Nat.ltb_spec (length P) 33) as [Hlt|Hge]; [tauto|].
destruct (lookup_33 P 23 Hge) as [h1 E1]; [lia|].
destruct (lookup_33 P 24 Hge) as [h2 E2]; [lia|].
destruct (lookup_33 P 11 Hge) as [s1 E3]; [lia|].
destruct (lookup_33 P 12 Hge) as [s2 E4]; [lia|].
unfold torsoLen_of, midHip_of, midShoulder_of. rewrite E1, E2, E3, E4.
destruct (ltb _ _) eqn:Hlt.
- apply ltb_true in Hlt. split; [|reflexivity]. intros _. right. eauto.
- apply ltb_false in Hlt. split; [discriminate|].
  intros [Hl|(L & [= <-] & HL)]; [lia|lra].
Qed.

Lemma Landmark_eq (x1 x2 y1 y2 z1 z2 v1 v2 : R) :
  x1 = x2 -> y1 = y2 -> z1 = z2 -> v1 = v2 ->
  mkLandmark x1 y1 (Some z1) (Some v1) = mkLandmark x2 y2 (Some z2) (Some v2).
Proof. intros -> -> -> ->. reflexivity. Qed.

(** Equality of two explicit poses, coordinate by coordinate. *)
Ltac pose_eq :=
  repeat first
    [ apply (f_equal (@Some (list Landmark)))
    | apply (f_equal2 (@cons Landmark))
    | apply Landmark_eq
    | reflexivity
    | lra ].

(** Normalizing the sample figure: translate by (1, 1), halve. *)
Lemma normalize_figure (v e : R) :
  normalizePose (Some (Poses.figure v e))
  = Some (Poses.figure_normalized v ((e - 1) / 2)).
Proof.
assert (HD : distance (midpoint (Poses.at_ v 2 3) (Poses.at_ v 0 3))
                      (midpoint (Poses.at_ v 2 1) (Poses.at_ v 0 1)) = 2).
{ unfold distance. cbn [x y z midpoint Poses.at_ orZero].
  apply sqrt_of_square; [lra|simpl; lra]. }
rewrite (normalizePose_intro (Poses.figure v e)
           (Poses.at_ v 2 1) (Poses.at_ v 0 1) (Poses.at_ v 2 3) (Poses.at_ v 0 3));
  try reflexivity; try (rewrite HD; lra).
rewrite HD.
cbv [Poses.figure Poses.figure_normalized Poses.at_ fmap list_fmap
     midpoint x y z visibility orZero].
pose_eq.
Qed.

(** The theorem at the standing figure and its normal form. *)
Lemma normalizePose_idempotent_witness :
  normalizePose (Some (Poses.figure_normalized 1 ((2 - 1) / 2)))
  = Some (Poses.figure_normalized 1 ((2 - 1) / 2)).
Proof.
apply (normalizePose_idempotent Poses.standing).
apply normalize_figure.
Defined.

Ltac explode_pose P H :=
  do 33 (destruct P as [|? P]; [discriminate H|]);
  destruct P; [clear H|discriminate H].

(** C10. [mirrorPose] carries every landmark, with its visibility (and
    [y], [z]) untouched and [x] negated, to the index the swap table
    pairs it with; and mirroring a pose of 33 landmarks twice gives the
    pose back exactly. *)
Theorem mirrorPose_involution (P : list Landmark) :
  length P = 33%nat ->
  (exists M, mirrorPose (Some P) = Some M /\ length M = 33%nat /\
     forall i lm, P !! i = Some lm ->
       exists m, M !! partner i = Some m /\ visibility m = visibility lm /\
                 x m = - x lm /\ y m = y lm /\ z m = z lm) /\
  mirrorPose (mirrorPose (Some P)) = Some P.
Proof.
intros Hlen. explode_pose P Hlen. split.
- eexists; split; [reflexivity|]. split; [reflexivity|].
  intros i lm Hi.
  do 33 (destruct i as [|i];
         [injection Hi as <-; cbv -[Ropp]; eexists; split; [reflexivity|]; auto|]).
  discriminate Hi.
- cbv -[Ropp]. rewrite !Ropp_involutive.
  repeat match goal with l : Landmark |- _ => destruct l end.
  reflexivity.
Qed.

(** The theorem at the standing figure. *)
Lemma mirrorPose_involution_witness :
  mirrorPose (mirrorPose (Some Poses.standing)) = Some Poses.standing.
Proof.
apply (mirrorPose_involution Poses.standing).
reflexivity.
Defined.

(** A pose in ordinary position normalizes. *)
Lemma ordinary_normalizes (P : list Landmark) :
  ordinary P -> normalizePose (Some P) <> None.
Proof.
intros (Hlen & _ & L & HL & HL') Hnone.
apply normalizePose_None_iff in Hnone.
destruct Hnone as [Hlt|(L' & HL2 & Hlt)]; [lia|].
rewrite HL in HL2. injection HL2 as <-. lra.
Qed.

(** Checking that an explicit pose is in ordinary position. *)
Ltac ordinary_check :=
  split; [cbv [length fmap list_fmap Poses.figure]; lia|];
  split;
  [ cbv [fmap list_fmap Poses.figure Poses.at_ PoseSimilarity.affine x y z orZero];
    repeat (apply Forall_cons; split; [cbv [x y z orZero]; lra|]);
    apply Forall_nil_2
  | eexists; split; [reflexivity|];
    unfold distance;
    cbv [midpoint fmap list_fmap Poses.at_ PoseSimilarity.affine x y z orZero];
    apply sqrt_ge; simpl; lra ].

End NormalizerFacts.

(** ** The similarity scorer *)

Module SimilarityFacts.
Import JS JSFacts PoseNormalizer NormalizerFacts PoseSimilarity.
Local Open Scope R_scope.

Lemma vecBetween_mag (a b : Landmark) :
  sqrt (vx (vecBetween a b) ^ 2 + vy (vecBetween a b) ^ 2 + vz (vecBetween a b) ^ 2)
  = distance a b.
Proof.
unfold distance, vecBetween; cbn [vx vy vz]. f_equal. ring.
Qed.

(** A vector that passes the cut-off has cosine 1 with itself. *)
Lemma cosineSim_self (v : Vec) :
  0.0001 <= sqrt (vx v ^ 2 + vy v ^ 2 + vz v ^ 2) -> cosineSim v v = 1.
Proof.
intros Hm. unfold cosineSim.
apply ltb_false in Hm. rewrite Hm. cbn [orb].
apply ltb_false in Hm.
set (m := sqrt _) in *.
assert (Hmm : m * m = vx v ^ 2 + vy v ^ 2 + vz v ^ 2).
{ apply sqrt_sqrt, sumsq_nonneg. }
replace (vx v * vx v + vy v * vy v + vz v * vz v) with (m * m) by (rewrite Hmm; ring).
field. lra.
Qed.

(** A vector below the cut-off has cosine 0 with everything. *)
Lemma cosineSim_degenerate (v1 v2 : Vec) :
  sqrt (vx v1 ^ 2 + vy v1 ^ 2 + vz v1 ^ 2) < 0.0001 -> cosineSim v1 v2 = 0.
Proof.
intros Hm. unfold cosineSim. apply ltb_true in Hm. rewrite Hm. reflexivity.
Qed.

Lemma minVis_ge (ra rb ua ub : Landmark) (c : R) :
  c <= orZero (visibility ra) -> c <= orZero (visibility rb) ->
  c <= orZero (visibility ua) -> c <= orZero (visibility ub) ->
  c <= minVis ra rb ua ub.
Proof.
intros. unfold minVis. repeat apply Rmin_glb; assumption.
Qed.

(** A visible bone of non-degenerate length adds 1 to [totalSim]. *)
Lemma pairStep_self (Q : list Landmark) (acc : R * nat) (ab : nat * nat)
  (la lb : Landmark) :
  Q !! ab.1 = Some la -> Q !! ab.2 = Some lb ->
  0.4 <= orZero (visibility la) -> 0.4 <= orZero (visibility lb) ->
  0.0001 <= distance la lb ->
  pairStep Q Q acc ab = (acc.1 + 1, S acc.2).
Proof.
intros Ea Eb Hva Hvb Hd. unfold pairStep. rewrite Ea, Eb.
assert (Hv : ltb (minVis la lb la lb) 0.4 = false).
{ apply ltb_false, minVis_ge; assumption. }
rewrite Hv, cosineSim_self; [reflexivity|].
rewrite vecBetween_mag. exact Hd.
Qed.

(** A visible bone shorter than the cut-off adds 0, and still counts. *)
Lemma pairStep_degenerate (Q : list Landmark) (acc : R * nat) (ab : nat * nat)
  (la lb : Landmark) :
  Q !! ab.1 = Some la -> Q !! ab.2 = Some lb ->
  0.4 <= orZero (visibility la) -> 0.4 <= orZero (visibility lb) ->
  distance la lb < 0.0001 ->
  pairStep Q Q acc ab = (acc.1 + 0, S acc.2).
Proof.
intros Ea Eb Hva Hvb Hd. unfold pairStep. rewrite Ea, Eb.
assert (Hv : ltb (minVis la lb la lb) 0.4 = false).
{ apply ltb_false, minVis_ge; assumption. }
rewrite Hv, cosineSim_degenerate; [reflexivity|].
rewrite vecBetween_mag. exact Hd.
Qed.

(** A bone with an endpoint below 0.4 is skipped. *)
Lemma pairStep_skip (Qr Qu : list Landmark) (acc : R * nat) (ab : nat * nat)
  (ra rb ua ub : Landmark) :
  Qr !! ab.1 = Some ra -> Qr !! ab.2 = Some rb ->
  Qu !! ab.1 = Some ua -> Qu !! ab.2 = Some ub ->
  minVis ra rb ua ub < 0.4 ->
  pairStep Qr Qu acc ab = acc.
Proof.
intros E1 E2 E3 E4 Hv. unfold pairStep. rewrite E1, E2, E3, E4.
apply ltb_true in Hv. rewrite Hv. reflexivity.
Qed.

Lemma foldl_pairStep_self (Q : list Landmark) (ps : list (nat * nat)) :
  (forall ab, ab ∈ ps -> exists la lb,
     Q !! ab.1 = Some la /\ Q !! ab.2 = Some lb /\
     0.4 <= orZero (visibility la) /\ 0.4 <= orZero (visibility lb) /\
     0.0001 <= distance la lb) ->
  forall acc,
  foldl (pairStep Q Q) acc ps = (acc.1 + INR (length ps), (acc.2 + length ps)%nat).
Proof.
induction ps as [|ab ps IH]; intros Hps acc.
- cbn. destruct acc as [t n]. cbn. f_equal; [lra|lia].
- destruct (Hps ab) as (la & lb & Ea & Eb & Hva & Hvb & Hd); [left|].
  cbn [foldl]. rewrite (pairStep_self Q acc ab la lb) by assumption.
  rewrite IH by (intros; apply Hps; right; assumption).
  cbn [fst snd length]. rewrite S_INR. f_equal; [lra|lia].
Qed.

Lemma score_100 (k : nat) :
  (0 < k)%nat ->
  Rmax 0 (Rmin 100 ((((0 + INR k) / INR k + 1) / 2) * 100)) = 100.
Proof.
intros Hk. assert (0 < INR k) by (apply lt_0_INR; lia).
replace ((((0 + INR k) / INR k + 1) / 2) * 100) with 100 by (field; lra).
rewrite Rmin_left, Rmax_right; lra.
Qed.

Lemma segmentScore_bones_ok (Q : list Landmark) (name : Segment) :
  (forall ab, ab ∈ pairs (BODY_SEGMENTS name) -> bone_ok Q ab) ->
  segmentScore Q Q (BODY_SEGMENTS name) = Some 100.
Proof.
intros Hok. unfold segmentScore.
rewrite foldl_pairStep_self by exact Hok.
cbn [fst snd]. destruct name; cbn [BODY_SEGMENTS pairs length Nat.add Nat.eqb];
  rewrite score_100; (reflexivity || lia).
Qed.

Lemma segmentScore_self (Q : list Landmark) (name : Segment) :
  (33 <= length Q)%nat ->
  fully_visible Q -> bones_nondegenerate Q ->
  segmentScore Q Q (BODY_SEGMENTS name) = Some 100.
Proof.
intros Hlen Hvis Hbones. apply segmentScore_bones_ok.
intros [a b] Hab.
assert (Ha : (a < 33)%nat /\ (b < 33)%nat).
{ destruct name; cbn [BODY_SEGMENTS pairs] in Hab;
    repeat (apply elem_of_cons in Hab; destruct Hab as [[= -> ->]|Hab]; [split; lia|]);
    apply elem_of_nil in Hab; contradiction. }
destruct (lookup_33 Q a Hlen) as [la Ea]; [lia|].
destruct (lookup_33 Q b Hlen) as [lb Eb]; [lia|].
exists la, lb. cbn [fst snd]. repeat split; try assumption.
- eapply Forall_lookup_1 in Hvis; [|exact Ea]. exact Hvis.
- eapply Forall_lookup_1 in Hvis; [|exact Eb]. exact Hvis.
- apply (Hbones name (a, b)); assumption.
Qed.

Lemma normalized_visible (P Q : list Landmark) :
  normalizePose (Some P) = Some Q -> fully_visible P -> fully_visible Q.
Proof.
intros HQ Hvis.
destruct (normalizePose_Some P Q HQ) as (h1 & h2 & s1 & s2 & L & _ & _ & _ & _ & _ & _ & _ & ->).
unfold fully_visible in *. rewrite Forall_fmap.
eapply Forall_impl; [exact Hvis|]. intros lm Hlm. exact Hlm.
Qed.

Lemma normalized_length (P Q : list Landmark) :
  normalizePose (Some P) = Some Q -> length Q = length P /\ (33 <= length P)%nat.
Proof.
intros HQ.
destruct (normalizePose_Some P Q HQ) as (h1 & h2 & s1 & s2 & L & _ & _ & _ & _ & Hlen & _ & _ & ->).
rewrite length_fmap. auto.
Qed.

(** The weighted average when every segment scores [c]. *)
Lemma overall_constant (c : Z) :
  let sums := foldl weightStep (0, 0)
                ((fun name => (name, Some (IZR c))) <$> segment_keys) in
  (if gtb sums.2 0 then Math_round ((sums.1 / sums.2) * 10) / 10 else 0) = IZR c.
Proof.
cbv [segment_keys fmap list_fmap foldl weightStep fst snd BODY_SEGMENTS weight].
set (ws := 0 + _ * _ + _ + _ + _ + _ + _).
set (wt := 0 + 1.5 + _ + _ + _ + _ + _).
assert (Hwt : wt = 7.5) by (unfold wt; lra).
assert (Hws : ws = IZR c * 7.5) by (unfold ws; lra).
unfold gtb. assert (Hg : ltb 0 wt = true) by (apply ltb_true; lra).
rewrite Hg. replace (ws / wt * 10) with (IZR (c * 10)).
- rewrite Math_round_IZR, mult_IZR. field.
- rewrite mult_IZR, Hws, Hwt. field; lra.
Qed.

(** In the exact arithmetic of the model every score of a pose against
    itself is exactly 100. *)
Lemma comparePoses_self_exact (now : Z) (P Q : list Landmark) :
  fully_visible P ->
  normalizePose (Some P) = Some Q ->
  bones_nondegenerate Q ->
  comparePoses now (Some P) (Some P)
  = Some {| overall := 100;
            segments := (fun name => (name, Some 100)) <$> segment_keys;
            timestamp := now |}.
Proof.
intros Hvis HQ Hbones.
pose proof (normalized_visible P Q HQ Hvis) as HvisQ.
destruct (normalized_length P Q HQ) as [HlenQ Hlen].
unfold comparePoses. rewrite HQ.
assert (Hseg : (fun name => (name, segmentScore Q Q (BODY_SEGMENTS name))) <$> segment_keys
             = (fun name => (name, Some (IZR 100))) <$> segment_keys).
{ apply list_fmap_ext. intros _ name _. f_equal.
  apply segmentScore_self; [lia|assumption..]. }
rewrite Hseg. f_equal. f_equal.
apply (overall_constant 100).
Qed.

(** C1 (amended).  For every pose of at least 33 landmarks, all of
    visibility at least 0.4, whose normalization succeeds and none of
    whose bones is shorter than 0.0001 after normalization,
    [comparePoses (P, P)] returns overall 100 and, for each of the six
    segments, a score that is at most 100 and at least 100 less a
    billionth (the cosine of a bone with itself is 1 up to rounding, and
    the score is cut off at 100). *)
Theorem comparePoses_self (now : Z) (P Q : list Landmark) :
  fully_visible P ->
  normalizePose (Some P) = Some Q ->
  bones_nondegenerate Q ->
  exists res,
    comparePoses now (Some P) (Some P) = Some res /\
    overall res = 100 /\
    fst <$> segments res = segment_keys /\
    Forall (fun e : Segment * option R =>
              exists score, e.2 = Some score /\
                            100 - 0.000000001 <= score <= 100) (segments res).
Proof.
intros Hvis HQ Hbones.
eexists. split; [exact (comparePoses_self_exact now P Q Hvis HQ Hbones)|].
cbn [overall segments]. split; [reflexivity|]. split; [reflexivity|].
rewrite Forall_fmap. apply Forall_forall. intros name _.
exists 100. cbn [snd]. split; [reflexivity|lra].
Qed.

(** Checking one bone of an explicit pose. *)
Ltac bone_check :=
  eexists _, _; split; [reflexivity|]; split; [reflexivity|];
  cbn [visibility orZero Poses.at_];
  split; [lra|]; split; [lra|];
  unfold distance; cbn [x y z orZero Poses.at_]; apply sqrt_ge; simpl; lra.

Ltac bones_check :=
  let ab := fresh "ab" in let Hab := fresh "Hab" in
  intros ab Hab; cbn [BODY_SEGMENTS pairs] in Hab;
  repeat (apply elem_of_cons in Hab; destruct Hab as [->|Hab]; [bone_check|]);
  apply elem_of_nil in Hab; contradiction.

(** The theorem at the standing figure. *)
Lemma comparePoses_self_witness :
  exists res,
    comparePoses 0 (Some Poses.standing) (Some Poses.standing) = Some res /\
    overall res = 100 /\
    fst <$> segments res = segment_keys /\
    Forall (fun e : Segment * option R =>
              exists score, e.2 = Some score /\
                            100 - 0.000000001 <= score <= 100) (segments res).
Proof.
apply (comparePoses_self 0 Poses.standing (Poses.figure_normalized 1 ((2 - 1) / 2))).
- unfold fully_visible, Poses.standing, Poses.figure.
  repeat (apply Forall_cons; split; [cbn [visibility orZero Poses.at_]; lra|]).
  apply Forall_nil_2.
- apply normalize_figure.
- intros name ab la lb Hab Ea Eb.
  assert (Hok : bone_ok (Poses.figure_normalized 1 ((2 - 1) / 2)) ab).
  { clear Ea Eb. revert ab Hab. destruct name; bones_check. }
  destruct Hok as (la' & lb' & Ea' & Eb' & _ & _ & Hd).
  congruence.
Defined.

(** The weighted average of the scores 75, 100, 100, 100, 100, 100. *)
Lemma overall_tucked :
  let sums := foldl weightStep (0, 0)
                [ (leftArm, Some 75); (rightArm, Some 100); (leftLeg, Some 100);
                  (rightLeg, Some 100); (torso, Some 100); (head, Some 100) ] in
  (if gtb sums.2 0 then Math_round ((sums.1 / sums.2) * 10) / 10 else 0) = 95.
Proof.
cbv [foldl weightStep fst snd BODY_SEGMENTS weight].
unfold gtb.
assert (Hg : ltb 0 (0 + 1.5 + 1.5 + 1.5 + 1.5 + 1.0 + 0.5) = true)
  by (apply ltb_true; lra).
rewrite Hg.
match goal with
| |- Math_round ?e / 10 = _ => replace e with (IZR 950) by lra
end.
rewrite Math_round_IZR. lra.
Qed.

(** C1, as stated, fails.  The tucked figure has 33 landmarks, all of
    visibility 1, and normalizes; its left upper arm has length 0, so
    [cosineSim] answers 0 for that bone and [comparePoses] of the figure
    with itself gives overall 95 and, for the left arm, 75 up to
    rounding. *)
Lemma comparePoses_self_counterexample :
  length Poses.tucked = 33%nat /\
  fully_visible Poses.tucked /\
  normalizePose (Some Poses.tucked) <> None /\
  exists res score,
    comparePoses 0 (Some Poses.tucked) (Some Poses.tucked) = Some res /\
    overall res = 95 /\
    (leftArm, Some score) ∈ segments res /\
    within 0.000000001 score 75.
Proof.
split; [reflexivity|]. split.
{ unfold fully_visible, Poses.tucked, Poses.figure.
  repeat (apply Forall_cons; split; [cbn [visibility orZero Poses.at_]; lra|]).
  apply Forall_nil_2. }
unfold Poses.tucked. split; [rewrite normalize_figure; discriminate|].
unfold comparePoses. rewrite normalize_figure.
set (Q := Poses.figure_normalized 1 ((3 - 1) / 2)).
assert (Hleft : segmentScore Q Q (BODY_SEGMENTS leftArm) = Some 75).
{ unfold segmentScore. cbn [BODY_SEGMENTS pairs foldl].
  rewrite (pairStep_degenerate Q (0, 0%nat) (11, 13)%nat
             (Poses.at_ 1 0.5 1) (Poses.at_ 1 0.5 ((3 - 1) / 2)));
    try reflexivity; try (cbn [visibility orZero Poses.at_]; lra).
  2:{ unfold distance; cbn [x y z orZero Poses.at_]. apply sqrt_lt; simpl; lra. }
  rewrite (pairStep_self Q _ (13, 15)%nat
             (Poses.at_ 1 0.5 ((3 - 1) / 2)) (Poses.at_ 1 0.5 0));
    try reflexivity; try (cbn [visibility orZero Poses.at_]; lra).
  2:{ unfold distance; cbn [x y z orZero Poses.at_]. apply sqrt_ge; simpl; lra. }
  cbn [fst snd Nat.eqb]. f_equal.
  replace ((0 + 0 + 1) / INR 2 + 1) with 1.5 by (simpl; lra).
  rewrite Rmin_right, Rmax_right; lra. }
assert (Hrest : forall name, name <> leftArm ->
          segmentScore Q Q (BODY_SEGMENTS name) = Some 100).
{ intros name Hname. apply segmentScore_bones_ok.
  destruct name; try congruence; bones_check. }
cbv [segment_keys fmap list_fmap].
rewrite Hleft, !Hrest by discriminate.
eexists _, 75. split; [reflexivity|]. cbn [overall segments].
split; [apply overall_tucked|]. split; [left|unfold within; lra].
Qed.

Lemma foldl_weightStep_none (entries : list (Segment * option R)) (acc : R * R) :
  (forall e, e ∈ entries -> e.2 = None) ->
  foldl weightStep acc entries = acc.
Proof.
revert acc. induction entries as [|e entries IH]; intros acc Hnone; [reflexivity|].
cbn [foldl]. unfold weightStep at 2. rewrite (Hnone e) by left.
apply IH. intros e' He'. apply Hnone. right. exact He'.
Qed.

(** [comparePoses] has no result exactly when a normalization fails. *)
Lemma comparePoses_None_iff (now : Z) (r u : option (list Landmark)) :
  comparePoses now r u = None <-> normalizePose r = None \/ normalizePose u = None.
Proof.
unfold comparePoses.
destruct (normalizePose r), (normalizePose u); split;
  try discriminate; try tauto; intros [H|H]; discriminate.
Qed.

(** With no segment scored, the weights sum to 0 and overall is 0. *)
Lemma comparePoses_no_data (now : Z) (r u : option (list Landmark))
  (res : ComparisonResult) :
  comparePoses now r u = Some res ->
  (forall e, e ∈ segments res -> e.2 = None) -> overall res = 0.
Proof.
unfold comparePoses.
destruct (normalizePose r) as [refNorm|]; [|discriminate].
destruct (normalizePose u) as [userNorm|]; [|discriminate].
cbv zeta. intros Hres Hnone. apply (inj Some) in Hres. subst res.
cbn [segments overall] in *.
rewrite foldl_weightStep_none by exact Hnone.
cbn [snd]. unfold gtb.
assert (H0 : ltb 0 0 = false) by (apply ltb_false; lra).
rewrite H0. reflexivity.
Qed.

(** C9. [comparePoses] returns nothing exactly when normalizing one of
    the two poses fails; normalization fails exactly on an absent pose,
    on fewer than 33 landmarks and on a torso shorter than 0.001; and a
    result all of whose segment scores are none has overall 0. *)
Theorem comparePoses_absent_iff (now : Z) (r u : option (list Landmark)) :
  (comparePoses now r u = None <-> normalizePose r = None \/ normalizePose u = None) /\
  (forall p, normalizePose p = None <->
     match p with
     | None => True
     | Some P => (length P < 33)%nat \/ exists L, torsoLen_of P = Some L /\ L < 0.001
     end) /\
  (forall res, comparePoses now r u = Some res ->
     (forall e, e ∈ segments res -> e.2 = None) -> overall res = 0).
Proof.
split; [|split].
- apply comparePoses_None_iff.
- apply normalizePose_None_iff.
- apply comparePoses_no_data.
Qed.

Lemma foldl_pairStep_skip (Qr Qu : list Landmark) (ps : list (nat * nat)) (acc : R * nat) :
  (forall ab, ab ∈ ps -> exists ra rb ua ub,
     Qr !! ab.1 = Some ra /\ Qr !! ab.2 = Some rb /\
     Qu !! ab.1 = Some ua /\ Qu !! ab.2 = Some ub /\
     minVis ra rb ua ub < 0.4) ->
  foldl (pairStep Qr Qu) acc ps = acc.
Proof.
revert acc. induction ps as [|ab ps IH]; intros acc Hps; [reflexivity|].
destruct (Hps ab) as (ra & rb & ua & ub & E1 & E2 & E3 & E4 & Hv); [left|].
cbn [foldl]. rewrite (pairStep_skip Qr Qu acc ab ra rb ua ub) by assumption.
apply IH. intros ab' Hab'. apply Hps. right. exact Hab'.
Qed.

(** Nothing of the hidden figure is scored. *)
Lemma segmentScore_hidden (name : Segment) :
  segmentScore (Poses.figure_normalized 0 ((2 - 1) / 2))
               (Poses.figure_normalized 0 ((2 - 1) / 2)) (BODY_SEGMENTS name) = None.
Proof.
unfold segmentScore. rewrite foldl_pairStep_skip; [reflexivity|].
intros ab Hab.
destruct name; cbn [BODY_SEGMENTS pairs] in Hab;
  repeat (apply elem_of_cons in Hab; destruct Hab as [->|Hab];
          [eexists _, _, _, _; repeat (split; [reflexivity|]);
           unfold minVis; cbn [visibility orZero Poses.at_];
           apply Rle_lt_trans with 0; [apply Rmin_r|lra]|]);
  apply elem_of_nil in Hab; contradiction.
Qed.

(** The theorem at the hidden figure: a result is returned, every
    segment is none, and overall is 0. *)
Lemma comparePoses_absent_iff_witness :
  exists res, comparePoses 0 (Some Poses.hidden) (Some Poses.hidden) = Some res /\
    (forall e, e ∈ segments res -> e.2 = None) /\ overall res = 0.
Proof.
assert (Hres : comparePoses 0 (Some Poses.hidden) (Some Poses.hidden)
  = Some {| overall := if gtb 0 0 then Math_round ((0 / 0) * 10) / 10 else 0;
            segments := (fun name => (name, None)) <$> segment_keys;
            timestamp := 0 |}).
{ unfold comparePoses, Poses.hidden. rewrite normalize_figure.
  assert (Hseg : (fun name => (name,
                    segmentScore (Poses.figure_normalized 0 ((2 - 1) / 2))
                                 (Poses.figure_normalized 0 ((2 - 1) / 2))
                                 (BODY_SEGMENTS name))) <$> segment_keys
               = (fun name => (name, None)) <$> segment_keys).
  { apply list_fmap_ext. intros _ name _. rewrite segmentScore_hidden. reflexivity. }
  rewrite Hseg. reflexivity. }
assert (Hnone : forall e : Segment * option R,
          e ∈ (fun name => (name, None)) <$> segment_keys -> e.2 = None).
{ intros e He. apply list_elem_of_fmap in He as (name & -> & _). reflexivity. }
eexists. split; [exact Hres|]. split; [exact Hnone|].
exact (proj2 (proj2 (comparePoses_absent_iff 0 (Some Poses.hidden) (Some Poses.hidden)))
         _ Hres Hnone).
Defined.

(** Scaling by [s] and translating multiplies the torso length by [s]. *)
Lemma distance_affine (s tx ty tz : R) (s1 s2 h1 h2 : Landmark) :
  0 < s ->
  distance (midpoint (affine s tx ty tz s1) (affine s tx ty tz s2))
           (midpoint (affine s tx ty tz h1) (affine s tx ty tz h2))
  = s * distance (midpoint s1 s2) (midpoint h1 h2).
Proof.
intros Hs.
pose proof (distance_sqr (midpoint s1 s2) (midpoint h1 h2)) as HL2.
assert (HL0 : 0 <= distance (midpoint s1 s2) (midpoint h1 h2)) by apply sqrt_pos.
set (L := distance (midpoint s1 s2) (midpoint h1 h2)) in *.
unfold distance. apply sqrt_of_square; [nra|].
cbn [x y z visibility midpoint affine orZero] in *.
replace (s * L * (s * L)) with (s * s * (L * L)) by ring.
rewrite HL2. field.
Qed.

(** A pose and its image under a uniform scaling and translation have
    the same normal form, provided the image still normalizes. *)
Lemma normalizePose_affine (s tx ty tz : R) (P Q : list Landmark) :
  0 < s ->
  normalizePose (Some P) = Some Q ->
  normalizePose (Some (affine s tx ty tz <$> P)) <> None ->
  normalizePose (Some (affine s tx ty tz <$> P)) = Some Q.
Proof.
intros Hs HQ Hsome.
destruct (normalizePose_Some P Q HQ)
  as (h1 & h2 & s1 & s2 & L & E1 & E2 & E3 & E4 & Hlen & HL & Hpos & ->).
set (T := affine s tx ty tz) in *.
assert (HD : distance (midpoint (T s1) (T s2)) (midpoint (T h1) (T h2)) = s * L).
{ rewrite HL. apply distance_affine, Hs. }
assert (HsL : 0.001 <= s * L).
{ destruct (Rle_dec 0.001 (s * L)) as [Hle|Hnle]; [exact Hle|].
  exfalso. apply Hsome. apply normalizePose_None_iff. right.
  exists (s * L). split; [|lra].
  unfold torsoLen_of, midShoulder_of, midHip_of.
  rewrite !list_lookup_fmap, E1, E2, E3, E4. cbn. rewrite HD. reflexivity. }
rewrite (normalizePose_intro (T <$> P) (T h1) (T h2) (T s1) (T s2)).
- rewrite HD. f_equal. rewrite <- list_fmap_compose.
  apply list_fmap_ext. intros i lm _.
  unfold T, compose; cbn [x y z visibility midpoint affine orZero].
  f_equal; [| | f_equal]; field; lra.
- rewrite list_lookup_fmap, E1. reflexivity.
- rewrite list_lookup_fmap, E2. reflexivity.
- rewrite list_lookup_fmap, E3. reflexivity.
- rewrite list_lookup_fmap, E4. reflexivity.
- rewrite length_fmap. exact Hlen.
- rewrite HD. exact HsL.
Qed.

(** In the exact arithmetic of the model the transformed call returns
    what the original call returns. *)
Lemma comparePoses_affine_exact (now : Z) (s tx ty tz : R) (r u : list Landmark) :
  0 < s ->
  comparePoses now (Some r) (Some u) <> None ->
  comparePoses now (Some (affine s tx ty tz <$> r)) (Some (affine s tx ty tz <$> u)) <> None ->
  comparePoses now (Some (affine s tx ty tz <$> r)) (Some (affine s tx ty tz <$> u))
  = comparePoses now (Some r) (Some u).
Proof.
intros Hs Horig Himg.
pose proof (comparePoses_None_iff now (Some r) (Some u)) as Ho.
pose proof (comparePoses_None_iff now (Some (affine s tx ty tz <$> r))
              (Some (affine s tx ty tz <$> u))) as Hi.
destruct (normalizePose (Some r)) as [Qr|] eqn:Er; [|tauto].
destruct (normalizePose (Some u)) as [Qu|] eqn:Eu; [|tauto].
unfold comparePoses.
rewrite (normalizePose_affine s tx ty tz r Qr Hs Er) by tauto.
rewrite (normalizePose_affine s tx ty tz u Qu Hs Eu) by tauto.
rewrite Er, Eu. reflexivity.
Qed.

Lemma same_score_refl (eps : R) (l : list (Segment * option R)) :
  0 <= eps -> Forall2 (same_score eps) l l.
Proof.
intros Heps. apply Forall2_same_length_lookup. split; [reflexivity|].
intros i a b Ha Hb. rewrite Ha in Hb. injection Hb as <-.
split; [reflexivity|]. destruct a.2; [unfold within; lra|exact I].
Qed.


Lemma comparePoses_standing_Some :
  comparePoses 0 (Some Poses.standing) (Some Poses.standing) <> None.
Proof.
intros Hnone. apply comparePoses_None_iff in Hnone.
unfold Poses.standing in Hnone. rewrite normalize_figure in Hnone.
destruct Hnone; discriminate.
Qed.



End SimilarityFacts.

(** ** The voice-cue throttle *)

Module AudioCoachFacts.
Import JS JSFacts PoseNormalizer PoseSimilarity AudioCoach.
Local Open Scope Z_scope.

(** A silent call leaves the state alone. *)
Lemma generateVoiceCue_silent (st st' : State) (now : Z)
  (comparison : option ComparisonResult) (refL userL : option (list Landmark))
  (cue : option string) :
  generateVoiceCue st now comparison refL userL cue = (st', None) -> st' = st.
Proof.
unfold generateVoiceCue.
destruct (negb (enabled st)); [congruence|].
destruct comparison as [comparison|]; [|congruence].
destruct (now - lastSpeakTime st <? COOLDOWN_MS); [congruence|].
destruct (geb _ _).
- destruct (_ && _); [discriminate|congruence].
- destruct (_ && _); [congruence|discriminate].
Qed.

(** A call that speaks does so 4000 ms or more after the last utterance
    and records its own time. *)
Lemma generateVoiceCue_speaks (st st' : State) (now : Z)
  (comparison : option ComparisonResult) (refL userL : option (list Landmark))
  (cue : option string) (text : string) :
  generateVoiceCue st now comparison refL userL cue = (st', Some text) ->
  lastSpeakTime st + 4000 <= now /\ lastSpeakTime st' = now.
Proof.
unfold generateVoiceCue.
destruct (negb (enabled st)); [discriminate|].
destruct comparison as [comparison|]; [|discriminate].
destruct (Z.ltb_spec (now - lastSpeakTime st) COOLDOWN_MS) as [|Hge]; [discriminate|].
unfold COOLDOWN_MS in Hge.
destruct (geb _ _).
- destruct (_ && _); [|discriminate]. intros [= <- _]. cbn. lia.
- destruct (_ && _); [discriminate|]. intros [= <- _]. cbn. lia.
Qed.

(** When the comparison flags [seg], a call that speaks names [seg], and
    if [seg] was the last segment named it waits 8000 ms. *)
Lemma generateVoiceCue_flagged (st st' : State) (c : Call) (seg : Segment) (text : string) :
  flags seg c ->
  generateVoiceCue st (c_now c) (c_comparison c) (c_ref c) (c_user c) (c_cue c)
    = (st', Some text) ->
  lastSpokenSegment st' = Some seg /\
  (lastSpokenSegment st = Some seg -> lastSpeakTime st + 8000 <= c_now c).
Proof.
intros (comparison & Hc & Hseg & Hscore). rewrite Hc.
unfold generateVoiceCue.
destruct (negb (enabled st)); [discriminate|].
destruct (c_now c - lastSpeakTime st <? COOLDOWN_MS); [discriminate|].
assert (Hg : geb (worstSegment comparison).2 SCORE_THRESHOLD_SPEAK = false).
{ unfold geb. destruct (Rge_dec _ _); [lra|reflexivity]. }
rewrite Hg, Hseg.
destruct (bool_decide_reflect (Some seg = lastSpokenSegment st)) as [Heq|Hne]; cbn [andb].
- destruct (Z.ltb_spec (c_now c - lastSpeakTime st) (COOLDOWN_MS * 2)) as [|Hge];
    [discriminate|].
  unfold COOLDOWN_MS in Hge. intros [= <- _]. cbn. split; [reflexivity|]. lia.
- intros [= <- _]. cbn. split; [reflexivity|]. congruence.
Qed.

Lemma chain_weaken (gap last last' : Z) (trace : list (Z * string)) :
  last' <= last -> chain gap last trace -> chain gap last' trace.
Proof.
destruct trace as [|e rest]; cbn; [tauto|]. intros Hle [H1 H2]. split; [lia|exact H2].
Qed.

Lemma chain_spaced (gap last : Z) (trace : list (Z * string)) :
  0 <= gap -> chain gap last trace ->
  spaced gap trace /\ forall e, e ∈ trace -> last + gap <= e.1.
Proof.
intros Hgap. revert last. induction trace as [|e rest IH]; intros last Hc.
- split; [|intros e He; apply elem_of_nil in He; contradiction].
  intros i j e1 e2 _ Hi. rewrite lookup_nil in Hi. discriminate.
- destruct Hc as [He Hrest]. destruct (IH _ Hrest) as [Hsp Hall]. split.
  + intros i j e1 e2 Hij Hi Hj.
    destruct j as [|j]; [lia|]. cbn in Hj.
    destruct i as [|i].
    * injection Hi as <-. apply list_elem_of_lookup_2 in Hj.
      specialize (Hall _ Hj). lia.
    * cbn in Hi. apply (Hsp i j); [lia|assumption..].
  + intros e' He'. apply elem_of_cons in He' as [->|He']; [exact He|].
    specialize (Hall _ He'). lia.
Qed.

(** The utterances of any run form a chain with links of 4000 ms. *)
Lemma run_chain (calls : list Call) (st : State) :
  chain 4000 (lastSpeakTime st) (run st calls).
Proof.
revert st. induction calls as [|c rest IH]; intros st; [exact I|].
cbn [run].
destruct (generateVoiceCue st (c_now c) (c_comparison c) (c_ref c) (c_user c) (c_cue c))
  as [st' [text|]] eqn:E; cbn [fst snd].
- apply generateVoiceCue_speaks in E as [Hnow Hlast].
  cbn [chain fst]. split; [exact Hnow|]. rewrite <- Hlast. apply IH.
- apply generateVoiceCue_silent in E. subst st'. apply IH.
Qed.

(** Once [seg] has been named and stays flagged, the links are 8000 ms. *)
Lemma run_chain_flagged (seg : Segment) (calls : list Call) (st : State) :
  Forall (flags seg) calls ->
  lastSpokenSegment st = Some seg ->
  chain 8000 (lastSpeakTime st) (run st calls).
Proof.
revert st. induction calls as [|c rest IH]; intros st Hflags Hlast; [exact I|].
apply Forall_cons in Hflags as [Hc Hrest].
cbn [run].
destruct (generateVoiceCue st (c_now c) (c_comparison c) (c_ref c) (c_user c) (c_cue c))
  as [st' [text|]] eqn:E; cbn [fst snd].
- pose proof (generateVoiceCue_flagged _ _ _ _ _ Hc E) as [Hseg' Hwait].
  apply generateVoiceCue_speaks in E as [_ Hnow].
  cbn [chain fst]. split; [auto|]. rewrite <- Hnow. apply IH; assumption.
- apply generateVoiceCue_silent in E. subst st'. apply IH; assumption.
Qed.

Lemma run_spaced_flagged (seg : Segment) (calls : list Call) (st : State) :
  Forall (flags seg) calls -> spaced 8000 (run st calls).
Proof.
revert st. induction calls as [|c rest IH]; intros st Hflags.
- intros i j e1 e2 _ Hi. cbn in Hi. rewrite lookup_nil in Hi. discriminate.
- pose proof Hflags as Hall. apply Forall_cons in Hflags as [Hc Hrest].
  cbn [run].
  destruct (generateVoiceCue st (c_now c) (c_comparison c) (c_ref c) (c_user c) (c_cue c))
    as [st' [text|]] eqn:E; cbn [fst snd].
  + pose proof (generateVoiceCue_flagged _ _ _ _ _ Hc E) as [Hseg' _].
    apply generateVoiceCue_speaks in E as [_ Hnow].
    pose proof (run_chain_flagged seg rest st' Hrest Hseg') as Hch.
    rewrite Hnow in Hch.
    apply (chain_spaced 8000 (c_now c - 8000)); [lia|].
    cbn [chain fst]. split; [lia|exact Hch].
  + apply generateVoiceCue_silent in E. subst st'. apply IH; assumption.
Qed.

(** Deciding the comparisons of real constants that a definition makes. *)
Ltac eval_ltb :=
  repeat match goal with
  | |- context [ltb ?a ?b] =>
    first [ rewrite (proj2 (ltb_true a b)) by lra
          | rewrite (proj2 (ltb_false a b)) by lra ]
  end.

Lemma worstStep_lt (acc : option Segment * R) (seg : Segment) (score : R) :
  (score < acc.2)%R -> worstStep acc (seg, Some score) = (Some seg, score).
Proof.
intros H. unfold worstStep. cbn [fst snd]. apply ltb_true in H. rewrite H. reflexivity.
Qed.

Lemma worstStep_ge (acc : option Segment * R) (seg : Segment) (score : R) :
  (acc.2 <= score)%R -> worstStep acc (seg, Some score) = acc.
Proof.
intros H. unfold worstStep. cbn [fst snd]. apply ltb_false in H. rewrite H. reflexivity.
Qed.

Lemma worstSegment_lowLeftArm (now : Z) :
  worstSegment (lowLeftArm now) = (Some leftArm, 40%R).
Proof.
unfold worstSegment, lowLeftArm. cbn [segments foldl].
rewrite (worstStep_lt (None, 100%R)) by (cbn [snd]; lra).
rewrite !(worstStep_ge (Some leftArm, 40%R)) by (cbn [snd]; lra).
reflexivity.
Qed.

(** What a tick of the scenario does. *)
Lemma generateVoiceCue_tick (st : State) (now : Z) :
  enabled st = true ->
  generateVoiceCue st now (Some (lowLeftArm now)) None None None
  = if now - lastSpeakTime st <? 4000 then (st, None)
    else if bool_decide (Some leftArm = lastSpokenSegment st)
            && (now - lastSpeakTime st <? 8000) then (st, None)
    else ({| lastSpeakTime := now; lastSpokenSegment := Some leftArm; enabled := true |},
          Some "Watch your left arm"%string).
Proof.
intros Hen. unfold generateVoiceCue. rewrite Hen, worstSegment_lowLeftArm.
cbn [negb fst snd]. unfold COOLDOWN_MS.
destruct (now - lastSpeakTime st <? 4000); [reflexivity|].
assert (Hg : geb 40 SCORE_THRESHOLD_SPEAK = false).
{ unfold geb, SCORE_THRESHOLD_SPEAK. destruct (Rge_dec _ _); [lra|reflexivity]. }
rewrite Hg. change (4000 * 2) with 8000.
destruct (_ && _); reflexivity.
Qed.

Lemma run_tick (st : State) (now : Z) (rest : list Call) :
  enabled st = true ->
  run st (mkCall now (Some (lowLeftArm now)) None None None :: rest)
  = if now - lastSpeakTime st <? 4000 then run st rest
    else if bool_decide (Some leftArm = lastSpokenSegment st)
            && (now - lastSpeakTime st <? 8000) then run st rest
    else (now, "Watch your left arm"%string)
         :: run {| lastSpeakTime := now; lastSpokenSegment := Some leftArm;
                   enabled := true |} rest.
Proof.
intros Hen. cbn [run c_now c_comparison c_ref c_user c_cue].
rewrite generateVoiceCue_tick by exact Hen.
destruct (now - lastSpeakTime st <? 4000); [reflexivity|].
destruct (_ && _); reflexivity.
Qed.

(** Running one tick of an explicit scenario. *)
Ltac tick :=
  rewrite run_tick by reflexivity;
  repeat match goal with
  | |- context [Z.ltb ?a ?b] =>
    let v := eval vm_compute in (Z.ltb a b) in change (Z.ltb a b) with v
  | |- context [bool_decide ?P] =>
    let v := eval vm_compute in (bool_decide P) in change (bool_decide P) with v
  end;
  cbn [andb].

(** The scenario: 20 ticks, 200 ms apart, give one utterance. *)
Example run_20_ticks :
  run initial (ticks 10000 20) = [(10000, "Watch your left arm"%string)].
Proof.
unfold ticks. cbn [fmap list_fmap seq].
do 20 tick.
reflexivity.
Qed.

(** With 50 ticks the second utterance comes 8000 ms after the first. *)
Example run_50_ticks :
  run initial (ticks 10000 50)
  = [(10000, "Watch your left arm"%string); (18000, "Watch your left arm"%string)].
Proof.
unfold ticks. cbn [fmap list_fmap seq].
do 50 tick.
reflexivity.
Qed.

(** C5. In every sequence of calls of [generateVoiceCue], whatever the
    comparisons, poses, cues and clock readings, any two utterances are
    4000 ms or more apart; and while one segment stays the worst one,
    below 55, any two utterances (each naming that segment) are 8000 ms
    or more apart. *)
Theorem generateVoiceCue_throttle (st : State) (calls : list Call) :
  spaced 4000 (run st calls) /\
  forall seg, Forall (flags seg) calls -> spaced 8000 (run st calls).
Proof.
split.
- apply (chain_spaced 4000 (lastSpeakTime st)); [lia|]. apply run_chain.
- intros seg Hflags. apply (run_spaced_flagged seg), Hflags.
Qed.

(** The theorem on 50 ticks of the scenario. *)
Lemma generateVoiceCue_throttle_witness :
  spaced 4000 (run initial (ticks 10000 50)) /\
  spaced 8000 (run initial (ticks 10000 50)).
Proof.
destruct (generateVoiceCue_throttle initial (ticks 10000 50)) as [H4 H8].
split; [exact H4|]. apply (H8 leftArm).
unfold ticks. apply Forall_fmap, Forall_forall. intros k _.
exists (lowLeftArm (10000 + 200 * Z.of_nat k)).
rewrite worstSegment_lowLeftArm. cbn [fst snd c_comparison].
split; [reflexivity|]. split; [reflexivity|].
unfold SCORE_THRESHOLD_SPEAK. lra.
Defined.

(** *** The directional cue *)

Local Open Scope R_scope.

(** C8 (amended).  [analyzeDifference] returns a cue exactly when the
    tip and the base landmark of the segment's primary bone exist in
    both poses and the tip has visibility at least 0.4 in both; the
    visibility of the base is never looked at. *)
Theorem analyzeDifference_visibility (refL userL : list Landmark) (seg : Segment) :
  is_Some (analyzeDifference refL userL seg) <->
  exists rt ut rb ub,
    refL !! (primary (SEGMENT_TO_JOINTS seg)).1 = Some rt /\
    userL !! (primary (SEGMENT_TO_JOINTS seg)).1 = Some ut /\
    refL !! (primary (SEGMENT_TO_JOINTS seg)).2 = Some rb /\
    userL !! (primary (SEGMENT_TO_JOINTS seg)).2 = Some ub /\
    0.4 <= orZero (visibility rt) /\ 0.4 <= orZero (visibility ut).
Proof.
unfold analyzeDifference.
destruct (refL !! _) as [rt|] eqn:E1.
2:{ split; [intros [? H]; discriminate|]. intros (? & ? & ? & ? & H & _). discriminate. }
destruct (userL !! _) as [ut|] eqn:E2.
2:{ split; [intros [? H]; discriminate|]. intros (? & ? & ? & ? & _ & H & _). discriminate. }
destruct (refL !! (primary _).2) as [rb|] eqn:E3.
2:{ split; [intros [? H]; discriminate|]. intros (? & ? & ? & ? & _ & _ & H & _). discriminate. }
destruct (userL !! (primary _).2) as [ub|] eqn:E4.
2:{ split; [intros [? H]; discriminate|]. intros (? & ? & ? & ? & _ & _ & _ & H & _). discriminate. }
destruct (ltb (orZero (visibility rt)) 0.4) eqn:Hr.
{ apply ltb_true in Hr. cbn [orb]. split; [intros [? H]; discriminate|].
  intros (? & ? & ? & ? & [= <-] & _ & _ & _ & H & _). lra. }
destruct (ltb (orZero (visibility ut)) 0.4) eqn:Hu.
{ apply ltb_true in Hu. cbn [orb]. split; [intros [? H]; discriminate|].
  intros (? & ? & ? & ? & _ & [= <-] & _ & _ & _ & H). lra. }
apply ltb_false in Hr, Hu. cbn [orb]. split.
- intros _. exists rt, ut, rb, ub. auto 10.
- intros _. destruct (_ && _); [eauto|]. destruct (gtb _ _); eauto.
Qed.

(** When both poses hold the bone the same way the cue is the generic
    one. *)
Lemma analyzeDifference_generic (refL userL : list Landmark) (seg : Segment)
  (rt ut rb ub : Landmark) :
  refL !! (primary (SEGMENT_TO_JOINTS seg)).1 = Some rt ->
  userL !! (primary (SEGMENT_TO_JOINTS seg)).1 = Some ut ->
  refL !! (primary (SEGMENT_TO_JOINTS seg)).2 = Some rb ->
  userL !! (primary (SEGMENT_TO_JOINTS seg)).2 = Some ub ->
  0.4 <= orZero (visibility rt) -> 0.4 <= orZero (visibility ut) ->
  y ut - y ub - (y rt - y rb) = 0 -> x ut - x ub - (x rt - x rb) = 0 ->
  analyzeDifference refL userL seg
  = Some ("Adjust your " +:+ jlabel (SEGMENT_TO_JOINTS seg) +:+ " position").
Proof.
intros E1 E2 E3 E4 Hr Hu Hy Hx. unfold analyzeDifference.
rewrite E1, E2, E3, E4, Hy, Hx, Rabs_R0.
apply ltb_false in Hr, Hu. rewrite Hr, Hu. cbn [orb].
unfold gtb.
assert (H0 : ltb 0 0 = false) by (apply ltb_false; lra).
assert (H1 : ltb 0.04 0 = false) by (apply ltb_false; lra).
rewrite H0, H1. reflexivity.
Qed.

(** C8, as stated, fails.  The left elbow is the base of the left arm's
    primary bone; with the elbow out of sight in the reference pose
    (visibility 0) a cue is returned all the same. *)
Lemma analyzeDifference_visibility_counterexample :
  (exists rb, Poses.elbow_hidden !! (primary (SEGMENT_TO_JOINTS leftArm)).2 = Some rb /\
              orZero (visibility rb) < 0.4) /\
  analyzeDifference Poses.elbow_hidden Poses.standing leftArm
  = Some "Adjust your left arm position"%string.
Proof.
split.
- eexists. split; [reflexivity|]. cbn [visibility orZero]. lra.
- rewrite (analyzeDifference_generic Poses.elbow_hidden Poses.standing leftArm
             (Poses.at_ 1 2 1) (Poses.at_ 1 2 1)
             (mkLandmark 2 2 (Some 0) (Some 0)) (Poses.at_ 1 2 2));
    try reflexivity; cbn [x y visibility orZero Poses.at_]; lra.
Qed.

End AudioCoachFacts.

(** ** The posecode extractor *)

Module PoseDescriberFacts.
Import JS JSFacts PoseNormalizer PoseSimilarity PoseDescriber.
Local Open Scope R_scope.

Lemma geb_true (a b : R) : geb a b = true <-> b <= a.
Proof. unfold geb. destruct (Rge_dec a b); split; (congruence || lra). Qed.

Lemma vis_true (lm : list Landmark) (indices : list nat) :
  vis lm indices = true <-> forall i, i ∈ indices -> visible lm i.
Proof.
unfold vis. rewrite forallb_forall. split.
- intros H i Hi. apply list_elem_of_In in Hi. specialize (H i Hi).
  apply geb_true in H. unfold visible.
  destruct (lm !! i) as [l|]; [eauto|]. cbn in H. lra.
- intros H i Hi. apply list_elem_of_In in Hi. destruct (H i Hi) as (l & -> & Hl).
  apply geb_true. exact Hl.
Qed.

(** Taking a membership in a block of rules apart, rule by rule. *)
Ltac rules H :=
  repeat first
    [ apply elem_of_nil in H; contradiction
    | apply list_elem_of_singleton in H; subst
    | apply elem_of_app in H; destruct H as [H|H]
    | match type of H with
      | context [match ?o with Some _ => _ | None => _ end] => destruct o
      | context [if ?b then _ else _] => destruct b
      end ].

Lemma armCodes_gate (lm : list Landmark) (side : Side) (pc : Posecode) :
  pc ∈ armCodes lm side ->
  segment pc = match side with left => leftArm | right => rightArm end /\
  vis lm (gate (segment pc)) = true.
Proof.
intros H. unfold armCodes in H.
destruct side;
  match type of H with context [negb (vis ?l ?ixs)] => destruct (vis l ixs) eqn:Hv end;
  cbn [negb] in H; rules H; cbn [segment gate]; auto.
Qed.

Lemma legCodes_gate (lm : list Landmark) (side : Side) (pc : Posecode) :
  pc ∈ legCodes lm side ->
  segment pc = match side with left => leftLeg | right => rightLeg end /\
  vis lm (gate (segment pc)) = true.
Proof.
intros H. unfold legCodes in H.
destruct side;
  match type of H with context [negb (vis ?l ?ixs)] => destruct (vis l ixs) eqn:Hv end;
  cbn [negb] in H; rules H; cbn [segment gate]; auto.
Qed.

Lemma torsoCodes_gate (lm : list Landmark) (pc : Posecode) :
  pc ∈ torsoCodes lm -> segment pc = torso /\ vis lm (gate (segment pc)) = true.
Proof.
intros H. unfold torsoCodes in H.
match type of H with context [vis ?l ?ixs] => destruct (vis l ixs) eqn:Hv end;
  rules H; cbn [segment gate]; auto.
Qed.

Lemma headCodes_gate (lm : list Landmark) (pc : Posecode) :
  pc ∈ headCodes lm -> segment pc = head /\ vis lm (gate (segment pc)) = true.
Proof.
intros H. unfold headCodes in H.
match type of H with context [vis ?l ?ixs] => destruct (vis l ixs) eqn:Hv end;
  rules H; cbn [segment gate]; auto.
Qed.

(** C7 (amended).  A posecode is emitted for a segment only when each
    of the landmarks gating that segment has visibility 0.4 or more:
    shoulder, elbow, wrist of the side for an arm; hip, knee, ankle of
    the side for a leg; both shoulders and both hips for the torso; the
    nose and both shoulders for the head. *)
Theorem extractPosecodes_gate (lm : list Landmark) (codes : list Posecode)
  (pc : Posecode) (i : nat) :
  extractPosecodes (Some lm) = Some codes ->
  pc ∈ codes -> i ∈ gate (segment pc) -> visible lm i.
Proof.
unfold extractPosecodes. destruct (length lm <? 33)%nat; [discriminate|].
intros [= <-] Hpc. revert i. apply vis_true.
repeat (apply elem_of_app in Hpc; destruct Hpc as [Hpc|Hpc]).
- apply armCodes_gate in Hpc. tauto.
- apply armCodes_gate in Hpc. tauto.
- apply legCodes_gate in Hpc. tauto.
- apply legCodes_gate in Hpc. tauto.
- apply torsoCodes_gate in Hpc. tauto.
- apply headCodes_gate in Hpc. tauto.
Qed.

(** The rule behind [arm_overhead]: with shoulder, elbow and wrist of
    the side visible, the wrist above the shoulder by more than 0.05 and
    above the nose. *)
Lemma armCodes_overhead (lm : list Landmark) :
  vis lm [LM.LEFT_SHOULDER; LM.LEFT_ELBOW; LM.LEFT_WRIST] = true ->
  y (get lm LM.LEFT_WRIST) < y (get lm LM.LEFT_SHOULDER) - 0.05 ->
  y (get lm LM.LEFT_WRIST) < y (get lm LM.NOSE) ->
  mkPosecode leftArm "arm_overhead" "Left arm is raised overhead" ∈ armCodes lm left.
Proof.
intros Hv Hs Hn. unfold armCodes. rewrite Hv. cbn [negb].
apply ltb_true in Hs, Hn. rewrite Hs, Hn.
apply elem_of_app. right. apply elem_of_app. left.
apply list_elem_of_singleton. reflexivity.
Qed.

Lemma extractPosecodes_arm_left (lm : list Landmark) (pc : Posecode) :
  (33 <= length lm)%nat -> pc ∈ armCodes lm left ->
  exists codes, extractPosecodes (Some lm) = Some codes /\ pc ∈ codes.
Proof.
intros Hlen Hpc. unfold extractPosecodes.
destruct (Nat.ltb_spec (length lm) 33); [lia|].
eexists. split; [reflexivity|]. apply elem_of_app. left. exact Hpc.
Qed.

(** Checking the visibility of listed landmarks of an explicit pose. *)
Ltac vis_check :=
  let i := fresh "i" in let Hi := fresh "Hi" in
  apply vis_true; intros i Hi;
  repeat (apply elem_of_cons in Hi; destruct Hi as [->|Hi];
          [eexists; split; [reflexivity|]; cbn [visibility orZero Poses.at_]; lra|]);
  apply elem_of_nil in Hi; contradiction.

(** The left arm of the nose-hidden figure is found raised overhead (the
    figure is drawn with [y] growing upwards and the image has it
    growing downwards, so its hanging arm reads as a raised one). *)
Lemma nose_hidden_overhead :
  exists codes, extractPosecodes (Some Poses.nose_hidden) = Some codes /\
    mkPosecode leftArm "arm_overhead" "Left arm is raised overhead" ∈ codes.
Proof.
apply extractPosecodes_arm_left; [cbn; lia|].
apply armCodes_overhead.
- vis_check.
- change (get Poses.nose_hidden LM.LEFT_WRIST) with (Poses.at_ 1 2 1).
  change (get Poses.nose_hidden LM.LEFT_SHOULDER) with (Poses.at_ 1 2 3).
  cbn [y Poses.at_]. lra.
- change (get Poses.nose_hidden LM.LEFT_WRIST) with (Poses.at_ 1 2 1).
  change (get Poses.nose_hidden LM.NOSE) with (mkLandmark 1 4 (Some 0) (Some 0)).
  cbn [y Poses.at_]. lra.
Qed.

(** The theorem at the nose-hidden figure: the left shoulder, which
    gates the left arm, is visible. *)
Lemma extractPosecodes_gate_witness :
  visible Poses.nose_hidden LM.LEFT_SHOULDER.
Proof.
destruct nose_hidden_overhead as (codes & Hcodes & Hpc).
apply (extractPosecodes_gate Poses.nose_hidden codes
         (mkPosecode leftArm "arm_overhead" "Left arm is raised overhead")
         LM.LEFT_SHOULDER Hcodes Hpc).
cbn [segment gate]. apply elem_of_cons. left. reflexivity.
Defined.

(** C7, as stated, fails.  The rule behind [arm_overhead] reads the
    nose; on the nose-hidden figure the nose has visibility 0 and the
    rule fires for the left arm all the same. *)
Lemma extractPosecodes_gate_counterexample :
  (exists l, Poses.nose_hidden !! LM.NOSE = Some l /\ orZero (visibility l) < 0.4) /\
  exists codes, extractPosecodes (Some Poses.nose_hidden) = Some codes /\
    mkPosecode leftArm "arm_overhead" "Left arm is raised overhead" ∈ codes.
Proof.
split; [|exact nose_hidden_overhead].
eexists. split; [reflexivity|]. cbn [visibility orZero]. lra.
Qed.

End PoseDescriberFacts.

(** ** Sorting and pairwise relations *)

Module JSQFacts.
Import JSQ FindWorstMoments.
Local Open Scope Q_scope.

Lemma sort_insert_Permutation {A : Type} (cmp : A -> A -> Q) (a : A) (l : list A) :
  sort_insert cmp a l ≡ₚ a :: l.
Proof.
induction l as [|b rest IH]; cbn; [reflexivity|].
destruct (Qle_bool (cmp a b) 0); [reflexivity|].
rewrite IH. apply Permutation_swap.
Qed.

Lemma sort_Permutation {A : Type} (cmp : A -> A -> Q) (l : list A) :
  sort cmp l ≡ₚ l.
Proof.
induction l as [|a rest IH]; cbn; [reflexivity|].
unfold sort in IH. rewrite sort_insert_Permutation, IH. reflexivity.
Qed.

Section ByKey.
Context {A : Type} (key : A -> Q).

Let le (a b : A) : Prop := key a <= key b.

Lemma sort_insert_sorted (a : A) (l : list A) :
  StronglySorted le l ->
  StronglySorted le (sort_insert (fun a b => key a - key b) a l).
Proof.
induction 1 as [|b rest Hrest IH Hb]; cbn.
- repeat constructor.
- destruct (Qle_bool (key a - key b) 0) eqn:E.
  + apply Qle_bool_iff in E. assert (Hab : key a <= key b) by lra.
    constructor; [constructor; assumption|].
    constructor; [exact Hab|].
    eapply Forall_impl; [exact Hb|]. intros c Hc. unfold le in *. lra.
  + assert (Hba : key b <= key a).
    { destruct (Qlt_le_dec (key b) (key a)) as [Hlt|Hle]; [lra|].
      assert (Qle_bool (key a - key b) 0 = true) by (apply Qle_bool_iff; lra).
      congruence. }
    constructor; [exact IH|].
    rewrite sort_insert_Permutation. constructor; assumption.
Qed.

Lemma sort_sorted (l : list A) :
  StronglySorted le (sort (fun a b => key a - key b) l).
Proof.
induction l as [|a rest IH]; cbn; [constructor|].
apply sort_insert_sorted, IH.
Qed.

End ByKey.

Section Pairwise.
Context {A : Type} (R : A -> A -> Prop).
Hypothesis R_sym : forall a b, R a b -> R b a.

Lemma pairwise_snoc (l : list A) (a : A) :
  pairwise R (l ++ [a]) <-> pairwise R l /\ Forall (fun b => R b a) l.
Proof.
induction l as [|b rest IH]; cbn.
- split; [intros _; split; [exact I|constructor]|intros _; split; [constructor|exact I]].
- rewrite IH, Forall_app, Forall_singleton, Forall_cons. tauto.
Qed.

Lemma pairwise_Permutation (l k : list A) :
  l ≡ₚ k -> pairwise R l -> pairwise R k.
Proof.
induction 1 as [|a l k Hperm IH|a b l|l k m _ IH1 _ IH2]; cbn.
- tauto.
- intros [Ha Hl]. split; [rewrite <- Hperm; exact Ha|auto].
- rewrite !Forall_cons. intros [[Hba Hb] [Ha Hl]]. auto.
- auto.
Qed.

End Pairwise.

End JSQFacts.

(** ** The worst-moment finder *)

Module FindWorstMomentsFacts.
Import JSQ JSQFacts FindWorstMoments.
Local Open Scope nat_scope.

Section WithPose.
Context {Pose : Type}.
Abbreviation Sample := (SessionSample Pose).
Abbreviation Moment := (Moment Pose).
Abbreviation Window := (Window Pose).

Lemma apart_sym (w g : nat) (m1 m2 : Moment) : apart w g m1 m2 -> apart w g m2 m1.
Proof. unfold apart. tauto. Qed.

Lemma windowSamples_ge_3 (validData : list Sample) (windowSec : Q) (w : nat) :
  windowSamples validData windowSec = Some w -> 3 <= w.
Proof.
unfold windowSamples. destruct (Qeq_bool _ _).
- destruct (Qle_bool _ _); [discriminate|]. intros [= <-]. lia.
- intros [= <-]. lia.
Qed.

Lemma guardZone_ge (w : nat) : w <= guardZone w.
Proof. unfold guardZone. lia. Qed.

Lemma overlaps_false (used : gset nat) (i w : nat) :
  overlaps used i w = false <-> forall k, i <= k < i + w -> k ∉ used.
Proof.
unfold overlaps. split.
- intros H k Hk Hin.
  assert (Ht : existsb (fun i0 => bool_decide (i0 ∈ used)) (seq i w) = true).
  { apply existsb_exists. exists k. split; [apply in_seq; lia|].
    apply bool_decide_eq_true. exact Hin. }
  congruence.
- intros H. destruct (existsb _ _) eqn:E; [|reflexivity].
  apply existsb_exists in E as (k & Hk & Hin).
  apply in_seq in Hk. apply bool_decide_eq_true in Hin.
  exfalso. apply (H k); [lia|exact Hin].
Qed.

Lemma pickStep_ok (count n w g : nat) (acc : list Moment * gset nat) (c : Window) :
  0 < w -> index c + w <= n ->
  picked_ok count n w g acc -> picked_ok count n w g (pickStep count n w g acc c).
Proof.
intros Hw Hc (Hlen & Hpair & Hzones & covered & Hsize & Hcov & Hrange).
unfold pickStep.
destruct (Nat.leb_spec count (length acc.1)) as [|Hlt].
{ repeat split; try assumption. eauto. }
destruct (overlaps acc.2 (index c) w) eqn:Hov.
{ repeat split; try assumption. eauto. }
pose proof (proj1 (overlaps_false _ _ _) Hov) as Hfree. clear Hov.
set (i := index c) in *.
repeat split; cbn [fst snd].
- rewrite length_app. cbn. lia.
- apply pairwise_snoc. split; [exact Hpair|].
  eapply Forall_impl; [exact Hzones|].
  intros m (j & Hj & Hjn & Hzone).
  unfold apart, windowStart. cbn [centerIndex]. rewrite Hj.
  replace (j + w / 2 - w / 2) with j by lia.
  replace (i + w / 2 - w / 2) with i by lia.
  destruct (le_lt_dec (j + w + g) i) as [|H1]; [left; lia|].
  destruct (le_lt_dec (i + w + g) j) as [|H2]; [right; lia|].
  exfalso.
  destruct (le_lt_dec (j - g) i) as [Hle|Hgt].
  + apply (Hfree i); [lia|]. apply Hzone. lia.
  + apply (Hfree (j - g)); [lia|]. apply Hzone. lia.
- apply Forall_app. split.
  + eapply Forall_impl; [exact Hzones|].
    intros m (j & Hj & Hjn & Hzone). exists j. repeat split; try assumption.
    intros k Hk. apply elem_of_union. left. apply Hzone, Hk.
  + apply Forall_singleton. exists i. cbn [centerIndex]. repeat split; try assumption.
    intros k Hk. apply elem_of_union. right. apply elem_of_set_seq. lia.
- exists (covered ∪ set_seq i w). repeat split.
  + rewrite size_union, size_set_seq, length_app, Hsize; [cbn; lia|].
    intros k Hk1 Hk2. apply elem_of_set_seq in Hk2.
    apply (Hfree k); [lia|]. apply Hcov, Hk1.
  + intros k Hk. apply elem_of_union in Hk as [Hk|Hk].
    * apply elem_of_union. left. apply Hcov, Hk.
    * apply elem_of_set_seq in Hk. apply elem_of_union. right.
      apply elem_of_set_seq. lia.
  + intros k Hk. apply elem_of_union in Hk as [Hk|Hk]; [apply Hrange, Hk|].
    apply elem_of_set_seq in Hk. apply elem_of_set_seq. lia.
Qed.

Lemma foldl_pickStep_ok (count n w g : nat) (cs : list Window)
  (acc : list Moment * gset nat) :
  0 < w -> Forall (fun c => index c + w <= n) cs ->
  picked_ok count n w g acc ->
  picked_ok count n w g (foldl (pickStep count n w g) acc cs).
Proof.
intros Hw Hcs. revert acc. induction Hcs as [|c cs Hc _ IH]; intros acc Hacc; [exact Hacc|].
cbn [foldl]. apply IH, pickStep_ok; assumption.
Qed.

Lemma rollingAvgs_index (validData : list Sample) (w : nat) :
  Forall (fun c => index c + w <= length validData) (rollingAvgs validData w).
Proof.
unfold rollingAvgs. apply Forall_fmap, Forall_forall. intros i Hi.
apply elem_of_seq in Hi. cbn [index windowAt compose]. lia.
Qed.

(** Either nothing is returned, or the result is the chronological
    sort of what the selection loop picked. *)
Lemma findWorstMoments_cases (sessionData : list Sample) (count : nat) (windowSec : Q) :
  findWorstMoments sessionData count windowSec = [] \/
  exists w acc,
    5 <= length (List.filter valid sessionData) /\
    windowSamples (List.filter valid sessionData) windowSec = Some w /\
    picked_ok count (length (List.filter valid sessionData)) w (guardZone w) acc /\
    findWorstMoments sessionData count windowSec
    = sort (fun a b => (startVideoTime a - startVideoTime b)%Q) acc.1.
Proof.
unfold findWorstMoments.
destruct (length sessionData <? 5); [left; reflexivity|].
set (validData := List.filter valid sessionData).
destruct (Nat.ltb_spec (length validData) 5) as [|Hn]; [left; reflexivity|].
destruct (windowSamples validData windowSec) as [w|] eqn:Hw; [|left; reflexivity].
destruct (length (rollingAvgs validData w) =? 0); [left; reflexivity|].
right. eexists w, _. split; [exact Hn|]. split; [reflexivity|]. split; [|reflexivity].
apply foldl_pickStep_ok.
- apply windowSamples_ge_3 in Hw. lia.
- rewrite sort_Permutation. apply rollingAvgs_index.
- split; [cbn; lia|]. split; [exact I|]. split; [constructor|].
  exists ∅. rewrite size_empty. split; [reflexivity|]. split; set_solver.
Qed.

(** C2. With fewer than 5 samples that carry a video time and both
    poses nothing is returned.  Otherwise the moments come in order of
    non-decreasing [startVideoTime]; their windows of [w] samples lie
    within the valid samples and any two of them are separated by the
    guard zone (which is at least [w]); and there are at most [count]
    of them and at most as many as windows of [w] samples fit side by
    side into the valid samples. *)
Theorem findWorstMoments_spec (sessionData : list Sample) (count : nat) (windowSec : Q) :
  let validData := List.filter valid sessionData in
  let res := findWorstMoments sessionData count windowSec in
  (length validData < 5 -> res = []) /\
  StronglySorted (fun a b => (startVideoTime a <= startVideoTime b)%Q) res /\
  length res <= count /\
  (windowSamples validData windowSec = None -> res = []) /\
  (forall w, windowSamples validData windowSec = Some w ->
     3 <= w /\ w <= guardZone w /\
     pairwise (apart w (guardZone w)) res /\
     Forall (fun m => windowStart w m + w <= length validData) res /\
     length res <= Nat.min count (length validData / w)).
Proof.
cbv zeta.
destruct (findWorstMoments_cases sessionData count windowSec)
  as [Hnil|(w & acc & Hn & Hw & Hok & Hres)];
  set (validData := List.filter valid sessionData) in *;
  set (res := findWorstMoments sessionData count windowSec) in *.
- rewrite Hnil. split; [reflexivity|]. split; [constructor|].
  split; [cbn; lia|]. split; [reflexivity|]. intros w Hw.
  split; [eapply windowSamples_ge_3; eassumption|]. split; [apply guardZone_ge|].
  split; [exact I|]. split; [constructor|]. cbn. lia.
- destruct Hok as (Hlen & Hpair & Hzones & covered & Hsize & _ & Hrange).
  assert (Hperm : res ≡ₚ acc.1) by (rewrite Hres; apply sort_Permutation).
  assert (Hw3 : 3 <= w) by (eapply windowSamples_ge_3; eassumption).
  split; [lia|]. split; [rewrite Hres; apply (sort_sorted startVideoTime)|].
  split; [rewrite Hperm; exact Hlen|].
  split; [congruence|].
  intros w' Hw'. assert (w' = w) by congruence. subst w'.
  split; [exact Hw3|]. split; [apply guardZone_ge|].
  split; [|split].
  + apply (pairwise_Permutation _ (apart_sym w (guardZone w)) acc.1);
      [symmetry; exact Hperm|exact Hpair].
  + rewrite Hperm. eapply Forall_impl; [exact Hzones|].
    intros m (i & Hi & Hin & _). unfold windowStart. rewrite Hi. lia.
  + rewrite Hperm. apply Nat.min_glb; [exact Hlen|].
    apply Nat.div_le_lower_bound; [lia|].
    apply subseteq_size in Hrange. rewrite size_set_seq, Hsize in Hrange. lia.
Qed.

End WithPose.

(** The dip is the one worst moment: samples 5 to 7. *)
Example findWorstMoments_scenario :
  (fun m => (windowStart 3 m, Qred (avgScore m), Qred (startVideoTime m), Qred (endVideoTime m)))
    <$> findWorstMoments scenario 3 3
  = [(5, 40%Q, 5%Q, 7%Q)].
Proof. vm_compute. reflexivity. Qed.

Example findWorstMoments_long_session :
  windowStart 3 <$> findWorstMoments long_session 3 3 = [5; 15; 25].
Proof. vm_compute. reflexivity. Qed.

(** The theorem on the long session: three moments, 3 samples each,
    pairwise 5 or more samples apart. *)
Lemma findWorstMoments_spec_witness :
  pairwise (apart 3 5) (findWorstMoments long_session 3 3) /\
  length (findWorstMoments long_session 3 3) <= Nat.min 3 (30 / 3).
Proof.
destruct (findWorstMoments_spec long_session 3 3) as (_ & _ & _ & _ & H).
destruct (H 3%nat) as (_ & _ & Hpair & _ & Hlen).
- vm_compute. reflexivity.
- split; [exact Hpair|exact Hlen].
Defined.

End FindWorstMomentsFacts.

(** ** The session timeline *)

Module FeedbackEngineFacts.
Import JSQ FeedbackEngine.
Import PoseSimilarity(Segment, BODY_SEGMENTS, label).
Local Open Scope nat_scope.

(** The number of chunks of [c] samples needed for [n] samples. *)
Lemma chunks_step (m c : nat) :
  0 < c -> 0 < m -> (m + c - 1) / c = S ((m - c + c - 1) / c).
Proof.
intros Hc Hm.
replace (m + c - 1) with ((m - 1) + 1 * c) by lia.
rewrite Nat.div_add by lia.
destruct (le_lt_dec c m) as [Hle|Hlt].
- replace (m - c + c - 1) with (m - 1) by lia. lia.
- replace (m - c + c - 1) with (c - 1) by lia.
  rewrite !Nat.div_small by lia. lia.
Qed.

(** The loop visits the starts [i], [i + c], ... below the length. *)
Lemma timelineLoop_spec (sessionData : list SessionSample) (c fuel i : nat) :
  0 < c -> length sessionData - i <= fuel ->
  timelineLoop fuel sessionData c i
  = (fun k => phaseOf sessionData (take c (drop (i + k * c) sessionData)))
    <$> seq 0 ((length sessionData - i + c - 1) / c).
Proof.
intros Hc. revert i. induction fuel as [|fuel IH]; intros i Hfuel; cbn [timelineLoop].
- replace (length sessionData - i) with 0 by lia.
  rewrite Nat.div_small by lia. reflexivity.
- destruct (Nat.ltb_spec i (length sessionData)) as [Hlt|Hge].
  + rewrite (chunks_step (length sessionData - i) c) by lia.
    cbn [seq fmap list_fmap]. rewrite Nat.add_0_r. f_equal.
    rewrite IH by lia.
    replace (length sessionData - (i + c)) with (length sessionData - i - c) by lia.
    rewrite <- seq_shift, <- list_fmap_compose.
    apply list_fmap_ext. intros _ k _. cbn. do 3 f_equal. lia.
  + replace (length sessionData - i) with 0 by lia.
    rewrite Nat.div_small by lia. reflexivity.
Qed.

Lemma chunkSizeOf_pos (sessionData : list SessionSample) : 0 < chunkSizeOf sessionData.
Proof. unfold chunkSizeOf. lia. Qed.

Lemma analyzeTimeline_chunks (sessionData : list SessionSample) :
  analyzeTimeline sessionData
  = (fun k => phaseOf sessionData (chunkAt sessionData k))
    <$> seq 0 ((length sessionData + chunkSizeOf sessionData - 1) / chunkSizeOf sessionData).
Proof.
unfold analyzeTimeline.
rewrite timelineLoop_spec by (try apply chunkSizeOf_pos; lia).
rewrite Nat.sub_0_r. reflexivity.
Qed.

(** Cutting a list into pieces of [c] and gluing them gives it back. *)
Lemma concat_chunks {A : Type} (l : list A) (c m : nat) :
  0 < c -> length l <= m * c ->
  concat ((fun k => take c (drop (k * c) l)) <$> seq 0 m) = l.
Proof.
intros Hc. revert l. induction m as [|m IH]; intros l Hlen.
- destruct l; [reflexivity|cbn in Hlen; lia].
- cbn [seq fmap list_fmap concat]. cbn [Nat.mul drop].
  transitivity (take c l ++ drop c l); [|apply take_drop]. f_equal.
  rewrite <- seq_shift, <- list_fmap_compose.
  transitivity (concat ((fun k => take c (drop (k * c) (drop c l))) <$> seq 0 m));
    [|apply IH; rewrite length_drop; lia].
  f_equal. apply list_fmap_ext. intros _ k _. cbn.
  rewrite drop_drop. repeat (f_equal; try lia).
Qed.

(** *** The weakest segment of a chunk *)

Lemma segTotalsOf_flat (chunk : list SessionSample) :
  segTotalsOf chunk = foldl pushEntry [] (chunk ≫= segments).
Proof.
unfold segTotalsOf. generalize (@nil (Segment * list Q)) as st.
induction chunk as [|d chunk IH]; intros st; [reflexivity|].
cbn [foldl mbind list_bind]. rewrite foldl_app. apply IH.
Qed.

Lemma scoresOf_flat (k : Segment) (chunk : list SessionSample) :
  scoresOf k chunk = omap (sel k) (chunk ≫= segments).
Proof.
unfold scoresOf. induction chunk as [|d chunk IH]; [reflexivity|].
cbn [mbind list_bind]. rewrite omap_app, IH. reflexivity.
Qed.

Lemma elem_of_keys (st : list (Segment * list Q)) (k : Segment) (vals : list Q) :
  (k, vals) ∈ st -> k ∈ fst <$> st.
Proof.
intros H. apply list_elem_of_fmap. exists (k, vals). split; [reflexivity|exact H].
Qed.

Lemma push_keys (st : list (Segment * list Q)) (k : Segment) (v : Q) (k' : Segment) :
  k' ∈ fst <$> push st k v <-> k' = k \/ k' ∈ fst <$> st.
Proof.
induction st as [|[k0 vals0] st IH]; cbn [push].
- rewrite !fmap_cons, fmap_nil, elem_of_cons. cbn [fst]. tauto.
- destruct (decide (k0 = k)) as [->|Hne].
  + rewrite !fmap_cons, !elem_of_cons. cbn [fst]. tauto.
  + rewrite !fmap_cons, !elem_of_cons, IH. cbn [fst]. tauto.
Qed.

Lemma push_NoDup (st : list (Segment * list Q)) (k : Segment) (v : Q) :
  NoDup (fst <$> st) -> NoDup (fst <$> push st k v).
Proof.
induction st as [|[k0 vals0] st IH]; cbn [push].
- intros _. rewrite fmap_cons, fmap_nil. apply NoDup_singleton.
- rewrite fmap_cons. cbn [fst]. intros [Hk0 Hnd]%NoDup_cons.
  destruct (decide (k0 = k)) as [->|Hne]; rewrite fmap_cons; cbn [fst];
    apply NoDup_cons.
  + auto.
  + split; [|auto]. rewrite push_keys. intros [->|H]; contradiction.
Qed.

Lemma push_elem (st : list (Segment * list Q)) (k : Segment) (v : Q)
  (k' : Segment) (vals' : list Q) :
  NoDup (fst <$> st) ->
  (k', vals') ∈ push st k v <->
    (k' <> k /\ (k', vals') ∈ st) \/
    (k' = k /\ ((exists vals, (k, vals) ∈ st /\ vals' = vals ++ [v]) \/
                (~ k ∈ fst <$> st) /\ vals' = [v])).
Proof.
induction st as [|[k0 vals0] st IH]; cbn [push].
- intros _. rewrite list_elem_of_singleton. split.
  + intros [= -> ->]. right. split; [reflexivity|]. right.
    split; [|reflexivity]. rewrite fmap_nil. apply not_elem_of_nil.
  + intros [[_ H]|[-> [(vals & H & _)|[_ ->]]]].
    * apply elem_of_nil in H. contradiction.
    * apply elem_of_nil in H. contradiction.
    * reflexivity.
- rewrite fmap_cons. cbn [fst]. intros [Hk0 Hnd]%NoDup_cons.
  specialize (IH Hnd).
  destruct (decide (k0 = k)) as [->|Hne].
  + rewrite !elem_of_cons. split.
    * intros [Heq|Hin].
      -- injection Heq as -> ->. right. split; [reflexivity|]. left.
         exists vals0. split; [left|]; reflexivity.
      -- left. split; [|right; exact Hin].
         intros ->. apply Hk0. eapply elem_of_keys, Hin.
    * intros [[Hk' [Heq|Hin]]|[-> [(vals & [Heq|Hin]%elem_of_cons & ->)|[Hnin ->]]]].
      -- injection Heq as -> ->. contradiction.
      -- right. exact Hin.
      -- injection Heq as ->. left. reflexivity.
      -- exfalso. apply Hk0. eapply elem_of_keys, Hin.
      -- exfalso. apply Hnin. left. reflexivity.
  + rewrite !elem_of_cons, IH. split.
    * intros [Heq|[[Hk' Hin]|[-> [(vals & Hin & ->)|[Hnin ->]]]]].
      -- injection Heq as -> ->. left. split; [exact Hne|]. left. reflexivity.
      -- left. split; [exact Hk'|]. right. exact Hin.
      -- right. split; [reflexivity|]. left. exists vals.
         split; [right; exact Hin|reflexivity].
      -- right. split; [reflexivity|]. right. split; [|reflexivity].
         intros [Heq|H]; [congruence|contradiction].
    * intros [[Hk' [Heq|Hin]]|[-> [(vals & [Heq|Hin]%elem_of_cons & ->)|[Hnin ->]]]].
      -- left. exact Heq.
      -- right. left. auto.
      -- injection Heq as -> ->. contradiction.
      -- right. right. split; [reflexivity|]. left. eauto.
      -- right. right. split; [reflexivity|]. right. split; [|reflexivity].
         intros H. apply Hnin. right. exact H.
Qed.

Lemma totals_ok_push (st : list (Segment * list Q)) (seen seen' : Segment -> list Q)
  (k : Segment) (v : Q) :
  totals_ok st seen ->
  (forall k0, seen' k0 = seen k0 ++ (if decide (k0 = k) then [v] else [])) ->
  totals_ok (push st k v) seen'.
Proof.
intros [Hnd Hst] Hseen.
split; [apply push_NoDup, Hnd|]. intros k' vals'. rewrite (push_elem _ _ _ _ _ Hnd), Hseen.
destruct (decide (k' = k)) as [->|Hne].
- split.
  + intros [[H _]|[_ [(vals & Hin & ->)|[Hnin ->]]]]; [contradiction| |].
    * apply Hst in Hin as [-> _]. split; [reflexivity|]. intros H%app_eq_nil. destruct H; discriminate.
    * destruct (seen k) as [|q qs] eqn:E; [split; [reflexivity|discriminate]|].
      exfalso. apply Hnin. apply list_elem_of_fmap. exists (k, q :: qs). split; [reflexivity|].
      apply Hst. rewrite E. split; [reflexivity|discriminate].
  + intros [-> _]. right. split; [reflexivity|].
    destruct (seen k) as [|q qs] eqn:E.
    * right. split; [|reflexivity]. intros Hin.
      apply list_elem_of_fmap in Hin as ([k1 vals] & -> & Hin). cbn in E.
      apply Hst in Hin as [-> Hne']. rewrite E in *. contradiction.
    * left. exists (q :: qs). split; [|reflexivity]. apply Hst.
      rewrite E. split; [reflexivity|discriminate].
- rewrite app_nil_r, <- Hst. split; [|tauto].
  intros [[_ H]|[H _]]; [exact H|contradiction].
Qed.

Lemma totals_ok_entries (es : list (Segment * option Q)) :
  totals_ok (foldl pushEntry [] es) (fun k => omap (sel k) es).
Proof.
induction es as [|[k o] es IH] using rev_ind.
- split; [constructor|]. intros k vals. cbn. split; [intros H%elem_of_nil|intros [-> H]]; contradiction.
- rewrite foldl_app. cbn [foldl]. unfold pushEntry at 1. cbn [fst snd].
  destruct o as [v|].
  + eapply totals_ok_push; [exact IH|]. intros k0. rewrite omap_app. f_equal.
    cbn. unfold sel. cbn [fst snd]. destruct (decide (k = k0)) as [->|Hne].
    * rewrite decide_True by reflexivity. reflexivity.
    * rewrite decide_False by congruence. reflexivity.
  + destruct IH as [Hnd Hst]. split; [exact Hnd|]. intros k0 vals.
    rewrite Hst, omap_app. cbn. unfold sel at 3. cbn [fst snd].
    destruct (decide (k = k0)); rewrite app_nil_r; reflexivity.
Qed.

(** [segTotals] holds exactly the segments with a score in the chunk. *)
Lemma segTotalsOf_spec (chunk : list SessionSample) (k : Segment) (vals : list Q) :
  (k, vals) ∈ segTotalsOf chunk <-> vals = scoresOf k chunk /\ vals <> [].
Proof.
rewrite segTotalsOf_flat, scoresOf_flat. apply totals_ok_entries.
Qed.

(** What the loop over [segTotals] leaves in [(weakest, weakestAvg)]. *)
Lemma foldl_weakestStep (st : list (Segment * list Q)) (acc : option Segment * Q) :
  let r := foldl weakestStep acc st in
  (forall e, e ∈ st -> (r.2 <= mean e.2)%Q) /\
  ((r = acc) \/ (exists e, e ∈ st /\ r = (Some e.1, mean e.2) /\ (mean e.2 < acc.2)%Q)).
Proof.
revert acc. induction st as [|e st IH]; intros acc; cbn [foldl].
- split; [intros e H%elem_of_nil; contradiction|left; reflexivity].
- destruct (IH (weakestStep acc e)) as [Hmin Hcase]. clear IH.
  assert (Hle : ((foldl weakestStep (weakestStep acc e) st).2 <= (weakestStep acc e).2)%Q).
  { destruct Hcase as [->|(e' & _ & -> & Hlt)]; cbn [snd]; lra. }
  assert (Hstep : ((weakestStep acc e).2 <= mean e.2)%Q /\
                  ((weakestStep acc e).2 <= acc.2)%Q).
  { unfold weakestStep. destruct (Qlt_le_dec _ _); cbn [snd]; lra. }
  split.
  + intros e' [->|He']%elem_of_cons; [lra|apply Hmin, He'].
  + destruct Hcase as [Heq|(e' & He' & Heq & Hlt)].
    * rewrite Heq. unfold weakestStep. destruct (Qlt_le_dec _ _) as [Hlt|_]; [|left; reflexivity].
      right. exists e. split; [left|auto].
    * right. exists e'. split; [right; exact He'|]. split; [exact Heq|]. lra.
Qed.

(** The weakest segment of a chunk: a segment with scores whose mean is
    below 100 and no larger than that of any other segment with scores;
    none when no mean is below 100. *)
Lemma weakestOf_spec (chunk : list SessionSample) :
  match (weakestOf chunk).1 with
  | Some k =>
    scoresOf k chunk <> [] /\
    (weakestOf chunk).2 = mean (scoresOf k chunk) /\
    (mean (scoresOf k chunk) < 100)%Q /\
    forall k', scoresOf k' chunk <> [] ->
      (mean (scoresOf k chunk) <= mean (scoresOf k' chunk))%Q
  | None =>
    (weakestOf chunk).2 = 100%Q /\
    forall k', scoresOf k' chunk <> [] -> (100 <= mean (scoresOf k' chunk))%Q
  end.
Proof.
unfold weakestOf.
destruct (foldl_weakestStep (segTotalsOf chunk) (None, 100%Q)) as [Hmin Hcase].
assert (Hall : forall k', scoresOf k' chunk <> [] ->
          ((foldl weakestStep (None, 100%Q) (segTotalsOf chunk)).2
           <= mean (scoresOf k' chunk))%Q).
{ intros k' Hk'. apply (Hmin (k', scoresOf k' chunk)).
  apply segTotalsOf_spec. auto. }
destruct Hcase as [Heq|([k vals] & He & Heq & Hlt)]; rewrite Heq in *; cbn [fst snd] in *.
- auto.
- apply segTotalsOf_spec in He as [-> Hne]. auto.
Qed.

(** *** The chunks *)

Lemma lt_chunks (n c k : nat) : 0 < c -> k < (n + c - 1) / c <-> k * c < n.
Proof.
intros Hc. split.
- intros Hk. assert (H : c * (k + 1) <= n + c - 1).
  { etransitivity; [|apply (Nat.Div0.mul_div_le _ c)].
    apply Nat.mul_le_mono_l. lia. }
  nia.
- intros Hk. assert (H : k + 1 <= (n + c - 1) / c).
  { apply Nat.div_le_lower_bound; [lia|]. nia. }
  lia.
Qed.

Lemma chunks_cover (n c : nat) : 0 < c -> n <= (n + c - 1) / c * c.
Proof.
intros Hc. pose proof (Nat.div_mod_eq (n + c - 1) c) as H.
pose proof (Nat.mod_upper_bound (n + c - 1) c ltac:(lia)). nia.
Qed.

Lemma chunks_bounds (n : nat) :
  3 <= n ->
  3 <= (n + Nat.max 1 (n / 4) - 1) / Nat.max 1 (n / 4) <= 7 /\
  (n mod 4 = 0 -> (n + Nat.max 1 (n / 4) - 1) / Nat.max 1 (n / 4) = 4).
Proof.
intros Hn. pose proof (Nat.div_mod_eq n 4) as Hdm.
pose proof (Nat.mod_upper_bound n 4 ltac:(lia)) as Hr.
remember (n / 4) as q eqn:Eq. remember (n mod 4) as r eqn:Er. clear Eq Er.
destruct (le_lt_dec q 0) as [Hq|Hq].
- assert (q = 0) by lia. subst q. replace (Nat.max 1 0) with 1 by lia.
  rewrite Nat.div_1_r. lia.
- replace (Nat.max 1 q) with q by lia.
  replace (n + q - 1) with ((r + q - 1) + 4 * q) by lia.
  rewrite Nat.div_add by lia.
  assert (Hlt : (r + q - 1) / q < 4) by (apply Nat.Div0.div_lt_upper_bound; lia).
  split; [lia|]. intros Hr0. rewrite Hr0. rewrite Nat.div_small by lia. lia.
Qed.

(** *** Rounding *)

Lemma Math_round_rounds_to (q : Q) : rounds_to (Math_round q) q.
Proof.
unfold rounds_to, Math_round, tolerance.
pose proof (Qfloor_le (q + (1 # 2))) as Hle.
pose proof (Qlt_floor (q + (1 # 2))) as Hlt.
rewrite inject_Z_plus in Hlt. change (inject_Z 1) with 1%Q in Hlt.
split; lra.
Qed.

Lemma Math_round_seconds (ms : Z) : seconds (Math_round (inject_Z ms / 1000)) ms.
Proof.
unfold seconds, Math_round.
assert (E : (inject_Z ms / 1000 + (1 # 2) == (2 * ms + 1000) # 2000)%Q).
{ unfold Qeq, Qdiv, Qmult, Qplus, Qinv, inject_Z. simpl. lia. }
rewrite (Qfloor_comp _ _ E). unfold Qfloor.
pose proof (Z.div_mod (2 * ms + 1000) 2000 ltac:(lia)) as Hdm.
pose proof (Z.mod_pos_bound (2 * ms + 1000) 2000 ltac:(lia)) as Hb.
lia.
Qed.

(** C6 (amended).  For a session of [n >= 3] samples the timeline has
    one entry for each of the chunks of [c = max (1, floor (n / 4))]
    samples that the session is cut into, in order: [ceil (n / c)] of
    them, which is 4 when [n] is a multiple of 4 and between 3 and 7
    otherwise; every chunk but the last has [c] samples and the last has
    from 1 to [c].  The label of an entry is [<start>s–<end>s], the
    seconds from the first sample of the session to the first and to
    the last sample of the chunk, rounded to the nearest second.  When
    the scores of the session are percentages, the entry reports the
    mean of the overall scores of its chunk rounded to an integer, and
    as weakest segment a segment that has scores in the chunk, whose
    mean score over the chunk is below 100 and the lowest, with that
    mean rounded to an integer; it reports no segment, and 100, when no
    segment mean is below 100.  The means are those of the program up
    to rounding: a millionth is allowed in each comparison of means and
    before each rounding to an integer. *)
Theorem analyzeSession_timeline_spec (sessionData : list SessionSample) :
  3 <= length sessionData ->
  let n := length sessionData in
  let c := chunkSizeOf sessionData in
  let timeline := analyzeSession_timeline sessionData in
  c = Nat.max 1 (n / 4) /\
  length timeline = (n + c - 1) / c /\
  3 <= length timeline <= 7 /\
  (n mod 4 = 0 -> length timeline = 4) /\
  concat (chunkAt sessionData <$> seq 0 (length timeline)) = sessionData /\
  (forall k, k + 1 < length timeline -> length (chunkAt sessionData k) = c) /\
  (forall k, k + 1 = length timeline -> 0 < length (chunkAt sessionData k) <= c) /\
  (forall k p, timeline !! k = Some p ->
     let chunk := chunkAt sessionData k in
     (exists startSec endSec : Z,
        plabel p = pretty startSec +:+ "s–" +:+ pretty endSec +:+ "s" /\
        seconds startSec (timestampOf (head chunk) - timestampOf (head sessionData)) /\
        seconds endSec (timestampOf (last chunk) - timestampOf (head sessionData))) /\
     (Forall in_range sessionData ->
        rounds_to (avg p) (sum overall chunk / inject_Z (Z.of_nat (length chunk))) /\
        match weakestSegment p with
        | Some name =>
          exists key,
            name = label (BODY_SEGMENTS key) /\
            scoresOf key chunk <> [] /\
            (mean (scoresOf key chunk) < 100)%Q /\
            rounds_to (weakestScore p) (mean (scoresOf key chunk)) /\
            forall key', scoresOf key' chunk <> [] ->
              (mean (scoresOf key chunk) <= mean (scoresOf key' chunk) + tolerance)%Q
        | None =>
          weakestScore p = 100%Z /\
          forall key', scoresOf key' chunk <> [] ->
            (100 - tolerance <= mean (scoresOf key' chunk))%Q
        end)).
Proof.
intros Hn n c timeline.
assert (Hc : 0 < c) by apply chunkSizeOf_pos.
assert (Htl : timeline = (fun k => phaseOf sessionData (chunkAt sessionData k))
                         <$> seq 0 ((n + c - 1) / c)).
{ unfold timeline, analyzeSession_timeline.
  destruct (Nat.ltb_spec (length sessionData) 3); [lia|].
  apply analyzeTimeline_chunks. }
assert (Hlen : length timeline = (n + c - 1) / c).
{ rewrite Htl, length_fmap, length_seq. reflexivity. }
destruct (chunks_bounds n Hn) as [Hb H4].
split; [reflexivity|]. split; [exact Hlen|].
split; [rewrite Hlen; exact Hb|]. split; [rewrite Hlen; exact H4|].
split; [|split; [|split]].
- rewrite Hlen. apply concat_chunks; [exact Hc|]. apply chunks_cover, Hc.
- intros k Hk. rewrite Hlen in Hk. apply lt_chunks in Hk; [|exact Hc].
  unfold chunkAt. fold c. rewrite length_take, length_drop. fold n. lia.
- intros k Hk. assert (Hk' : k < (n + c - 1) / c) by lia.
  apply lt_chunks in Hk'; [|exact Hc].
  unfold chunkAt. fold c. rewrite length_take, length_drop. fold n. lia.
- intros k p Hp chunk.
  rewrite Htl, list_lookup_fmap in Hp.
  destruct (seq 0 ((n + c - 1) / c) !! k) as [k'|] eqn:Ek; [|discriminate Hp].
  apply lookup_seq in Ek as [-> _]. cbn [fmap option_fmap option_map] in Hp.
  injection Hp as <-. fold chunk.
  split.
  + eexists _, _. split; [reflexivity|]. split; apply Math_round_seconds.
  + intros _. split; [apply Math_round_rounds_to|].
    cbn [weakestSegment weakestScore phaseOf].
    pose proof (weakestOf_spec chunk) as Hw.
    destruct (weakestOf chunk) as [[key|] score]; cbn [fst snd fmap option_fmap option_map] in *.
    * destruct Hw as (Hne & -> & Hlt & Hmin).
      exists key. split; [reflexivity|]. split; [exact Hne|]. split; [exact Hlt|].
      split; [apply Math_round_rounds_to|].
      intros key' Hk'. specialize (Hmin key' Hk'). unfold tolerance. lra.
    * destruct Hw as (-> & Hmin). split; [reflexivity|].
      intros key' Hk'. specialize (Hmin key' Hk'). unfold tolerance. lra.
Qed.

(** The theorem on the ten samples of the scenario. *)
Lemma analyzeSession_timeline_spec_witness :
  length (analyzeSession_timeline (session [90; 88; 91; 89; 90; 40; 38; 42; 90; 92]%Z))
  = (10 + 2 - 1) / 2.
Proof.
destruct (analyzeSession_timeline_spec
            (session [90; 88; 91; 89; 90; 40; 38; 42; 90; 92]%Z)) as (_ & H & _).
- vm_compute. lia.
- exact H.
Defined.

(** C6, as stated, fails.  A session of 3 samples has 3 chunks and the
    ten samples of the scenario have 5, not 4; and where every segment
    scores 100 no weakest segment is reported. *)
Lemma analyzeSession_timeline_counterexample :
  3 <= length (session [90; 88; 100]%Z) /\
  length (analyzeSession_timeline (session [90; 88; 100]%Z)) = 3 /\
  length (analyzeSession_timeline (session [90; 88; 91; 89; 90; 40; 38; 42; 90; 92]%Z)) = 5 /\
  weakestSegment <$> analyzeSession_timeline (session [90; 88; 100]%Z)
  = [Some "Left Arm"%string; Some "Left Arm"%string; None].
Proof. vm_compute. auto. Qed.

End FeedbackEngineFacts.
(** ** More facts about poseNormalizer.js *)

Module NormalizerFrameFacts.
Import JS JSFacts PoseNormalizer NormalizerFacts.
Local Open Scope R_scope.

(** *** Further facts about the normalizer *)

(** In the exact arithmetic of the model the hip midpoint of a
    normalized pose is the origin and its torso has length 1. *)
Lemma normalizePose_frame_exact (P Q : list Landmark) :
  normalizePose (Some P) = Some Q ->
  length Q = length P /\
  (forall i lm, P !! i = Some lm ->
     exists q, Q !! i = Some q /\ visibility q = Some (orZero (visibility lm))) /\
  (exists midHip, midHip_of Q = Some midHip /\
     x midHip = 0 /\ y midHip = 0 /\ z midHip = Some 0) /\
  torsoLen_of Q = Some 1.
Proof.
intros HQ.
destruct (normalizePose_Some P Q HQ)
  as (h1 & h2 & s1 & s2 & L & E1 & E2 & E3 & E4 & Hlen & HL & Hpos & ->).
set (f := fun lm : Landmark => _).
assert (HL2 : L * L = (x (midpoint s1 s2) - x (midpoint h1 h2)) ^ 2
                    + (y (midpoint s1 s2) - y (midpoint h1 h2)) ^ 2
                    + (orZero (z (midpoint s1 s2)) - orZero (z (midpoint h1 h2))) ^ 2).
{ rewrite HL. apply distance_sqr. }
split; [apply length_fmap|]. split; [|split].
- intros i lm Hi. exists (f lm). rewrite list_lookup_fmap, Hi. split; reflexivity.
- exists (midpoint (f h1) (f h2)). unfold midHip_of.
  rewrite !list_lookup_fmap, E1, E2. split; [reflexivity|].
  unfold f; cbn [x y z visibility midpoint orZero].
  split; [field; lra|]. split; [field; lra|]. f_equal. field. lra.
- unfold torsoLen_of, midShoulder_of, midHip_of.
  rewrite !list_lookup_fmap, E1, E2, E3, E4. cbn [fmap option_fmap option_map].
  f_equal. unfold distance. rewrite <- sqrt_1. f_equal.
  unfold f; cbn [x y z visibility midpoint orZero] in *.
  field_simplify_eq; [|lra]. nra.
Qed.

(** X1. A normalized pose has as many landmarks as the input, and each
    keeps its visibility (0 for a missing one).  It is in the
    body-centred frame up to rounding: when the input is in ordinary
    position (coordinates between -10 and 10, torso at least 0.01 long)
    each coordinate of the hip midpoint of the result is within a
    billionth of 0, and its torso length within a billionth of 1. *)
Theorem normalizePose_frame (P Q : list Landmark) :
  normalizePose (Some P) = Some Q ->
  length Q = length P /\
  (forall i lm, P !! i = Some lm ->
     exists q, Q !! i = Some q /\ visibility q = Some (orZero (visibility lm))) /\
  (ordinary P ->
     (exists midHip, midHip_of Q = Some midHip /\
        within 0.000000001 (x midHip) 0 /\
        within 0.000000001 (y midHip) 0 /\
        within 0.000000001 (orZero (z midHip)) 0) /\
     exists torsoLen, torsoLen_of Q = Some torsoLen /\
        within 0.000000001 torsoLen 1).
Proof.
intros HQ.
destruct (normalizePose_frame_exact P Q HQ)
  as (Hlen & Hvis & (midHip & Hmid & Hx & Hy & Hz) & Htorso).
split; [exact Hlen|]. split; [exact Hvis|]. intros _. split.
- exists midHip. split; [exact Hmid|].
  rewrite Hx, Hy, Hz. cbn [orZero]. unfold within. repeat split; lra.
- exists 1. split; [exact Htorso|]. unfold within. lra.
Qed.

(** The theorem at the standing figure. *)
Lemma normalizePose_frame_witness :
  exists torsoLen,
    torsoLen_of (Poses.figure_normalized 1 ((2 - 1) / 2)) = Some torsoLen /\
    within 0.000000001 torsoLen 1.
Proof.
apply (normalizePose_frame Poses.standing).
- apply normalize_figure.
- unfold Poses.standing. ordinary_check.
Defined.

(** [distance] is symmetric, never negative and 0 from a landmark to
    itself; the midpoint of two landmarks lies half their distance from
    either, and its visibility is the smaller of the two. *)
Lemma midpoint_distance (a b : Landmark) :
  distance a b = distance b a /\
  0 <= distance a b /\
  distance a a = 0 /\
  distance a (midpoint a b) = distance a b / 2 /\
  distance (midpoint a b) b = distance a b / 2 /\
  visibility (midpoint a b) = Some (Rmin (orZero (visibility a)) (orZero (visibility b))).
Proof.
assert (Hhalf : forall u v w : R,
          sqrt ((u / 2) ^ 2 + (v / 2) ^ 2 + (w / 2) ^ 2) = sqrt (u ^ 2 + v ^ 2 + w ^ 2) / 2).
{ intros u v w. apply sqrt_of_square.
  - pose proof (sqrt_pos (u ^ 2 + v ^ 2 + w ^ 2)). lra.
  - pose proof (sqrt_sqrt (u ^ 2 + v ^ 2 + w ^ 2) (sumsq_nonneg u v w)). nra. }
split; [|split; [|split; [|split; [|split]]]].
- unfold distance. f_equal. ring.
- apply sqrt_pos.
- unfold distance. rewrite <- sqrt_0. f_equal. ring.
- unfold distance at 1. cbn [x y z midpoint orZero]. unfold distance.
  rewrite <- Hhalf. f_equal. field.
- unfold distance at 1. cbn [x y z midpoint orZero]. unfold distance.
  rewrite <- Hhalf. f_equal. field.
- reflexivity.
Qed.

(** Entry [i] of a mirrored pose is the flipped landmark of the partner
    of [i]. *)
Lemma mirrorPose_lookup (P : list Landmark) :
  length P = 33%nat ->
  exists M, mirrorPose (Some P) = Some M /\
    forall i, M !! i = flipped <$> P !! partner i.
Proof.
intros Hlen. explode_pose P Hlen.
eexists. split; [reflexivity|]. intros i.
do 33 (destruct i as [|i]; [cbv -[Ropp]; reflexivity|]).
cbv -[Ropp]. reflexivity.
Qed.

Lemma normalize_mirror (P : list Landmark) :
  length P = 33%nat ->
  normalizePose (mirrorPose (Some P)) = mirrorPose (normalizePose (Some P)).
Proof.
intros Hlen.
destruct (mirrorPose_lookup P Hlen) as (M & HM & HMi).
assert (HlenM : length M = 33%nat).
{ clear HMi. explode_pose P Hlen. cbv -[Ropp] in HM. injection HM as <-. reflexivity. }
rewrite HM.
destruct (lookup_33 P 23) as [h1 E1]; [lia..|].
destruct (lookup_33 P 24) as [h2 E2]; [lia..|].
destruct (lookup_33 P 11) as [s1 E3]; [lia..|].
destruct (lookup_33 P 12) as [s2 E4]; [lia..|].
assert (F1 : M !! 23%nat = Some (flipped h2)) by (rewrite HMi; change (partner 23) with 24%nat; rewrite E2; reflexivity).
assert (F2 : M !! 24%nat = Some (flipped h1)) by (rewrite HMi; change (partner 24) with 23%nat; rewrite E1; reflexivity).
assert (F3 : M !! 11%nat = Some (flipped s2)) by (rewrite HMi; change (partner 11) with 12%nat; rewrite E4; reflexivity).
assert (F4 : M !! 12%nat = Some (flipped s1)) by (rewrite HMi; change (partner 12) with 11%nat; rewrite E3; reflexivity).
assert (HD : distance (midpoint (flipped s2) (flipped s1)) (midpoint (flipped h2) (flipped h1))
             = distance (midpoint s1 s2) (midpoint h1 h2)).
{ unfold distance. cbn [x y z midpoint flipped orZero]. f_equal. field. }
destruct (Rlt_le_dec (distance (midpoint s1 s2) (midpoint h1 h2)) 0.001) as [Hlt|Hge].
- assert (HP : normalizePose (Some P) = None).
  { apply normalizePose_None_iff. right. eexists. split; [|exact Hlt].
    unfold torsoLen_of, midShoulder_of, midHip_of. rewrite E1, E2, E3, E4. reflexivity. }
  rewrite HP. cbn [mirrorPose]. apply normalizePose_None_iff. right.
  eexists. split; [|exact Hlt].
  unfold torsoLen_of, midShoulder_of, midHip_of. rewrite F1, F2, F3, F4, HD. reflexivity.
- rewrite (normalizePose_intro P h1 h2 s1 s2) by (assumption || lia).
  rewrite (normalizePose_intro M (flipped h2) (flipped h1) (flipped s2) (flipped s1))
    by (assumption || lia || (rewrite HD; exact Hge)).
  rewrite HD. set (L := distance (midpoint s1 s2) (midpoint h1 h2)) in *.
  match goal with |- _ = mirrorPose (Some (?g <$> P)) => set (f := g) end.
  destruct (mirrorPose_lookup (f <$> P)) as (M' & HM' & HMi'); [rewrite length_fmap; exact Hlen|].
  rewrite HM'. f_equal. apply list_eq. intros i.
  rewrite list_lookup_fmap, HMi, HMi', list_lookup_fmap.
  destruct (P !! partner i) as [lm|]; [|reflexivity].
  cbn [fmap option_fmap option_map]. f_equal.
  unfold f, flipped; cbn [x y z visibility midpoint orZero].
  f_equal; [| |f_equal]; field; lra.
Qed.

Lemma normalizePose_length (P Q : list Landmark) :
  normalizePose (Some P) = Some Q -> length Q = length P.
Proof.
intros (h1 & h2 & s1 & s2 & L & _ & _ & _ & _ & _ & _ & _ & ->)%normalizePose_Some.
apply length_fmap.
Qed.

(** Landmark [i] of the normalized mirror image is the flipped
    landmark of the partner of [i] in the normalized pose. *)
Lemma normalize_mirror_lookup (P Q : list Landmark) :
  length P = 33%nat -> normalizePose (Some P) = Some Q ->
  exists M, normalizePose (mirrorPose (Some P)) = Some M /\ length M = 33%nat /\
    forall i, M !! i = flipped <$> Q !! partner i.
Proof.
intros Hlen HQ. rewrite (normalize_mirror P Hlen), HQ.
assert (HlenQ : length Q = 33%nat) by (rewrite (normalizePose_length P Q HQ); exact Hlen).
destruct (mirrorPose_lookup Q HlenQ) as (M & HM & HMi).
exists M. split; [exact HM|]. split; [|exact HMi].
clear HMi. explode_pose Q HlenQ. cbv -[Ropp] in HM. injection HM as <-. reflexivity.
Qed.

(** X2. Mirroring and normalizing commute on a pose of 33 landmarks:
    normalizing the mirror image gives the mirror image of the
    normalized pose (and both fail together); landmark [i] of it is
    the landmark of the partner of [i] in the normalized pose with [x]
    negated. *)
Theorem normalizePose_mirrorPose (P : list Landmark) :
  length P = 33%nat ->
  normalizePose (mirrorPose (Some P)) = mirrorPose (normalizePose (Some P)) /\
  (normalizePose (Some P) = None -> normalizePose (mirrorPose (Some P)) = None) /\
  forall Q, normalizePose (Some P) = Some Q ->
    exists M, normalizePose (mirrorPose (Some P)) = Some M /\
      forall i lm, Q !! partner i = Some lm ->
        M !! i = Some {| x := - x lm; y := y lm; z := z lm; visibility := visibility lm |}.
Proof.
intros Hlen. split; [apply normalize_mirror, Hlen|]. split.
- intros HN. rewrite (normalize_mirror P Hlen), HN. reflexivity.
- intros Q HQ. destruct (normalize_mirror_lookup P Q Hlen HQ) as (M & HM & _ & HMi).
  exists M. split; [exact HM|]. intros i lm Hlm. rewrite HMi, Hlm. reflexivity.
Qed.

(** The theorem at the standing figure. *)
Lemma normalizePose_mirrorPose_witness :
  normalizePose (mirrorPose (Some Poses.standing))
  = mirrorPose (normalizePose (Some Poses.standing)).
Proof.
apply (normalizePose_mirrorPose Poses.standing). reflexivity.
Defined.

End NormalizerFrameFacts.

(** ** More facts about poseSimilarity.js *)

Module ScorerRangeFacts.
Import JS JSFacts PoseNormalizer NormalizerFacts PoseSimilarity SimilarityFacts.
Local Open Scope R_scope.

(** *** Further facts about the scorer *)

Lemma cosineSim_sym (v1 v2 : Vec) : cosineSim v1 v2 = cosineSim v2 v1.
Proof.
unfold cosineSim. rewrite orb_comm.
destruct (_ || _); [reflexivity|]. f_equal; ring.
Qed.

(** The inequality of Cauchy and Schwarz in three dimensions. *)
Lemma dot_le_mag (a1 a2 a3 b1 b2 b3 : R) :
  (a1 * b1 + a2 * b2 + a3 * b3) ^ 2
  <= (a1 ^ 2 + a2 ^ 2 + a3 ^ 2) * (b1 ^ 2 + b2 ^ 2 + b3 ^ 2).
Proof.
pose proof (pow2_ge_0 (a1 * b2 - a2 * b1)).
pose proof (pow2_ge_0 (a1 * b3 - a3 * b1)).
pose proof (pow2_ge_0 (a2 * b3 - a3 * b2)).
nra.
Qed.

(** [cosineSim] does not depend on the order of its arguments and
    its value always lies between -1 and 1. *)
Lemma cosineSim_range (v1 v2 : Vec) :
  cosineSim v1 v2 = cosineSim v2 v1 /\ -1 <= cosineSim v1 v2 <= 1.
Proof.
split; [apply cosineSim_sym|].
unfold cosineSim.
set (m1 := sqrt (vx v1 ^ 2 + vy v1 ^ 2 + vz v1 ^ 2)).
set (m2 := sqrt (vx v2 ^ 2 + vy v2 ^ 2 + vz v2 ^ 2)).
destruct (ltb m1 0.0001) eqn:H1; cbn [orb]; [lra|].
destruct (ltb m2 0.0001) eqn:H2; [lra|].
apply ltb_false in H1. apply ltb_false in H2.
set (d := vx v1 * vx v2 + vy v1 * vy v2 + vz v1 * vz v2).
assert (Hm1 : m1 * m1 = vx v1 ^ 2 + vy v1 ^ 2 + vz v1 ^ 2) by apply sqrt_sqrt, sumsq_nonneg.
assert (Hm2 : m2 * m2 = vx v2 ^ 2 + vy v2 ^ 2 + vz v2 ^ 2) by apply sqrt_sqrt, sumsq_nonneg.
assert (Hcs : d ^ 2 <= (m1 * m2) ^ 2).
{ replace ((m1 * m2) ^ 2) with ((m1 * m1) * (m2 * m2)) by ring.
  rewrite Hm1, Hm2. apply dot_le_mag. }
assert (Hpos : 0 < m1 * m2) by nra.
assert (Hd : - (m1 * m2) <= d <= m1 * m2) by nra.
split.
- apply Rmult_le_reg_r with (m1 * m2); [exact Hpos|].
  unfold Rdiv. rewrite Rmult_assoc, Rinv_l by lra. lra.
- apply Rmult_le_reg_r with (m1 * m2); [exact Hpos|].
  unfold Rdiv. rewrite Rmult_assoc, Rinv_l by lra. lra.
Qed.

Lemma minVis_sym (ra rb ua ub : Landmark) : minVis ra rb ua ub = minVis ua ub ra rb.
Proof.
unfold minVis.
generalize (orZero (visibility ra)) (orZero (visibility rb))
           (orZero (visibility ua)) (orZero (visibility ub)).
intros a b c d. unfold Rmin. repeat destruct (Rle_dec _ _); lra.
Qed.

Lemma pairStep_sym (Qr Qu : list Landmark) (acc : R * nat) (ab : nat * nat) :
  pairStep Qr Qu acc ab = pairStep Qu Qr acc ab.
Proof.
unfold pairStep.
destruct (Qr !! ab.1) as [ra|], (Qr !! ab.2) as [rb|],
         (Qu !! ab.1) as [ua|], (Qu !! ab.2) as [ub|]; try reflexivity.
rewrite (minVis_sym ra rb ua ub), cosineSim_sym. reflexivity.
Qed.

Lemma segmentScore_sym (Qr Qu : list Landmark) (seg : SegmentInfo) :
  segmentScore Qr Qu seg = segmentScore Qu Qr seg.
Proof.
unfold segmentScore.
assert (H : forall ps acc, foldl (pairStep Qr Qu) acc ps = foldl (pairStep Qu Qr) acc ps).
{ induction ps as [|ab ps IH]; intros acc; [reflexivity|].
  cbn [foldl]. rewrite pairStep_sym. apply IH. }
rewrite H. reflexivity.
Qed.

(** X3. [comparePoses] is symmetric: exchanging the reference pose and
    the user pose changes neither the overall score nor any segment
    score (nor whether there is a result). *)
Theorem comparePoses_sym (now : Z) (r u : option (list Landmark)) :
  comparePoses now r u = comparePoses now u r.
Proof.
unfold comparePoses.
destruct (normalizePose r) as [Qr|], (normalizePose u) as [Qu|]; try reflexivity.
assert (H : (fun name => (name, segmentScore Qr Qu (BODY_SEGMENTS name))) <$> segment_keys
          = (fun name => (name, segmentScore Qu Qr (BODY_SEGMENTS name))) <$> segment_keys).
{ apply list_fmap_ext. intros _ name _. rewrite segmentScore_sym. reflexivity. }
rewrite H. reflexivity.
Qed.

Lemma segmentScore_range (Qr Qu : list Landmark) (seg : SegmentInfo) (s : R) :
  segmentScore Qr Qu seg = Some s -> 0 <= s <= 100.
Proof.
unfold segmentScore. destruct (_ =? _)%nat; [discriminate|]. intros [= <-].
split; [apply Rmax_l|]. apply Rmax_lub; [lra|apply Rmin_l].
Qed.

(** The weighted sums stay within 0 and 100 times the weights. *)
Lemma foldl_weightStep_range (entries : list (Segment * option R)) (acc : R * R) :
  (forall name s, (name, Some s) ∈ entries -> 0 <= s <= 100) ->
  0 <= acc.2 -> 0 <= acc.1 <= 100 * acc.2 ->
  let sums := foldl weightStep acc entries in
  acc.2 <= sums.2 /\ 0 <= sums.1 <= 100 * sums.2.
Proof.
revert acc. induction entries as [|[name o] entries IH]; intros acc Hs Hw Hacc; cbn [foldl].
- cbv zeta. lra.
- assert (Hs' : forall name s, (name, Some s) ∈ entries -> 0 <= s <= 100).
  { intros n s Hin. apply (Hs n). right. exact Hin. }
  unfold weightStep at 2 4 6. cbn [fst snd]. destruct o as [s|].
  + assert (Hweight : 0 < weight (BODY_SEGMENTS name)).
    { destruct name; cbn [BODY_SEGMENTS weight]; lra. }
    assert (H0 : 0 <= s <= 100) by (apply (Hs name); left).
    destruct (IH (acc.1 + s * weight (BODY_SEGMENTS name), acc.2 + weight (BODY_SEGMENTS name)) Hs')
      as [H1 H2]; cbn [fst snd] in *; [lra|nra|].
    split; [lra|exact H2].
  + apply IH; assumption.
Qed.

Lemma Math_round_range (r : R) (lo hi : Z) :
  IZR lo <= r <= IZR hi -> IZR lo <= Math_round r <= IZR hi.
Proof.
intros [Hlo Hhi]. unfold Math_round.
pose proof (Zfloor_bound (r + 1 / 2)) as [Hb1 Hb2].
split; apply IZR_le.
- apply Zfloor_lub. lra.
- assert (H : (Zfloor (r + 1 / 2) < hi + 1)%Z); [|lia].
  apply lt_IZR. rewrite plus_IZR. lra.
Qed.

(** X4. A result of [comparePoses] lists the six segments in the order
    of [BODY_SEGMENTS]; every segment score it holds lies between 0 and
    100, and so does the overall score, which has one decimal place. *)
Theorem comparePoses_range (now : Z) (r u : option (list Landmark))
  (res : ComparisonResult) :
  comparePoses now r u = Some res ->
  fst <$> segments res = segment_keys /\
  (forall name s, (name, Some s) ∈ segments res -> 0 <= s <= 100) /\
  0 <= overall res <= 100 /\
  exists tenths : Z, overall res = IZR tenths / 10.
Proof.
unfold comparePoses.
destruct (normalizePose r) as [Qr|]; [|discriminate].
destruct (normalizePose u) as [Qu|]; [|discriminate].
cbv zeta. intros Hres. apply (inj Some) in Hres. subst res. cbn [segments overall].
set (scores := (fun name => (name, segmentScore Qr Qu (BODY_SEGMENTS name))) <$> segment_keys).
assert (Hrange : forall name s, (name, Some s) ∈ scores -> 0 <= s <= 100).
{ intros name s Hin. apply list_elem_of_fmap in Hin as (name' & [= -> Hs] & _).
  symmetry in Hs. eapply segmentScore_range, Hs. }
split; [|split; [exact Hrange|]].
{ unfold scores. rewrite <- list_fmap_compose. apply list_fmap_id. }
destruct (foldl_weightStep_range scores (0, 0) Hrange) as [Hw Hsum]; cbn [fst snd]; try lra.
set (sums := foldl weightStep (0, 0) scores) in *. cbv zeta in Hw, Hsum.
unfold gtb. destruct (ltb 0 sums.2) eqn:Hpos.
- apply ltb_true in Hpos.
  assert (Havg : IZR 0 <= sums.1 / sums.2 * 10 <= IZR 1000).
  { split.
    - apply Rmult_le_pos; [|lra]. apply Rmult_le_pos; [lra|].
      apply Rlt_le, Rinv_0_lt_compat, Hpos.
    - assert (sums.1 / sums.2 <= 100); [|lra].
      apply Rmult_le_reg_r with sums.2; [exact Hpos|].
      unfold Rdiv. rewrite Rmult_assoc, Rinv_l by lra. lra. }
  apply Math_round_range in Havg. split; [lra|].
  eexists. unfold Math_round. reflexivity.
- split; [lra|]. exists 0%Z. lra.
Qed.

(** The theorem at the tucked figure compared with itself. *)
Lemma comparePoses_range_witness :
  exists res, comparePoses 0 (Some Poses.tucked) (Some Poses.tucked) = Some res /\
    0 <= overall res <= 100.
Proof.
destruct (comparePoses 0 (Some Poses.tucked) (Some Poses.tucked)) as [res|] eqn:E.
- exists res. split; [reflexivity|].
  exact (proj1 (proj2 (proj2 (comparePoses_range 0 _ _ res E)))).
- exfalso. apply comparePoses_None_iff in E.
  unfold Poses.tucked in E. rewrite normalize_figure in E. destruct E; discriminate.
Defined.

(** *** Score bands *)

Lemma geb_spec (a b : R) : geb a b = true <-> b <= a.
Proof. unfold geb. destruct (Rge_dec a b); split; (congruence || lra). Qed.

Lemma geb_false (a b : R) : geb a b = false <-> a < b.
Proof. unfold geb. destruct (Rge_dec a b); split; (congruence || lra). Qed.

Ltac bands :=
  repeat match goal with
  | |- context [geb ?a ?b] =>
    let E := fresh "E" in
    destruct (geb a b) eqn:E;
    [apply geb_spec in E|apply geb_false in E]
  end.

(** X5. The colour and the label of a score name the same band: two
    scores (or absent scores) get the same colour exactly when they get
    the same label.  A score above one labelled 'Perfect!' is labelled
    so too, a score below one labelled 'Way Off' likewise; 'Close' is
    the label of the scores from 55 up to 70, and the two colours
    '#ef4444' and '#f97316' are those of the scores below 55. *)
Theorem scoreToColor_scoreToLabel (s1 s2 : option R) :
  (scoreToColor s1 = scoreToColor s2 <-> scoreToLabel s1 = scoreToLabel s2) /\
  (forall a b, s1 = Some a -> s2 = Some b -> a <= b ->
     scoreToLabel s1 = "Perfect!"%string -> scoreToLabel s2 = "Perfect!"%string) /\
  (forall a b, s1 = Some a -> s2 = Some b -> a <= b ->
     scoreToLabel s2 = "Way Off"%string -> scoreToLabel s1 = "Way Off"%string) /\
  (forall a, s1 = Some a ->
     (scoreToLabel s1 = "Close"%string <-> 55 <= a < 70) /\
     (scoreToColor s1 = "#ef4444"%string \/ scoreToColor s1 = "#f97316"%string <-> a < 55)).
Proof.
split; [|split; [|split]].
- destruct s1 as [a|], s2 as [b|]; unfold scoreToColor, scoreToLabel; bands;
    split; intros H; first [reflexivity|discriminate H].
- intros a b -> -> Hab. unfold scoreToLabel. bands; intros H;
    first [reflexivity|discriminate H|exfalso; lra].
- intros a b -> -> Hab. unfold scoreToLabel. bands; intros H;
    first [reflexivity|discriminate H|exfalso; lra].
- intros a ->. unfold scoreToLabel, scoreToColor. bands; (split; split);
    try (intros [H|H]; first [discriminate H|lra]);
    try (intros H; first [reflexivity|discriminate H|lra|(left; reflexivity)|(right; reflexivity)]).
Qed.

End ScorerRangeFacts.

(** ** More facts about audioCoach.js *)

Module CoachStateFacts.
Import JS JSFacts PoseNormalizer PoseSimilarity AudioCoach AudioCoachFacts.
Local Open Scope R_scope.

(** *** The worst segment *)

Lemma foldl_worstStep_spec (entries : list (Segment * option R)) (acc : option Segment * R) :
  let res := foldl worstStep acc entries in
  res.2 <= acc.2 /\
  (forall k s, (k, Some s) ∈ entries -> res.2 <= s) /\
  (res.2 = acc.2 -> res = acc) /\
  (res.2 < acc.2 -> exists k, res.1 = Some k /\ (k, Some res.2) ∈ entries).
Proof.
revert acc. induction entries as [|[k [s|]] rest IH]; intros acc; cbv zeta; cbn [foldl].
- split; [lra|]. split; [intros k s H; inversion H|]. split; [reflexivity|lra].
- destruct (IH (worstStep acc (k, Some s))) as (H1 & H2 & H3 & H4).
  destruct (Rlt_dec s acc.2) as [Hlt|Hge].
  + rewrite (worstStep_lt acc k s Hlt) in *. cbn [fst snd] in *.
    split; [lra|]. split; [|split].
    * intros k' s' [[= -> ->]|Hin]%elem_of_cons; [exact H1|eapply H2, Hin].
    * lra.
    * intros _. destruct (Rle_lt_or_eq_dec _ _ H1) as [Hlt'|Heq].
      -- destruct (H4 Hlt') as (k' & Hk' & Hin). exists k'. split; [exact Hk'|right; exact Hin].
      -- rewrite (H3 Heq). cbn [fst snd]. exists k. split; [reflexivity|left].
  + rewrite (worstStep_ge acc k s) in * by lra.
    split; [exact H1|]. split; [|split; [exact H3|]].
    * intros k' s' [[= -> ->]|Hin]%elem_of_cons; [lra|eapply H2, Hin].
    * intros Hlt. destruct (H4 Hlt) as (k' & Hk' & Hin). exists k'.
      split; [exact Hk'|right; exact Hin].
- change (worstStep acc (k, None)) with acc.
  destruct (IH acc) as (H1 & H2 & H3 & H4).
  split; [exact H1|]. split; [|split; [exact H3|]].
  + intros k' s' [[=]|Hin]%elem_of_cons. eapply H2, Hin.
  + intros Hlt. destruct (H4 Hlt) as (k' & Hk' & Hin). exists k'.
    split; [exact Hk'|right; exact Hin].
Qed.

(** X6. The loop that looks for the worst segment ends with the lowest
    score of the comparison capped at 100: no segment scores below it;
    it names a segment exactly when that score is below 100, and the
    named segment has that score. *)
Theorem worstSegment_spec (comparison : ComparisonResult) :
  let worstSeg := (worstSegment comparison).1 in
  let worstScore := (worstSegment comparison).2 in
  worstScore <= 100 /\
  (forall k s, (k, Some s) ∈ segments comparison -> worstScore <= s) /\
  (worstSeg = None <-> worstScore = 100) /\
  (forall k, worstSeg = Some k -> (k, Some worstScore) ∈ segments comparison).
Proof.
cbv zeta. unfold worstSegment.
destruct (foldl_worstStep_spec (segments comparison) (None, 100)) as (H1 & H2 & H3 & H4).
cbn [fst snd] in *.
split; [exact H1|]. split; [exact H2|]. split; [split|].
- intros Hnone. destruct (Rle_lt_or_eq_dec _ _ H1) as [Hlt|Heq]; [|exact Heq].
  destruct (H4 Hlt) as (k & Hk & _). congruence.
- intros Heq. rewrite (H3 Heq). reflexivity.
- intros k Hk. destruct (Rle_lt_or_eq_dec _ _ H1) as [Hlt|Heq].
  + destruct (H4 Hlt) as (k' & Hk' & Hin). congruence.
  + rewrite (H3 Heq) in Hk. discriminate.
Qed.

(** *** What a call does to the state *)

Lemma truthy_nonempty (s : option string) (m : string) :
  truthy s = Some m -> m <> ""%string.
Proof.
destruct s as [[|a s']|]; cbn; intros [= <-]. discriminate.
Qed.

(** X7. A call that says nothing leaves the three variables as they
    were.  A call that speaks was made with the coach enabled, at
    least 4000 ms after the last utterance; it sets [lastSpeakTime] to
    [now], leaves [enabled] alone and the text it speaks is not empty. *)
Theorem generateVoiceCue_effect (st : State) (now : Z)
  (comparison : option ComparisonResult) (refL userL : option (list Landmark))
  (cue : option string) :
  match generateVoiceCue st now comparison refL userL cue with
  | (st', None) => st' = st
  | (st', Some text) =>
    enabled st = true /\ comparison <> None /\
    (lastSpeakTime st + 4000 <= now)%Z /\
    lastSpeakTime st' = now /\ enabled st' = true /\ text <> ""%string
  end.
Proof.
destruct (generateVoiceCue st now comparison refL userL cue) as [st' [text|]] eqn:E.
- destruct (generateVoiceCue_speaks _ _ _ _ _ _ _ _ E) as [H1 H2].
  revert E. unfold generateVoiceCue.
  destruct (enabled st) eqn:En; cbn [negb]; [|discriminate].
  destruct comparison as [c|]; [|discriminate].
  destruct (now - lastSpeakTime st <? COOLDOWN_MS)%Z; [discriminate|]. cbv zeta.
  destruct (geb _ SCORE_THRESHOLD_SPEAK).
  + destruct (_ && _); [|discriminate]. intros [= <- <-]. cbn [enabled].
    repeat split; try assumption; discriminate.
  + destruct (_ && _); [discriminate|]. intros [= <- <-]. cbn [enabled].
    repeat split; try assumption; try discriminate.
    destruct (truthy _) as [m|] eqn:Em; [eapply truthy_nonempty, Em|discriminate].
- eapply generateVoiceCue_silent, E.
Qed.

(** A disabled coach says nothing, whatever it is called with *)
Lemma run_disabled (st : State) (calls : list Call) :
  run (setAudioCoachEnabled st false) calls = [].
Proof.
induction calls as [|c rest IH]; [reflexivity|]. cbn [run]. exact IH.
Qed.

(** X8. The call of [generateVoiceCue] made directly after
    [resetAudioCoach], with no other call in between, speaks when the
    coach is enabled, the clock reads 4000 ms or more and the comparison
    of the call has a worst segment below 55, whatever was said before
    the reset; it records the time of the call and that segment. *)
Theorem resetAudioCoach_speaks (st : State) (c : Call) (seg : Segment) :
  enabled st = true -> (4000 <= c_now c)%Z -> flags seg c ->
  exists text,
    generateVoiceCue (resetAudioCoach st) (c_now c) (c_comparison c) (c_ref c) (c_user c)
      (c_cue c)
    = ({| lastSpeakTime := c_now c; lastSpokenSegment := Some seg; enabled := true |},
       Some text).
Proof.
intros En Hnow (comparison & Hc & Hseg & Hscore).
unfold generateVoiceCue, resetAudioCoach. cbn [enabled lastSpeakTime lastSpokenSegment].
rewrite En, Hc. cbn [negb].
destruct (Z.ltb_spec (c_now c - 0) COOLDOWN_MS) as [Hlt|_]; [unfold COOLDOWN_MS in Hlt; lia|].
cbv zeta. rewrite Hseg.
unfold geb. destruct (Rge_dec _ SCORE_THRESHOLD_SPEAK) as [Hge|_]; [lra|].
rewrite bool_decide_eq_false_2 by discriminate. cbn [andb].
eexists. reflexivity.
Qed.

(** *** Swapping the two poses *)

Lemma gtb_true (a b : R) : gtb a b = true <-> b < a.
Proof. unfold gtb. apply ltb_true. Qed.

Lemma gtb_false (a b : R) : gtb a b = false <-> a <= b.
Proof. unfold gtb. apply ltb_false. Qed.

(** X9. Swapping the reference and the user pose turns each cue into
    its opposite: raise and lower change places, so do left and right,
    and the undirected cue and the absence of a cue stay. *)
Theorem analyzeDifference_swap (refL userL : list Landmark) (seg : Segment) :
  let label := jlabel (SEGMENT_TO_JOINTS seg) in
  let there := analyzeDifference refL userL seg in
  let back := analyzeDifference userL refL seg in
  (there = None <-> back = None) /\
  (there = Some ("Raise your " +:+ label +:+ " higher")
   <-> back = Some ("Lower your " +:+ label +:+ " a bit")) /\
  (there = Some ("Bring your " +:+ label +:+ " more to the left")
   <-> back = Some ("Extend your " +:+ label +:+ " more to the right")) /\
  (there = Some ("Adjust your " +:+ label +:+ " position")
   <-> back = Some ("Adjust your " +:+ label +:+ " position")).
Proof.
cbv zeta. unfold analyzeDifference.
set (label := jlabel (SEGMENT_TO_JOINTS seg)).
destruct (refL !! (primary (SEGMENT_TO_JOINTS seg)).1) as [rt|];
destruct (userL !! (primary (SEGMENT_TO_JOINTS seg)).1) as [ut|];
destruct (refL !! (primary (SEGMENT_TO_JOINTS seg)).2) as [rb|];
destruct (userL !! (primary (SEGMENT_TO_JOINTS seg)).2) as [ub|];
  try (repeat split; intros H; (reflexivity || discriminate H)).
rewrite (orb_comm (ltb (orZero (visibility ut)) 0.4)).
destruct (_ || _); [repeat split; intros H; (reflexivity || discriminate H)|].
cbv zeta.
set (yDiff := y ut - y ub - (y rt - y rb)).
set (xDiff := x ut - x ub - (x rt - x rb)).
replace (y rt - y rb - (y ut - y ub)) with (- yDiff) by (unfold yDiff; lra).
replace (x rt - x rb - (x ut - x ub)) with (- xDiff) by (unfold xDiff; lra).
rewrite !Rabs_Ropp.
destruct (gtb (Rabs yDiff) (Rabs xDiff) && gtb (Rabs yDiff) 0.04) eqn:Ey.
- apply andb_true_iff in Ey as [_ Ey]. apply gtb_true in Ey.
  destruct (gtb yDiff 0) eqn:E1; destruct (gtb (- yDiff) 0) eqn:E2;
    try apply gtb_true in E1; try apply gtb_false in E1;
    try apply gtb_true in E2; try apply gtb_false in E2.
  + exfalso. lra.
  + repeat split; intros H; (reflexivity || (cbn in H; discriminate H)).
  + repeat split; intros H; (reflexivity || (cbn in H; discriminate H)).
  + exfalso. assert (yDiff = 0) by lra. rewrite H, Rabs_R0 in Ey. lra.
- destruct (gtb (Rabs xDiff) 0.04) eqn:Ex.
  + apply gtb_true in Ex.
    destruct (gtb xDiff 0) eqn:E1; destruct (gtb (- xDiff) 0) eqn:E2;
      try apply gtb_true in E1; try apply gtb_false in E1;
      try apply gtb_true in E2; try apply gtb_false in E2.
    * exfalso. lra.
    * repeat split; intros H; (reflexivity || (cbn in H; discriminate H)).
    * repeat split; intros H; (reflexivity || (cbn in H; discriminate H)).
    * exfalso. assert (xDiff = 0) by lra. rewrite H, Rabs_R0 in Ex. lra.
  + repeat split; intros H; (reflexivity || (cbn in H; discriminate H)).
Qed.

(** The theorem for a coach that spoke about the left arm just before
    the reset. *)
Lemma resetAudioCoach_speaks_witness :
  exists text,
    generateVoiceCue (resetAudioCoach (mkState 9000 (Some leftArm) true)) 10000
      (Some (lowLeftArm 10000)) None None None
    = ({| lastSpeakTime := 10000; lastSpokenSegment := Some leftArm; enabled := true |},
       Some text).
Proof.
apply (resetAudioCoach_speaks (mkState 9000 (Some leftArm) true)
         (mkCall 10000 (Some (lowLeftArm 10000)) None None None) leftArm).
- reflexivity.
- cbn [c_now]. lia.
- exists (lowLeftArm 10000). split; [reflexivity|].
  rewrite worstSegment_lowLeftArm. cbn [fst snd]. unfold SCORE_THRESHOLD_SPEAK.
  split; [reflexivity|lra].
Defined.

End CoachStateFacts.

(** ** More facts about poseDescriber.js *)

Module PosecodeFacts.
Import JS JSFacts PoseNormalizer PoseSimilarity PoseDescriber PoseDescriberFacts.
Local Open Scope R_scope.

(** *** The angle at a joint *)

Lemma clamp_range (v : R) : -1 <= Rmax (-1) (Rmin 1 v) <= 1.
Proof.
split; [apply Rmax_l|]. apply Rmax_lub; [lra|apply Rmin_l].
Qed.

Lemma sqrt_sumsq_scale (k u v : R) :
  sqrt ((k * u) ^ 2 + (k * v) ^ 2) = Rabs k * sqrt (u ^ 2 + v ^ 2).
Proof.
replace ((k * u) ^ 2 + (k * v) ^ 2) with (k ^ 2 * (u ^ 2 + v ^ 2)) by ring.
rewrite sqrt_mult_alt by apply pow2_ge_0.
f_equal. replace (k ^ 2) with (Rsqr k) by (unfold Rsqr; ring).
apply sqrt_Rsqr_abs.
Qed.

(** X10. [angle3] does not depend on the order of the two outer points
    and lies between 0 and 180 degrees.  When the second arm is a
    multiple [k] of the first (and both are at least 0.001 long) the
    angle is 0 for [k > 0] and 180 for [k < 0], up to the rounding of
    the cosine and of [Math.acos], for which a thousandth of a degree
    is allowed: a straight limb has an angle of 180 within 0.001. *)
Theorem angle3_spec (a b c : Landmark) :
  angle3 a b c = angle3 c b a /\
  (forall t, angle3 a b c = Some t -> 0 <= t <= 180) /\
  (forall k, x c - x b = k * (x a - x b) -> y c - y b = k * (y a - y b) ->
     k <> 0 -> is_Some (angle3 a b c) ->
     exists t, angle3 a b c = Some t /\
               within 0.001 t (if Rlt_dec 0 k then 0 else 180)).
Proof.
split; [|split].
- unfold angle3. cbv zeta.
  set (m1 := sqrt ((x a - x b) ^ 2 + (y a - y b) ^ 2)).
  set (m2 := sqrt ((x c - x b) ^ 2 + (y c - y b) ^ 2)).
  rewrite (orb_comm (ltb m1 0.001)), (Rmult_comm m1 m2).
  replace ((x a - x b) * (x c - x b) + (y a - y b) * (y c - y b))
    with ((x c - x b) * (x a - x b) + (y c - y b) * (y a - y b)) by ring.
  reflexivity.
- intros t. unfold angle3. cbv zeta. destruct (_ || _); [discriminate|]. intros [= <-].
  match goal with |- context [acos ?v] => pose proof (acos_bound v) as [H0 H1] end.
  pose proof PI_RGT_0 as Hpi.
  split.
  + apply Rmult_le_pos; [nra|]. apply Rlt_le, Rinv_0_lt_compat, Hpi.
  + apply Rmult_le_reg_r with PI; [exact Hpi|]. field_simplify; [nra|lra].
- intros k Hx Hy Hk [t Ht]. revert Ht. unfold angle3. cbv zeta.
  rewrite Hx, Hy.
  set (u := x a - x b). set (v := y a - y b).
  rewrite sqrt_sumsq_scale. set (m := sqrt (u ^ 2 + v ^ 2)).
  destruct (ltb m 0.001) eqn:E1; [discriminate|]. apply ltb_false in E1.
  destruct (ltb (Rabs k * m) 0.001) eqn:E2; [discriminate|]. cbn [orb]. intros _.
  assert (Hm : m * m = u ^ 2 + v ^ 2).
  { unfold m. apply sqrt_sqrt. pose proof (pow2_ge_0 u). pose proof (pow2_ge_0 v). lra. }
  pose proof PI_RGT_0 as Hpi.
  assert (Hq : (u * (k * u) + v * (k * v)) / (m * (Rabs k * m)) = k / Rabs k).
  { assert (Rabs k <> 0) by (apply Rabs_no_R0, Hk).
    replace (u * (k * u) + v * (k * v)) with (k * (m * m)) by (rewrite Hm; ring).
    field. split; [assumption|lra]. }
  rewrite Hq. eexists. split; [reflexivity|].
  destruct (Rlt_dec 0 k) as [Hpos|Hneg].
  + rewrite Rabs_right by lra. replace (k / k) with 1 by (field; lra).
    rewrite Rmin_left, Rmax_right by lra. rewrite acos_1.
    replace (0 * 180 / PI) with 0 by (field; lra). unfold within. lra.
  + rewrite Rabs_left by lra. replace (k / - k) with (-1) by (field; lra).
    rewrite Rmin_right, Rmax_left by lra.
    replace (-1) with (- (1)) by ring. rewrite acos_opp, acos_1.
    replace ((PI - 0) * 180 / PI) with 180 by (field; lra). unfold within. lra.
Qed.

(** The theorem at a straight diagonal limb: (0.5, 0.5), the joint at
    the origin, (-1, -1). *)
Lemma angle3_spec_witness :
  exists t, angle3 (Poses.at_ 1 0.5 0.5) (Poses.at_ 1 0 0) (Poses.at_ 1 (-1) (-1)) = Some t /\
            within 0.001 t 180.
Proof.
destruct (proj2 (proj2 (angle3_spec (Poses.at_ 1 0.5 0.5) (Poses.at_ 1 0 0)
                          (Poses.at_ 1 (-1) (-1))))
            (-2)) as (t & Ht & Hnear).
- cbn [x Poses.at_]. lra.
- cbn [y Poses.at_]. lra.
- lra.
- unfold angle3. cbv zeta. cbn [x y Poses.at_].
  assert (E1 : ltb (sqrt ((0.5 - 0) ^ 2 + (0.5 - 0) ^ 2)) 0.001 = false)
    by (apply ltb_false, sqrt_ge; simpl; lra).
  assert (E2 : ltb (sqrt ((-1 - 0) ^ 2 + (-1 - 0) ^ 2)) 0.001 = false)
    by (apply ltb_false, sqrt_ge; simpl; lra).
  rewrite E1, E2. cbn [orb]. eexists. reflexivity.
- exists t. split; [exact Ht|].
  destruct (Rlt_dec 0 (-2)) as [Hpos|_]; [lra|exact Hnear].
Defined.

(** *** Posecode keys *)

Lemma segmentName_inj (s1 s2 : Segment) (k1 k2 : string) :
  segmentName s1 +:+ ":" +:+ k1 = segmentName s2 +:+ ":" +:+ k2 -> s1 = s2 /\ k1 = k2.
Proof.
destruct s1, s2; intros H; vm_compute in H;
  first [discriminate H|split; [reflexivity|congruence]].
Qed.

Lemma key_inj (c1 c2 : Posecode) :
  key c1 = key c2 -> segment c1 = segment c2 /\ code c1 = code c2.
Proof. apply segmentName_inj. Qed.

Ltac split_ifs :=
  repeat match goal with
  | |- context [if ?b then _ else _] => destruct b
  | |- context [match ?o with Some _ => _ | None => _ end] => destruct o
  end.

Ltac closed_block :=
  cbn [app fmap list_fmap code segment length];
  split; [match goal with |- NoDup ?l =>
            apply (bool_decide_unpack (NoDup l)); vm_compute; exact I end|];
  split; [repeat constructor|lia].

Lemma armCodes_block (lm : list Landmark) (side : Side) :
  NoDup (code <$> armCodes lm side) /\
  Forall (fun c => segment c = match side with left => leftArm | right => rightArm end)
    (armCodes lm side) /\
  (length (armCodes lm side) <= 4)%nat.
Proof.
unfold armCodes. cbv zeta. destruct side; split_ifs; closed_block.
Qed.

Lemma legCodes_block (lm : list Landmark) (side : Side) :
  NoDup (code <$> legCodes lm side) /\
  Forall (fun c => segment c = match side with left => leftLeg | right => rightLeg end)
    (legCodes lm side) /\
  (length (legCodes lm side) <= 3)%nat.
Proof.
unfold legCodes. cbv zeta. destruct side; split_ifs; closed_block.
Qed.

Lemma torsoCodes_block (lm : list Landmark) :
  NoDup (code <$> torsoCodes lm) /\
  Forall (fun c => segment c = torso) (torsoCodes lm) /\
  (length (torsoCodes lm) <= 3)%nat.
Proof.
unfold torsoCodes. cbv zeta. split_ifs; closed_block.
Qed.

Lemma headCodes_block (lm : list Landmark) :
  NoDup (code <$> headCodes lm) /\
  Forall (fun c => segment c = head) (headCodes lm) /\
  (length (headCodes lm) <= 2)%nat.
Proof.
unfold headCodes. cbv zeta. split_ifs; closed_block.
Qed.

Lemma block_keys (seg : Segment) (l : list Posecode) :
  NoDup (code <$> l) -> Forall (fun c => segment c = seg) l ->
  NoDup (key <$> l) /\ Forall (fun c => segment c ∈ [seg]) l.
Proof.
intros Hnd Hseg. split.
- revert Hnd. induction Hseg as [|c l Hc Hl IH]; [constructor|].
  rewrite !fmap_cons. intros [Hnin Hnd]%NoDup_cons. apply NoDup_cons. split; [|apply IH, Hnd].
  intros Hin. apply Hnin. apply list_elem_of_fmap in Hin as (c' & Hk & Hc').
  apply key_inj in Hk as [_ Hk]. rewrite Hk. apply list_elem_of_fmap_2, Hc'.
- eapply Forall_impl; [exact Hseg|]. intros c ->. left.
Qed.

Lemma keys_app (segs1 segs2 : list Segment) (l1 l2 : list Posecode) :
  (forall s, s ∈ segs1 -> s ∈ segs2 -> False) ->
  NoDup (key <$> l1) /\ Forall (fun c => segment c ∈ segs1) l1 ->
  NoDup (key <$> l2) /\ Forall (fun c => segment c ∈ segs2) l2 ->
  NoDup (key <$> (l1 ++ l2)) /\ Forall (fun c => segment c ∈ segs1 ++ segs2) (l1 ++ l2).
Proof.
intros Hdisj [Hnd1 Hs1] [Hnd2 Hs2]. split.
- rewrite fmap_app. apply NoDup_app. split; [exact Hnd1|]. split; [|exact Hnd2].
  intros k (c1 & Hk1 & Hc1)%list_elem_of_fmap (c2 & Hk2 & Hc2)%list_elem_of_fmap.
  rewrite Hk1 in Hk2. apply key_inj in Hk2 as [Hseg _].
  rewrite Forall_forall in Hs1, Hs2. apply (Hdisj (segment c1)); [apply Hs1, Hc1|].
  rewrite Hseg. apply Hs2, Hc2.
- apply Forall_app. split.
  + eapply Forall_impl; [exact Hs1|]. intros c Hc. apply elem_of_app. left. exact Hc.
  + eapply Forall_impl; [exact Hs2|]. intros c Hc. apply elem_of_app. right. exact Hc.
Qed.

Ltac disjoint_segments :=
  let s := fresh "s" in let H1 := fresh "H" in let H2 := fresh "H" in
  intros s H1 H2;
  repeat (apply elem_of_cons in H1; destruct H1 as [->|H1]);
  try (apply elem_of_nil in H1; contradiction);
  repeat (apply elem_of_cons in H2; destruct H2 as [H2|H2]; [discriminate H2|]);
  apply elem_of_nil in H2; contradiction.

(** X11. No key [segment:code] occurs twice among the posecodes of a
    pose, so the key sets of [describePoseDifference] have one member
    for each posecode; and a pose has at most 19 posecodes. *)
Theorem extractPosecodes_keys (landmarks : option (list Landmark)) (codes : list Posecode) :
  extractPosecodes landmarks = Some codes ->
  NoDup (key <$> codes) /\ (length codes <= 19)%nat.
Proof.
unfold extractPosecodes. destruct landmarks as [lm|]; [|discriminate].
destruct (length lm <? 33)%nat; [discriminate|]. intros [= <-].
destruct (armCodes_block lm left) as (A1 & A2 & A3).
destruct (armCodes_block lm right) as (B1 & B2 & B3).
destruct (legCodes_block lm left) as (C1 & C2 & C3).
destruct (legCodes_block lm right) as (D1 & D2 & D3).
destruct (torsoCodes_block lm) as (E1 & E2 & E3).
destruct (headCodes_block lm) as (F1 & F2 & F3).
split; [|rewrite !length_app; lia].
pose proof (block_keys _ _ A1 A2) as KA. pose proof (block_keys _ _ B1 B2) as KB.
pose proof (block_keys _ _ C1 C2) as KC. pose proof (block_keys _ _ D1 D2) as KD.
pose proof (block_keys _ _ E1 E2) as KE. pose proof (block_keys _ _ F1 F2) as KF.
pose proof (keys_app [torso] [head] _ _ ltac:(disjoint_segments) KE KF) as K5.
pose proof (keys_app [rightLeg] [torso; head] _ _ ltac:(disjoint_segments) KD K5) as K4.
pose proof (keys_app [leftLeg] [rightLeg; torso; head] _ _ ltac:(disjoint_segments) KC K4)
  as K3.
pose proof (keys_app [rightArm] [leftLeg; rightLeg; torso; head] _ _
              ltac:(disjoint_segments) KB K3) as K2.
pose proof (keys_app [leftArm] [rightArm; leftLeg; rightLeg; torso; head] _ _
              ltac:(disjoint_segments) KA K2) as K1.
apply K1.
Qed.

(** *** Differences between two poses *)

Lemma has_false (keys : list string) (k : string) : negb (has keys k) = true <-> k ∉ keys.
Proof.
unfold has. rewrite negb_true_iff, bool_decide_eq_false. reflexivity.
Qed.

Lemma filter_nil_iff {A : Type} (p : A -> bool) (l : list A) :
  List.filter p l = [] <-> forall a, a ∈ l -> p a = false.
Proof.
induction l as [|a l IH]; cbn [List.filter].
- split; [intros _ a H; inversion H|reflexivity].
- destruct (p a) eqn:E.
  + split; [discriminate|]. intros H. specialize (H a ltac:(left)). congruence.
  + rewrite IH. split.
    * intros H b [->|Hb]%elem_of_cons; [exact E|apply H, Hb].
    * intros H b Hb. apply H. right. exact Hb.
Qed.

Lemma describePoseDifference_Some (refL userL : option (list Landmark)) (diff : Difference) :
  describePoseDifference refL userL = Some diff ->
  extractPosecodes refL = Some (refPosecodes diff) /\
  extractPosecodes userL = Some (userPosecodes diff) /\
  descriptions diff
  = ((fun rc => mkDescription (segment rc)
                  ("Reference shows: " +:+ desc rc +:+ " — try to match this") missing)
     <$> List.filter (fun rc => negb (has (key <$> userPosecodes diff) (key rc)))
           (refPosecodes diff)) ++
    ((fun uc => mkDescription (segment uc)
                  ("Your pose: " +:+ desc uc
                   +:+ " — but the reference doesn't do this here") extra)
     <$> List.filter (fun uc => negb (has (key <$> refPosecodes diff) (key uc)))
           (userPosecodes diff)).
Proof.
unfold describePoseDifference.
destruct (extractPosecodes refL) as [refCodes|]; [|discriminate].
destruct (extractPosecodes userL) as [userCodes|]; [|discriminate].
intros [= <-]. cbn [refPosecodes userPosecodes descriptions]. auto.
Qed.

Lemma descriptions_text (refL userL : option (list Landmark)) (diff : Difference) :
  describePoseDifference refL userL = Some diff ->
  Forall (fun d => d_text d <> ""%string) (descriptions diff).
Proof.
intros H. destruct (describePoseDifference_Some _ _ _ H) as (_ & _ & Hd).
rewrite Hd. apply Forall_app. split; apply Forall_fmap, Forall_forall; intros c _;
  cbn [compose d_text]; intros E; vm_compute in E; discriminate E.
Qed.

(** X12. [describePoseDifference] lists nothing exactly when the two
    poses have the same posecode keys.  Whatever it lists has a text,
    the things the user misses come before the things only the user
    does, and swapping the two poses gives as many descriptions, for
    the same segments. *)
Theorem describePoseDifference_spec (refL userL : option (list Landmark)) (diff : Difference) :
  describePoseDifference refL userL = Some diff ->
  (descriptions diff = [] <->
   forall k, k ∈ key <$> refPosecodes diff <-> k ∈ key <$> userPosecodes diff) /\
  Forall (fun d => d_text d <> ""%string) (descriptions diff) /\
  (exists n, Forall (fun d => d_type d = missing) (take n (descriptions diff)) /\
             Forall (fun d => d_type d = extra) (drop n (descriptions diff))) /\
  exists back, describePoseDifference userL refL = Some back /\
    d_segment <$> descriptions back ≡ₚ d_segment <$> descriptions diff.
Proof.
intros H. destruct (describePoseDifference_Some _ _ _ H) as (Hr & Hu & Hd).
split; [|split; [|split]].
- rewrite Hd. split.
  + intros [H1 H2]%app_eq_nil. apply fmap_nil_inv in H1, H2.
    rewrite filter_nil_iff in H1, H2.
    intros k. split; intros (c & -> & Hc)%list_elem_of_fmap.
    * specialize (H1 c Hc). apply negb_false_iff, bool_decide_eq_true in H1. exact H1.
    * specialize (H2 c Hc). apply negb_false_iff, bool_decide_eq_true in H2. exact H2.
  + intros Hk.
    assert (H1 : List.filter (fun rc => negb (has (key <$> userPosecodes diff) (key rc)))
                   (refPosecodes diff) = []).
    { apply filter_nil_iff. intros c Hc. apply negb_false_iff, bool_decide_eq_true.
      apply Hk, list_elem_of_fmap_2, Hc. }
    assert (H2 : List.filter (fun uc => negb (has (key <$> refPosecodes diff) (key uc)))
                   (userPosecodes diff) = []).
    { apply filter_nil_iff. intros c Hc. apply negb_false_iff, bool_decide_eq_true.
      apply Hk, list_elem_of_fmap_2, Hc. }
    rewrite H1, H2. reflexivity.
- eapply descriptions_text, H.
- rewrite Hd. eexists (length _). rewrite take_app_length, drop_app_length.
  split; apply Forall_fmap, Forall_forall; intros c _; reflexivity.
- unfold describePoseDifference. rewrite Hu, Hr. eexists. split; [reflexivity|].
  cbn [descriptions]. rewrite Hd, !fmap_app, <- !list_fmap_compose.
  rewrite Permutation_app_comm. reflexivity.
Qed.

(** *** The coaching texts *)

Lemma firstText_Some (ds : list Description) :
  Forall (fun d => d_text d <> ""%string) ds ->
  firstText ds = d_text <$> list.head ds.
Proof.
destruct 1 as [|d ds Hd _]; [reflexivity|]. cbn [firstText hd_error fmap option_fmap option_map].
destruct (d_text d); [contradiction|reflexivity].
Qed.

Lemma find_segment (w : Segment) (ds : list Description) :
  match List.find (fun d => bool_decide (d_segment d = w)) ds with
  | Some d => d ∈ ds /\ d_segment d = w
  | None => forall d, d ∈ ds -> d_segment d <> w
  end.
Proof.
induction ds as [|d ds IH]; cbn [List.find]; [intros d H; inversion H|].
destruct (bool_decide (d_segment d = w)) eqn:E.
- apply bool_decide_eq_true in E. split; [left|exact E].
- apply bool_decide_eq_false in E. destruct (List.find _ ds) as [d'|].
  + destruct IH. split; [right|]; assumption.
  + intros d' [->|Hd']%elem_of_cons; [exact E|apply IH, Hd'].
Qed.

(** X13. The on-screen label and the voice cue are both absent exactly
    when one of the poses gives no posecodes or the poses show no
    difference.  A label is the text of one of the descriptions; when
    the worst segment scores below 70 and has a description, the label
    is about that segment.  A voice cue is the description of a
    reference posecode of the worst segment if there is one, and the
    text of the first description otherwise. *)
Theorem coaching_spec (refL userL : option (list Landmark))
  (segmentScores : option (list (Segment * option R))) :
  let label := getRealtimeCoachingLabel refL userL segmentScores in
  let cue := getVoiceCoachingCue refL userL segmentScores in
  let different :=
    exists diff, describePoseDifference refL userL = Some diff /\ descriptions diff <> [] in
  (is_Some label <-> different) /\ (is_Some cue <-> different) /\
  forall diff, describePoseDifference refL userL = Some diff ->
    (forall t, label = Some t ->
       exists d, d ∈ descriptions diff /\ d_text d = t /\
         forall w, (worstOf segmentScores).1 = Some w -> (worstOf segmentScores).2 < 70 ->
           (exists d', d' ∈ descriptions diff /\ d_segment d' = w) -> d_segment d = w) /\
    (forall t, cue = Some t ->
       (exists c, c ∈ refPosecodes diff /\ desc c = t /\
                  (worstOf segmentScores).1 = Some (segment c)) \/
       ((forall w c, (worstOf segmentScores).1 = Some w -> c ∈ refPosecodes diff ->
           segment c <> w) /\
        d_text <$> list.head (descriptions diff) = Some t)).
Proof.
cbv zeta. unfold getRealtimeCoachingLabel, getVoiceCoachingCue.
destruct (describePoseDifference refL userL) as [diff|] eqn:Hdiff.
2:{ split; [|split].
    - split; [intros [? [=]]|intros (? & [=] & _)].
    - split; [intros [? [=]]|intros (? & [=] & _)].
    - intros ? [=]. }
pose proof (descriptions_text _ _ _ Hdiff) as Htext.
pose proof (firstText_Some _ Htext) as Hfirst.
destruct (descriptions diff) as [|d0 ds] eqn:Hds.
{ cbn [length Nat.eqb]. split; [|split].
  - split; [intros [? [=]]|intros (? & [= <-] & Hne)]. rewrite Hds in Hne. contradiction.
  - split; [intros [? [=]]|intros (? & [= <-] & Hne)]. rewrite Hds in Hne. contradiction.
  - intros ? [= <-]. split; intros t [=]. }
cbn [length Nat.eqb]. rewrite Hfirst. cbn [hd_error fmap option_fmap option_map].
assert (Hdifferent : exists diff0, Some diff = Some diff0 /\ descriptions diff0 <> []).
{ exists diff. split; [reflexivity|]. rewrite Hds. discriminate. }
pose proof (find_segment) as Hfind.
split; [|split].
- split; [intros _; exact Hdifferent|intros _].
  destruct (worstOf segmentScores).1 as [w|]; [|eexists; reflexivity].
  destruct (ltb _ 70); [|eexists; reflexivity].
  destruct (List.find _ _); eexists; reflexivity.
- split; [intros _; exact Hdifferent|intros _].
  destruct (worstOf segmentScores).1 as [w|]; [|eexists; reflexivity].
  destruct (List.filter _ _); eexists; reflexivity.
- intros ? [= <-]. rewrite Hds. split.
  + intros t. destruct (worstOf segmentScores).1 as [w|] eqn:Hw.
    2:{ intros [= <-]. exists d0. split; [left|]. split; [reflexivity|]. intros w [=]. }
    destruct (ltb _ 70) eqn:Hlt.
    2:{ intros [= <-]. exists d0. split; [left|]. split; [reflexivity|].
        intros w' _ Hlt'. apply ltb_false in Hlt. lra. }
    specialize (Hfind w (d0 :: ds)).
    destruct (List.find _ (d0 :: ds)) as [d|].
    * intros [= <-]. destruct Hfind as [Hin Hseg]. exists d. split; [exact Hin|].
      split; [reflexivity|]. intros w' [= <-] _ _. exact Hseg.
    * intros [= <-]. exists d0. split; [left|]. split; [reflexivity|].
      intros w' [= <-] _ (d' & Hd' & Hseg). exfalso. exact (Hfind d' Hd' Hseg).
  + intros t. destruct (worstOf segmentScores).1 as [w|] eqn:Hw.
    2:{ intros [= <-]. right. split; [intros w c [=]|reflexivity]. }
    destruct (List.filter _ (refPosecodes diff)) as [|c cs] eqn:Hf.
    * intros [= <-]. right. split; [|reflexivity]. intros w' c [= <-] Hc Hseg.
      assert (Hin : c ∈ List.filter (fun c => bool_decide (segment c = w)) (refPosecodes diff)).
      { apply list_elem_of_In, filter_In. split; [apply list_elem_of_In, Hc|].
        apply bool_decide_eq_true, Hseg. }
      rewrite Hf in Hin. inversion Hin.
    * intros [= <-]. left. exists c.
      assert (Hin : c ∈ List.filter (fun c => bool_decide (segment c = w)) (refPosecodes diff))
        by (rewrite Hf; left).
      apply list_elem_of_In, filter_In in Hin as [Hin Hseg].
      apply bool_decide_eq_true in Hseg. split; [apply list_elem_of_In, Hin|].
      split; [reflexivity|]. rewrite Hseg. reflexivity.
Qed.

(** *** The summary for the language model *)

Import FeedbackEngine(join).

Lemma join_nonempty (sep s : string) (rest : list string) :
  s <> ""%string -> join sep (s :: rest) <> ""%string.
Proof.
intros Hs. destruct rest as [|s' rest]; cbn [join]; [exact Hs|].
destruct s as [|a s]; [contradiction|]. discriminate.
Qed.

(** X14. The summary is the empty string exactly when a pose gives no
    posecodes at all or neither pose has a posecode. *)
Theorem serializePosecodesForLLM_empty (refL userL : option (list Landmark)) :
  serializePosecodesForLLM refL userL = ""%string <->
  match describePoseDifference refL userL with
  | None => True
  | Some diff => refPosecodes diff = [] /\ userPosecodes diff = []
  end.
Proof.
unfold serializePosecodesForLLM.
destruct (describePoseDifference refL userL) as [diff|] eqn:Hdiff; [|tauto].
destruct (describePoseDifference_Some _ _ _ Hdiff) as (_ & _ & Hd).
destruct (refPosecodes diff) as [|rc rcs] eqn:Hr.
- destruct (userPosecodes diff) as [|uc ucs] eqn:Hu.
  + rewrite Hd. cbn. tauto.
  + cbn [length Nat.ltb Nat.leb app]. split; [|intros [_ [=]]].
    intros H. exfalso. revert H. apply join_nonempty. discriminate.
- cbn [length Nat.ltb Nat.leb app]. split; [|intros [[=] _]].
  intros H. exfalso. revert H. apply join_nonempty. discriminate.
Qed.

(** The two theorems on the standing figure whose nose is hidden. *)
Lemma extractPosecodes_keys_witness :
  exists codes, extractPosecodes (Some Poses.nose_hidden) = Some codes /\
    NoDup (key <$> codes) /\ (length codes <= 19)%nat.
Proof.
destruct nose_hidden_overhead as (codes & Hcodes & _).
exists codes. split; [exact Hcodes|].
apply (extractPosecodes_keys (Some Poses.nose_hidden) codes). exact Hcodes.
Defined.

Lemma describePoseDifference_spec_witness :
  exists diff, describePoseDifference (Some Poses.nose_hidden) (Some Poses.nose_hidden) = Some diff /\
    descriptions diff = [].
Proof.
destruct nose_hidden_overhead as (codes & Hcodes & _).
assert (H : describePoseDifference (Some Poses.nose_hidden) (Some Poses.nose_hidden)
            = Some (mkDifference
                 (((fun rc => mkDescription (segment rc)
                      ("Reference shows: " +:+ desc rc +:+ " — try to match this") missing)
                   <$> List.filter (fun rc => negb (has (key <$> codes) (key rc))) codes) ++
                  ((fun uc => mkDescription (segment uc)
                      ("Your pose: " +:+ desc uc
                       +:+ " — but the reference doesn't do this here") extra)
                   <$> List.filter (fun uc => negb (has (key <$> codes) (key uc))) codes))
                 codes codes)).
{ unfold describePoseDifference. rewrite Hcodes. reflexivity. }
eexists. split; [exact H|].
apply (describePoseDifference_spec _ _ _ H). cbn [refPosecodes userPosecodes]. tauto.
Defined.

End PosecodeFacts.

(** ** More facts about findWorstMoments.js *)

Module WindowFacts.
Import JSQ JSQFacts FindWorstMoments FindWorstMomentsFacts.
Local Open Scope nat_scope.

(** *** Which windows are reported *)

Section Windows.
Context {Pose : Type}.
Abbreviation Sample := (SessionSample Pose).
Abbreviation Moment := (Moment Pose).
Abbreviation Window := (Window Pose).

Lemma filter_valid_idem (sessionData : list Sample) :
  List.filter valid (List.filter valid sessionData) = List.filter valid sessionData.
Proof.
induction sessionData as [|d l IH]; [reflexivity|]. cbn [List.filter].
destruct (valid d) eqn:E; [|exact IH]. cbn [List.filter]. rewrite E, IH. reflexivity.
Qed.

Lemma filter_length_le {A : Type} (p : A -> bool) (l : list A) :
  length (List.filter p l) <= length l.
Proof.
induction l as [|a l IH]; [reflexivity|]. cbn [List.filter].
destruct (p a); cbn [length]; lia.
Qed.

(** Samples without a video time or without one of the poses play no
    part: the result is that of the valid samples alone. *)
Lemma findWorstMoments_filter (sessionData : list Sample) (count : nat) (windowSec : Q) :
  findWorstMoments sessionData count windowSec
  = findWorstMoments (List.filter valid sessionData) count windowSec.
Proof.
unfold findWorstMoments. rewrite filter_valid_idem.
pose proof (filter_length_le valid sessionData) as Hle.
destruct (Nat.ltb_spec (length sessionData) 5) as [Hlt|Hge].
- destruct (Nat.ltb_spec (length (List.filter valid sessionData)) 5) as [|]; [reflexivity|lia].
- destruct (length (List.filter valid sessionData) <? 5); reflexivity.
Qed.

(** The moment pushed for a candidate window. *)
Lemma pickStep_cases (count n w g : nat) (acc : list Moment * gset nat) (c : Window) :
  (pickStep count n w g acc c).1 = acc.1 \/
  (pickStep count n w g acc c).1
  = acc.1 ++ [ mkMoment Pose (w_startVideoTime _ c) (w_endVideoTime _ c)
                 (inject_Z (Math_round (avg c * 10)) / 10)%Q (w_samples _ c)
                 (index c + w / 2) ].
Proof.
unfold pickStep. destruct (count <=? length acc.1); [left; reflexivity|].
destruct (overlaps acc.2 (index c) w); [left; reflexivity|]. right. reflexivity.
Qed.

Lemma windowAt_reports (validData : list Sample) (w i : nat) :
  i + w <= length validData ->
  let c := windowAt _ validData w i in
  reports validData w i
    (mkMoment Pose (w_startVideoTime _ c) (w_endVideoTime _ c)
       (inject_Z (Math_round (avg c * 10)) / 10)%Q (w_samples _ c) (index c + w / 2)).
Proof.
intros Hi. cbv zeta. unfold reports, windowAt.
cbn [samples centerIndex startVideoTime endVideoTime avgScore
     w_startVideoTime w_endVideoTime avg w_samples index].
rewrite length_take, length_drop. replace (w `min` (length validData - i)) with w by lia.
repeat split; try reflexivity. exact Hi.
Qed.

Lemma foldl_pickStep_reports (validData : list Sample) (count w g : nat)
  (cs : list Window) (acc : list Moment * gset nat) :
  Forall (fun c => exists i, i + w <= length validData /\ c = windowAt _ validData w i) cs ->
  Forall (fun m => exists i, reports validData w i m) acc.1 ->
  Forall (fun m => exists i, reports validData w i m)
    (foldl (pickStep count (length validData) w g) acc cs).1.
Proof.
intros Hcs. revert acc. induction Hcs as [|c cs (i & Hi & ->) _ IH]; intros acc Hacc; [exact Hacc|].
cbn [foldl]. apply IH.
destruct (pickStep_cases count (length validData) w g acc (windowAt _ validData w i)) as [->| ->];
  [exact Hacc|].
apply Forall_app. split; [exact Hacc|]. apply Forall_singleton. exists i.
apply windowAt_reports, Hi.
Qed.

Lemma rollingAvgs_windows (validData : list Sample) (w : nat) :
  Forall (fun c => exists i, i + w <= length validData /\ c = windowAt _ validData w i)
    (rollingAvgs validData w).
Proof.
unfold rollingAvgs. apply Forall_fmap, Forall_forall. intros i Hi.
apply elem_of_seq in Hi. exists i. split; [lia|reflexivity].
Qed.

Lemma Math_round_near (q : Q) :
  (q - (1 # 2) < inject_Z (Math_round q) <= q + (1 # 2))%Q.
Proof.
unfold Math_round. pose proof (Qfloor_le (q + (1 # 2))) as H1.
pose proof (Qlt_floor (q + (1 # 2))) as H2.
rewrite inject_Z_plus in H2. change (inject_Z 1) with 1%Q in H2. split; lra.
Qed.


(** Nothing picked later removes what was picked. *)
Lemma foldl_pickStep_prefix (count n w g : nat) (cs : list Window)
  (acc : list Moment * gset nat) :
  acc.1 `prefix_of` (foldl (pickStep count n w g) acc cs).1.
Proof.
revert acc. induction cs as [|c cs IH]; intros acc; [reflexivity|]. cbn [foldl].
etransitivity; [|apply IH].
destruct (pickStep_cases count n w g acc c) as [->| ->]; [reflexivity|].
apply prefix_app_r. reflexivity.
Qed.

(** X16. When a moment is asked for and the valid samples hold at least
    one window, the result contains a moment of lowest mean: no window
    of the valid samples has a lower mean score than its samples. *)
Theorem findWorstMoments_worst (sessionData : list Sample) (count : nat) (windowSec : Q)
  (w : nat) :
  let validData := List.filter valid sessionData in
  1 <= count -> 5 <= length validData ->
  windowSamples validData windowSec = Some w -> w <= length validData ->
  exists m, m ∈ findWorstMoments sessionData count windowSec /\
    forall i, i + w <= length validData ->
      (sum overall (samples m) / inject_Z (Z.of_nat (length (samples m)))
       <= sum overall (take w (drop i validData)) / inject_Z (Z.of_nat w))%Q.
Proof.
cbv zeta. intros Hcount Hn Hw Hfit.
rewrite findWorstMoments_filter. unfold findWorstMoments. rewrite filter_valid_idem.
set (validData := List.filter valid sessionData) in *.
destruct (Nat.ltb_spec (length validData) 5) as [|_]; [lia|].
rewrite Hw.
assert (Hlen : length (rollingAvgs validData w) = length validData + 1 - w).
{ unfold rollingAvgs. rewrite length_fmap, length_seq. reflexivity. }
destruct (Nat.eqb_spec (length (rollingAvgs validData w)) 0) as [|_]; [lia|].
pose proof (sort_sorted (A := Window) (avg (Pose := Pose)) (rollingAvgs validData w)) as Hsorted.
pose proof (sort_Permutation (fun a b : Window => (avg a - avg b)%Q) (rollingAvgs validData w))
  as Hperm.
destruct (sort (fun a b : Window => (avg a - avg b)%Q) (rollingAvgs validData w))
  as [|c0 rest] eqn:Hs.
{ apply Permutation_length in Hperm. cbn in Hperm. lia. }
assert (Hc0 : exists i0, i0 + w <= length validData /\ c0 = windowAt _ validData w i0).
{ pose proof (rollingAvgs_windows validData w) as Hall. rewrite <- Hperm in Hall.
  apply Forall_cons in Hall. apply Hall. }
destruct Hc0 as (i0 & Hi0 & Hc0).
cbn [foldl]. unfold pickStep at 2. cbn [fst snd length].
destruct (Nat.leb_spec count 0) as [|_]; [lia|].
assert (Hov : overlaps (∅ : gset nat) (index c0) w = false).
{ apply overlaps_false. intros k _. apply not_elem_of_empty. }
rewrite Hov. cbn [app].
match goal with |- context [foldl _ (?a, ?u) rest] =>
  pose proof (foldl_pickStep_prefix count (length validData) w (guardZone w) rest (a, u)) as Hpre
end.
cbn [fst] in Hpre. destruct Hpre as (more & Hpre).
eexists. split.
- rewrite sort_Permutation, Hpre. left.
- cbn [samples]. intros i Hi. rewrite Hc0. cbn [w_samples windowAt].
  assert (Hin : windowAt _ validData w i ∈ c0 :: rest).
  { rewrite Hperm. unfold rollingAvgs. apply list_elem_of_fmap. exists i.
    split; [reflexivity|]. apply elem_of_seq. lia. }
  apply elem_of_cons in Hin as [Heq|Hin].
  + assert (Hii : i = i0).
    { rewrite Hc0 in Heq. apply (f_equal index) in Heq. exact Heq. }
    subst i0. rewrite length_take, length_drop.
    replace (w `min` (length validData - i)) with w by lia. apply Qle_refl.
  + apply StronglySorted_inv in Hsorted as [_ Hall]. rewrite Forall_forall in Hall.
    specialize (Hall _ Hin). rewrite Hc0 in Hall. cbn [avg windowAt] in Hall.
    rewrite !length_take, !length_drop in Hall.
    replace (w `min` (length validData - i)) with w in Hall by lia.
    rewrite length_take, length_drop. exact Hall.
Qed.

End Windows.


Lemma findWorstMoments_worst_witness :
  exists m, m ∈ findWorstMoments scenario 3 3 /\
    forall i, i + 3 <= length (List.filter valid scenario) ->
      (sum overall (samples m) / inject_Z (Z.of_nat (length (samples m)))
       <= sum overall (take 3 (drop i (List.filter valid scenario))) / inject_Z (Z.of_nat 3))%Q.
Proof.
apply (findWorstMoments_worst scenario 3 3 3).
- lia.
- vm_compute. lia.
- vm_compute. reflexivity.
- vm_compute. lia.
Defined.

End WindowFacts.

(** ** More facts about feedbackEngine.js *)

Module SessionFacts.
Import JSQ JSQFacts FeedbackEngine FeedbackEngineFacts.
Import PoseSimilarity(Segment, BODY_SEGMENTS, label, segment_keys).
Local Open Scope nat_scope.

(** *** Struggle runs *)

Lemma Qltb_true (a b : Q) : Qltb a b = true <-> (a < b)%Q.
Proof.
unfold Qltb. rewrite negb_true_iff. split.
- intros H. destruct (Qlt_le_dec a b) as [Hlt|Hle]; [exact Hlt|].
  apply Qle_bool_iff in Hle. congruence.
- intros H. destruct (Qle_bool b a) eqn:E; [|reflexivity].
  apply Qle_bool_iff in E. lra.
Qed.

Lemma Qltb_false (a b : Q) : Qltb a b = false <-> (b <= a)%Q.
Proof.
unfold Qltb. rewrite negb_false_iff. apply Qle_bool_iff.
Qed.

Section Runs.
Variable threshold : Q.
Variable minLength : nat.

Lemma below_snoc (pre : list Q) (v : Q) (i : nat) :
  below threshold (pre ++ [v]) i <->
  (i < length pre /\ below threshold pre i) \/ (i = length pre /\ (v < threshold)%Q).
Proof.
unfold below. destruct (lt_eq_lt_dec i (length pre)) as [[Hlt|Heq]|Hgt]; [|subst i|].
- rewrite lookup_app_l by exact Hlt. split; [tauto|]. intros [[_ H]|[-> _]]; [exact H|lia].
- rewrite list_lookup_middle by reflexivity. split.
  + intros (w & [= <-] & Hw). tauto.
  + intros [[H _]|[_ H]]; [lia|eauto].
- rewrite lookup_ge_None_2 by (rewrite length_app; cbn; lia). split.
  + intros (w & H & _). discriminate.
  + intros [[H _]|[H _]]; lia.
Qed.

Lemma notBelow_snoc (pre : list Q) (v : Q) (i : nat) :
  notBelow threshold (pre ++ [v]) i <->
  (i < length pre /\ notBelow threshold pre i) \/ (i = length pre /\ (threshold <= v)%Q).
Proof.
unfold notBelow. destruct (lt_eq_lt_dec i (length pre)) as [[Hlt|Heq]|Hgt]; [|subst i|].
- rewrite lookup_app_l by exact Hlt. split; [tauto|]. intros [[_ H]|[-> _]]; [exact H|lia].
- rewrite list_lookup_middle by reflexivity. split.
  + intros (w & [= <-] & Hw). tauto.
  + intros [[H _]|[_ H]]; [lia|eauto].
- rewrite lookup_ge_None_2 by (rewrite length_app; cbn; lia). split.
  + intros (w & H & _). discriminate.
  + intros [[H _]|[H _]]; lia.
Qed.

Lemma below_lt (l : list Q) (i : nat) : below threshold l i -> i < length l.
Proof. intros (v & H & _). eapply lookup_lt_Some, H. Qed.

Lemma notBelow_lt (l : list Q) (i : nat) : notBelow threshold l i -> i < length l.
Proof. intros (v & H & _). eapply lookup_lt_Some, H. Qed.

Lemma below_notBelow (l : list Q) (i : nat) :
  below threshold l i -> notBelow threshold l i -> False.
Proof. intros (v & Hv & H1) (w & Hw & H2). assert (v = w) by congruence. subst. lra. Qed.

Lemma runStart_snoc (pre : list Q) (v : Q) (a : nat) :
  a <= length pre ->
  runStart threshold (pre ++ [v]) a <-> runStart threshold pre a.
Proof.
intros Ha. unfold runStart. rewrite notBelow_snoc. split.
- intros [H|[[_ H]|[H _]]]; [tauto|tauto|].
  destruct a; [tauto|lia].
- intros [H|H]; [tauto|]. right. left. split; [|exact H].
  apply notBelow_lt in H. exact H.
Qed.

(** A closed run in [pre ++ [v]] either was closed in [pre] or ends at
    the last score of [pre] with [v] not below. *)
Lemma closed_snoc (pre : list Q) (v : Q) (a b : nat) :
  ((a <= b) /\ (forall i, a <= i <= b -> below threshold (pre ++ [v]) i) /\
   runStart threshold (pre ++ [v]) a /\ notBelow threshold (pre ++ [v]) (b + 1) /\
   minLength <= b + 1 - a) <->
  ((a <= b) /\ (forall i, a <= i <= b -> below threshold pre i) /\
   runStart threshold pre a /\ minLength <= b + 1 - a /\
   (notBelow threshold pre (b + 1) \/ (b + 1 = length pre /\ (threshold <= v)%Q))).
Proof.
split.
- intros (Hab & Hrun & Hstart & Hend & Hmin).
  apply notBelow_snoc in Hend.
  assert (Hb : b < length pre) by (destruct Hend as [[H _]|[H _]]; lia).
  split; [exact Hab|]. split.
  { intros i Hi. specialize (Hrun i Hi). apply below_snoc in Hrun as [[_ H]|[H _]]; [exact H|lia]. }
  split; [apply runStart_snoc in Hstart; [exact Hstart|lia]|].
  split; [exact Hmin|]. tauto.
- intros (Hab & Hrun & Hstart & Hmin & Hend).
  assert (Hb : b < length pre) by (apply below_lt, Hrun; lia).
  split; [exact Hab|]. split.
  { intros i Hi. apply below_snoc. left. split; [lia|apply Hrun, Hi]. }
  split; [apply runStart_snoc; [lia|exact Hstart]|].
  split; [|exact Hmin]. apply notBelow_snoc.
  destruct Hend as [H|H]; [left; split; [eapply notBelow_lt, H|exact H]|right; exact H].
Qed.

(** Two runs that end at the same index start at the same index. *)
Lemma runStart_unique (l : list Q) (a s e : nat) :
  a <= e -> s <= e ->
  (forall i, a <= i <= e -> below threshold l i) ->
  (forall i, s <= i <= e -> below threshold l i) ->
  runStart threshold l a -> runStart threshold l s -> a = s.
Proof.
intros Ha Hs Hra Hrs Hsa Hss.
destruct (lt_eq_lt_dec a s) as [[Hlt|Heq]|Hgt]; [|exact Heq|]; exfalso.
- destruct Hss as [->|Hnb]; [lia|].
  apply (below_notBelow l (s - 1)); [apply Hra; lia|exact Hnb].
- destruct Hsa as [->|Hnb]; [lia|].
  apply (below_notBelow l (a - 1)); [apply Hrs; lia|exact Hnb].
Qed.

Lemma strugglesStep_ok (pre : list Q) (v : Q) (acc : list Struggle * option nat) :
  struggles_ok threshold minLength pre acc ->
  struggles_ok threshold minLength (pre ++ [v])
    (strugglesStep threshold minLength acc (length pre, v)).
Proof.
destruct acc as [str start]. unfold struggles_ok. cbn [fst snd].
intros (Hopen & Hstr & Hsorted).
assert (Hlen : length (pre ++ [v]) = S (length pre)) by (rewrite length_app; cbn; lia).
unfold strugglesStep. cbn [fst snd].
destruct (Qltb v threshold) eqn:Hv.
- (* the score is below the threshold *)
  apply Qltb_true in Hv.
  assert (Hstr' : forall a b, mkStruggle a b ∈ str <->
            a <= b /\ (forall i, a <= i <= b -> below threshold (pre ++ [v]) i) /\
            runStart threshold (pre ++ [v]) a /\ notBelow threshold (pre ++ [v]) (b + 1) /\
            minLength <= b + 1 - a).
  { intros a b. rewrite closed_snoc, Hstr. split.
    - intros (H1 & H2 & H3 & H4 & H5). tauto.
    - intros (H1 & H2 & H3 & H4 & [H5|[_ H5]]); [tauto|lra]. }
  destruct start as [s|]; cbn [fst snd].
  + destruct Hopen as (Hs & Hrun & Hstart).
    split; [|split; [exact Hstr'|exact Hsorted]].
    rewrite Hlen. split; [lia|]. split.
    * intros i Hi. apply below_snoc.
      destruct (Nat.eq_dec i (length pre)) as [->|Hne]; [right; auto|].
      left. split; [lia|]. apply Hrun. lia.
    * apply runStart_snoc; [lia|exact Hstart].
  + split; [|split; [exact Hstr'|exact Hsorted]].
    rewrite Hlen. split; [lia|]. split.
    * intros i Hi. assert (i = length pre) by lia. subst i.
      apply below_snoc. right. auto.
    * apply runStart_snoc; [lia|].
      destruct Hopen as [->|Hnb]; [left; reflexivity|].
      destruct (length pre); [left; reflexivity|right; exact Hnb].
- (* the score is not below the threshold *)
  apply Qltb_false in Hv.
  assert (Hnone : pre ++ [v] = [] \/
                  notBelow threshold (pre ++ [v]) (length (pre ++ [v]) - 1)).
  { right. rewrite Hlen. replace (S (length pre) - 1) with (length pre) by lia.
    apply notBelow_snoc. right. auto. }
  destruct start as [s|]; cbn [fst snd].
  + destruct Hopen as (Hs & Hrun & Hstart).
    assert (Hbefore : forall a b, mkStruggle a b ∈ str -> b + 1 < s).
    { intros a b Hin. apply Hstr in Hin as (_ & _ & _ & Hnb & _).
      destruct (le_lt_dec s (b + 1)) as [Hle|Hlt]; [|exact Hlt].
      exfalso. apply (below_notBelow pre (b + 1)); [|exact Hnb].
      apply Hrun. split; [exact Hle|]. eapply notBelow_lt, Hnb. }
    destruct (Nat.leb_spec minLength (length pre - s)) as [Hmin|Hmin]; cbn [fst snd].
    * split; [exact Hnone|]. split.
      -- intros a b. rewrite elem_of_app, list_elem_of_singleton, closed_snoc, Hstr. split.
         ++ intros [(H1 & H2 & H3 & H4 & H5)|[= -> ->]]; [tauto|].
            split; [lia|]. split; [intros i Hi; apply Hrun; lia|].
            split; [exact Hstart|]. split; [lia|]. right. split; [lia|exact Hv].
         ++ intros (H1 & H2 & H3 & H4 & [H5|[H5 _]]); [left; tauto|right].
            assert (a = s); [|subst a; f_equal; lia].
            apply (runStart_unique pre a s b); try assumption; try lia.
            intros i Hi. apply Hrun. lia.
      -- apply StronglySorted_app_2; [|exact Hsorted|repeat constructor].
         intros [a b] r Hin Hr%list_elem_of_singleton. subst r. cbn [s_start s_end].
         apply (Hbefore a b Hin).
    * split; [exact Hnone|]. split; [|exact Hsorted].
      intros a b. rewrite closed_snoc, Hstr. split.
      -- intros (H1 & H2 & H3 & H4 & H5). tauto.
      -- intros (H1 & H2 & H3 & H4 & [H5|[H5 _]]); [tauto|].
         exfalso. assert (a = s); [|subst a; lia].
         apply (runStart_unique pre a s b); try assumption; try lia.
         intros i Hi. apply Hrun. lia.
  + split; [exact Hnone|]. split; [|exact Hsorted].
    intros a b. rewrite closed_snoc, Hstr. split.
    * intros (H1 & H2 & H3 & H4 & H5). tauto.
    * intros (H1 & H2 & H3 & H4 & [H5|[H5 _]]); [tauto|].
      exfalso. destruct Hopen as [->|Hnb]; [cbn in H5; lia|].
      apply (below_notBelow pre (length pre - 1)); [apply H2; lia|exact Hnb].
Qed.

Lemma foldl_strugglesStep_ok (scores : list Q) :
  struggles_ok threshold minLength scores
    (foldl (strugglesStep threshold minLength) ([], None) (imap pair scores)).
Proof.
induction scores as [|v pre IH] using rev_ind.
- cbn. split; [left; reflexivity|]. split; [|constructor].
  intros a b. split; [intros H%elem_of_nil; contradiction|].
  intros (_ & _ & _ & H & _). apply notBelow_lt in H. cbn in H. lia.
- rewrite imap_app, foldl_app. cbn [imap foldl]. rewrite Nat.add_0_r.
  apply strugglesStep_ok, IH.
Qed.

End Runs.

(** X17. [findStruggles] returns, in order of position, exactly the
    maximal runs of consecutive scores below [threshold] that are at
    least [minLength] long: a pair [start, end] is reported if and only
    if every score from [start] to [end] is below [threshold], the score
    before [start] (if any) and the score after [end] (if any) are not,
    and the run has [minLength] scores or more.  Reported runs do not
    touch one another. *)
Theorem findStruggles_spec (scores : list Q) (threshold : Q) (minLength : nat) :
  (forall a b, mkStruggle a b ∈ findStruggles scores threshold minLength <->
     a <= b /\ (forall i, a <= i <= b -> below threshold scores i) /\
     runStart threshold scores a /\
     (notBelow threshold scores (b + 1) \/ b + 1 = length scores) /\
     minLength <= b + 1 - a) /\
  StronglySorted (fun r1 r2 => s_end r1 + 1 < s_start r2)
    (findStruggles scores threshold minLength).
Proof.
unfold findStruggles.
pose proof (foldl_strugglesStep_ok threshold minLength scores) as Hok.
destruct (foldl _ _ _) as [str start]. unfold struggles_ok in Hok. cbn [fst snd] in *.
destruct Hok as (Hopen & Hstr & Hsorted).
assert (Hclosed : forall a b,
          a <= b /\ (forall i, a <= i <= b -> below threshold scores i) /\
          runStart threshold scores a /\ b + 1 = length scores /\ minLength <= b + 1 - a ->
          mkStruggle a b ∈ str -> False).
{ intros a b (_ & _ & _ & Hb & _) Hin. apply Hstr in Hin as (_ & _ & _ & Hnb & _).
  apply notBelow_lt in Hnb. lia. }
destruct start as [s|].
- destruct Hopen as (Hs & Hrun & Hstart).
  assert (Hbefore : forall a b, mkStruggle a b ∈ str -> b + 1 < s).
  { intros a b Hin. apply Hstr in Hin as (_ & _ & _ & Hnb & _).
    destruct (le_lt_dec s (b + 1)) as [Hle|Hlt]; [|exact Hlt].
    exfalso. apply (below_notBelow threshold scores (b + 1)); [|exact Hnb].
    apply Hrun. split; [exact Hle|]. eapply notBelow_lt, Hnb. }
  assert (Hlast : forall a b,
            a <= b -> (forall i, a <= i <= b -> below threshold scores i) ->
            runStart threshold scores a -> b + 1 = length scores -> a = s).
  { intros a b Hab Hr Hst Hb. apply (runStart_unique threshold scores a s b); try assumption; try lia.
    intros i Hi. apply Hrun. lia. }
  destruct (Nat.leb_spec minLength (length scores - s)) as [Hmin|Hmin].
  + split.
    * intros a b. rewrite elem_of_app, list_elem_of_singleton, Hstr. split.
      -- intros [(H1 & H2 & H3 & H4 & H5)|[= -> ->]]; [tauto|].
         split; [lia|]. split; [intros i Hi; apply Hrun; lia|].
         split; [exact Hstart|]. split; [right; lia|lia].
      -- intros (H1 & H2 & H3 & [H4|H4] & H5); [left; tauto|right].
         assert (a = s) by (eapply Hlast; eassumption). subst a. f_equal. lia.
    * apply StronglySorted_app_2; [|exact Hsorted|repeat constructor].
      intros [a b] r Hin Hr%list_elem_of_singleton. subst r. cbn [s_start s_end].
      apply (Hbefore a b Hin).
  + split; [|exact Hsorted]. intros a b. rewrite Hstr. split.
    * intros (H1 & H2 & H3 & H4 & H5). tauto.
    * intros (H1 & H2 & H3 & [H4|H4] & H5); [tauto|].
      exfalso. assert (a = s) by (eapply Hlast; eassumption). subst a. lia.
- split; [|exact Hsorted]. intros a b. rewrite Hstr. split.
  + intros (H1 & H2 & H3 & H4 & H5). tauto.
  + intros (H1 & H2 & H3 & [H4|H4] & H5); [tauto|].
    exfalso. destruct Hopen as [->|Hnb]; [cbn in H4; lia|].
    apply (below_notBelow threshold scores (length scores - 1)); [apply H2; lia|exact Hnb].
Qed.

(** *** Segment statistics *)

Lemma sum_range {A : Type} (f : A -> Q) (l : list A) (lo hi acc : Q) :
  (forall v, v ∈ l -> (lo <= f v <= hi)%Q) ->
  (acc + inject_Z (Z.of_nat (length l)) * lo <= foldl (fun s v => (s + f v)%Q) acc l
   <= acc + inject_Z (Z.of_nat (length l)) * hi)%Q.
Proof.
revert acc. induction l as [|v l IH]; intros acc Hl.
- cbn [foldl length]. change (inject_Z (Z.of_nat 0)) with 0%Q. lra.
- cbn [foldl length].
  assert (Hv : (lo <= f v <= hi)%Q) by (apply Hl; left).
  destruct (IH (acc + f v)%Q) as [H1 H2]; [intros w Hw; apply Hl; right; exact Hw|].
  rewrite Nat2Z.inj_succ. unfold Z.succ. rewrite inject_Z_plus.
  change (inject_Z 1) with 1%Q.
  set (n := inject_Z (Z.of_nat (length l))) in *.
  split.
  + apply Qle_trans with (acc + f v + n * lo)%Q; [|exact H1]. nra.
  + apply Qle_trans with (acc + f v + n * hi)%Q; [exact H2|]. nra.
Qed.

(** The mean of scores that are not empty lies between any bounds of
    the scores. *)
Lemma mean_range (scores : list Q) (lo hi : Q) :
  scores <> [] -> (forall v, v ∈ scores -> (lo <= v <= hi)%Q) ->
  (lo <= sum (fun v => v) scores / inject_Z (Z.of_nat (length scores)) <= hi)%Q.
Proof.
intros Hne Hl.
assert (Hn : (0 < inject_Z (Z.of_nat (length scores)))%Q).
{ rewrite <- (Zlt_Qlt 0). destruct scores; [contradiction|cbn; lia]. }
destruct (sum_range (fun v => v) scores lo hi 0 Hl) as [H1 H2]. fold (sum (fun v => v) scores) in *.
split.
- apply Qle_shift_div_l; [exact Hn|]. lra.
- apply Qle_shift_div_r; [exact Hn|]. lra.
Qed.

Lemma foldl_Qmin_le (l : list Q) (a : Q) :
  (foldl Qmin a l <= a)%Q /\ forall v, v ∈ l -> (foldl Qmin a l <= v)%Q.
Proof.
revert a. induction l as [|w l IH]; intros a; cbn [foldl].
- split; [lra|]. intros v H%elem_of_nil. contradiction.
- destruct (IH (Qmin a w)) as [H1 H2].
  pose proof (Q.le_min_l a w). pose proof (Q.le_min_r a w).
  split; [lra|]. intros v [->|Hv]%elem_of_cons; [lra|auto].
Qed.

Lemma foldl_Qmax_ge (l : list Q) (a : Q) :
  (a <= foldl Qmax a l)%Q /\ forall v, v ∈ l -> (v <= foldl Qmax a l)%Q.
Proof.
revert a. induction l as [|w l IH]; intros a; cbn [foldl].
- split; [lra|]. intros v H%elem_of_nil. contradiction.
- destruct (IH (Qmax a w)) as [H1 H2].
  pose proof (Q.le_max_l a w). pose proof (Q.le_max_r a w).
  split; [lra|]. intros v [->|Hv]%elem_of_cons; [lra|auto].
Qed.

Lemma Math_min_max (scores : list Q) (v : Q) :
  v ∈ scores -> (Math_min scores <= v <= Math_max scores)%Q.
Proof.
destruct scores as [|a l]; [intros H%elem_of_nil; contradiction|].
cbn [Math_min Math_max].
destruct (foldl_Qmin_le l a) as [H1 H2]. destruct (foldl_Qmax_ge l a) as [H3 H4].
intros [->|Hv]%elem_of_cons; [lra|]. split; auto.
Qed.

(** The statistics of the segments that have a score: the keys. *)
Lemma segmentStatsOf_elem (sessionData : list SessionSample) (key : Segment)
  (stats : SegmentStats) :
  (key, stats) ∈ segmentStatsOf sessionData <->
  omap (scoreAt key) sessionData <> [] /\
  stats = statsOf key (omap (scoreAt key) sessionData).
Proof.
unfold segmentStatsOf. rewrite list_elem_of_omap. split.
- intros (k & _ & Hk). destruct (omap (scoreAt k) sessionData) as [|v l] eqn:E; [discriminate|].
  cbn in Hk. injection Hk as <- <-. rewrite E. split; [discriminate|reflexivity].
- intros [Hne ->]. exists key. split; [destruct key; set_solver|].
  destruct (omap (scoreAt key) sessionData); [contradiction|reflexivity].
Qed.

(** X18. The statistics [analyzeSession] keeps for a segment, in a
    session whose samples have the six keys and whose scores are
    percentages: the segment has a score in the session; its minimum
    and its maximum are scores of the session; its average lies
    between the two up to rounding (the mean of equal scores can leave
    them by a rounding error, for which a millionth is allowed); its
    consistency is at most 100; and its trend is undefined exactly when
    it has a single score. *)
Theorem segmentStats_spec (sessionData : list SessionSample) (key : Segment)
  (stats : SegmentStats) :
  Forall complete sessionData ->
  Forall in_range sessionData ->
  (key, stats) ∈ segmentStatsOf sessionData ->
  let scores := omap (scoreAt key) sessionData in
  scores <> [] /\
  (st_min stats - tolerance <= st_avg stats <= st_max stats + tolerance)%Q /\
  (exists lo hi, lo ∈ scores /\ hi ∈ scores /\
     (st_min stats == lo)%Q /\ (st_max stats == hi)%Q) /\
  (consistency stats <= 100)%R /\
  (trend stats = None <-> length scores = 1).
Proof.
intros _ _ Hin scores. apply segmentStatsOf_elem in Hin as [Hne ->]. fold scores in Hne |- *.
split; [exact Hne|]. cbn [st_min st_avg st_max consistency trend statsOf].
split; [|split; [|split]].
- assert (Hmean : (Math_min scores
                   <= sum (fun v => v) scores / inject_Z (Z.of_nat (length scores))
                   <= Math_max scores)%Q).
  { apply mean_range; [exact Hne|]. intros v Hv. apply Math_min_max, Hv. }
  unfold tolerance. lra.
- destruct scores as [|a l]; [contradiction|]. clear Hne. cbn [Math_min Math_max].
  assert (Hmin : exists lo, lo ∈ a :: l /\ (foldl Qmin a l == lo)%Q).
  { assert (H : forall l b, exists lo, (lo = b \/ lo ∈ l) /\ (foldl Qmin b l == lo)%Q).
    { clear. induction l as [|w l IH]; intros b; cbn [foldl].
      - exists b. split; [left; reflexivity|reflexivity].
      - destruct (IH (Qmin b w)) as (lo & [->|Hlo] & Heq).
        + destruct (Q.min_spec b w) as [[_ Hm]|[_ Hm]].
          * exists b. split; [left; reflexivity|]. rewrite Heq. exact Hm.
          * exists w. split; [right; left|]. rewrite Heq. exact Hm.
        + exists lo. split; [right; right; exact Hlo|exact Heq]. }
    destruct (H l a) as (lo & [->|Hlo] & Heq); [exists a|exists lo]; split; auto; [left|right; auto]. }
  assert (Hmax : exists hi, hi ∈ a :: l /\ (foldl Qmax a l == hi)%Q).
  { assert (H : forall l b, exists hi, (hi = b \/ hi ∈ l) /\ (foldl Qmax b l == hi)%Q).
    { clear. induction l as [|w l IH]; intros b; cbn [foldl].
      - exists b. split; [left; reflexivity|reflexivity].
      - destruct (IH (Qmax b w)) as (hi & [->|Hhi] & Heq).
        + destruct (Q.max_spec b w) as [[_ Hm]|[_ Hm]].
          * exists w. split; [right; left|]. rewrite Heq. exact Hm.
          * exists b. split; [left; reflexivity|]. rewrite Heq. exact Hm.
        + exists hi. split; [right; right; exact Hhi|exact Heq]. }
    destruct (H l a) as (hi & [->|Hhi] & Heq); [exists a|exists hi]; split; auto; [left|right; auto]. }
  destruct Hmin as (lo & Hlo & Elo), Hmax as (hi & Hhi & Ehi). exists lo, hi. auto.
- unfold standardDeviation. pose proof (sqrt_pos (Q2R (variance scores))). lra.
- rewrite length_take.
  destruct (Nat.eqb_spec (Nat.min (length scores / 2) (length scores)) 0) as [E|E].
  + split; [intros _|reflexivity].
    destruct scores as [|a [|b l]]; [contradiction|reflexivity|].
    exfalso. cbn [length] in E.
    assert (1 <= S (S (length l)) / 2) by (apply Nat.div_le_lower_bound; lia). lia.
  + split; [discriminate|]. intros H1. rewrite H1 in E. cbn in E. lia.
Qed.

(** Checking that an explicit session is complete and in range. *)
Ltac session_check :=
  repeat (apply Forall_cons; split;
          [first [ reflexivity
                 | split; [split; vm_compute; discriminate|];
                   repeat (apply Forall_cons; split; [split; vm_compute; discriminate|]);
                   apply Forall_nil_2 ]|]);
  apply Forall_nil_2.

(** The theorem on a session with a dip. *)
Lemma segmentStats_spec_witness :
  exists stats, (PoseSimilarity.torso, stats)
                ∈ segmentStatsOf (session [90; 88; 91; 89; 90; 40; 38; 42; 90; 92]%Z) /\
    (st_min stats - tolerance <= st_avg stats <= st_max stats + tolerance)%Q.
Proof.
set (s10 := session [90; 88; 91; 89; 90; 40; 38; 42; 90; 92]%Z).
assert (Hin : (PoseSimilarity.torso,
               statsOf PoseSimilarity.torso (omap (scoreAt PoseSimilarity.torso) s10))
              ∈ segmentStatsOf s10).
{ apply segmentStatsOf_elem. split; [|reflexivity].
  intros H. vm_compute in H. inversion H. }
assert (Hcomplete : Forall complete s10).
{ unfold s10, session. cbn [imap fmap list_fmap]. session_check. }
assert (Hrange : Forall in_range s10).
{ unfold s10, session. cbn [imap fmap list_fmap]. session_check. }
eexists. split; [exact Hin|].
exact (proj1 (proj2 (segmentStats_spec _ _ _ Hcomplete Hrange Hin))).
Defined.

(** *** Focus areas, strengths and tips *)

Lemma filter_split {A : Type} (p : A -> bool) (l : list A) :
  List.filter p l ++ List.filter (fun a => negb (p a)) l ≡ₚ l.
Proof.
induction l as [|a l IH]; [reflexivity|]. cbn [List.filter].
destruct (p a); cbn [negb app].
- constructor. exact IH.
- rewrite <- Permutation_middle. constructor. exact IH.
Qed.

Lemma filter_StronglySorted {A : Type} (R : A -> A -> Prop) (p : A -> bool) (l : list A) :
  StronglySorted R l -> StronglySorted R (List.filter p l).
Proof.
induction 1 as [|a l Hl IH Ha]; cbn [List.filter]; [constructor|].
destruct (p a); [|exact IH]. constructor; [exact IH|].
apply Forall_forall. intros b Hb. apply list_elem_of_In, filter_In in Hb as [Hb _].
eapply Forall_forall in Ha; [exact Ha|]. apply list_elem_of_In, Hb.
Qed.

Lemma segmentStatsOf_keys (sessionData : list SessionSample) :
  NoDup (fst <$> segmentStatsOf sessionData).
Proof.
unfold segmentStatsOf.
assert (H : forall keys : list Segment, NoDup keys ->
          NoDup (fst <$> omap (fun key =>
            let scores := omap (scoreAt key) sessionData in
            if length scores =? 0 then None else Some (key, statsOf key scores)) keys) /\
          forall k, k ∈ fst <$> omap (fun key =>
            let scores := omap (scoreAt key) sessionData in
            if length scores =? 0 then None else Some (key, statsOf key scores)) keys -> k ∈ keys).
{ induction keys as [|k keys IH]; intros Hnd.
  - split; [constructor|]. intros k H. exact H.
  - apply NoDup_cons in Hnd as [Hk Hnd]. destruct (IH Hnd) as [IH1 IH2].
    cbn [omap list_omap]. cbv zeta.
    destruct (length (omap (scoreAt k) sessionData) =? 0).
    + split; [exact IH1|]. intros k' Hk'. right. apply IH2, Hk'.
    + rewrite fmap_cons. cbn [fst]. split.
      * apply NoDup_cons. split; [|exact IH1]. intros Hin. apply Hk, IH2, Hin.
      * intros k' [->|Hk']%elem_of_cons; [left|right; apply IH2, Hk']. }
apply H. unfold segment_keys. apply (bool_decide_unpack (NoDup [PoseSimilarity.leftArm; PoseSimilarity.rightArm; PoseSimilarity.leftLeg; PoseSimilarity.rightLeg; PoseSimilarity.torso; PoseSimilarity.head])). vm_compute. exact I.
Qed.

(** X19. With 3 samples or more, every segment that has a score in the
    session is listed exactly once, either as a focus area or as a
    strength; focus areas average below 70 and come worst first,
    strengths average 70 or more and come best first. *)
Theorem analyzeSession_areas (sessionData : list SessionSample) :
  3 <= length sessionData ->
  let a := analyzeSession sessionData in
  (fa_segment <$> focusAreas a) ++ (sg_segment <$> strengths a)
    ≡ₚ fst <$> segmentStatsOf sessionData /\
  NoDup ((fa_segment <$> focusAreas a) ++ (sg_segment <$> strengths a)) /\
  Forall (fun f => (fa_segment f, fa_stats f) ∈ segmentStatsOf sessionData /\
                   (st_avg (fa_stats f) < 70)%Q) (focusAreas a) /\
  Forall (fun s => (sg_segment s, sg_stats s) ∈ segmentStatsOf sessionData /\
                   (70 <= st_avg (sg_stats s))%Q) (strengths a) /\
  StronglySorted (fun f1 f2 => (st_avg (fa_stats f1) <= st_avg (fa_stats f2))%Q)
    (focusAreas a) /\
  StronglySorted (fun s1 s2 => (st_avg (sg_stats s2) <= st_avg (sg_stats s1))%Q)
    (strengths a).
Proof.
intros Hn. unfold analyzeSession.
destruct (Nat.ltb_spec (length sessionData) 3) as [|_]; [lia|].
cbv zeta. cbn [focusAreas strengths].
set (stats := segmentStatsOf sessionData).
set (sorted := sort (fun a b : Segment * SegmentStats => (st_avg a.2 - st_avg b.2)%Q) stats).
set (low := List.filter (fun e : Segment * SegmentStats => Qltb (st_avg e.2) 70) sorted).
set (high := List.filter (fun e : Segment * SegmentStats => Qle_bool 70 (st_avg e.2)) sorted).
assert (Hperm : sorted ≡ₚ stats) by apply sort_Permutation.
assert (Hsorted : StronglySorted (fun a b : Segment * SegmentStats =>
                    (st_avg a.2 <= st_avg b.2)%Q) sorted).
{ apply (sort_sorted (fun e : Segment * SegmentStats => st_avg e.2)). }
assert (Hsplit : low ++ high ≡ₚ stats).
{ rewrite <- Hperm. unfold low, high.
  rewrite <- (filter_split (fun e : Segment * SegmentStats => Qltb (st_avg e.2) 70) sorted) at 3.
  apply Permutation_app_head. apply Permutation_refl'.
  apply filter_ext. intros e. unfold Qltb. rewrite negb_involutive. reflexivity. }
assert (Hkeys : (fa_segment <$> ((fun e : Segment * SegmentStats =>
                    mkFocusArea e.1 e.2 (generateSegmentFeedback e.1 e.2) (generateExercises e.1))
                    <$> low)) = fst <$> low).
{ rewrite <- list_fmap_compose. reflexivity. }
split; [|split; [|split; [|split; [|split]]]].
- rewrite Hkeys, <- list_fmap_compose.
  change (sg_segment ∘ _) with (@fst Segment SegmentStats).
  rewrite fmap_reverse, reverse_Permutation, <- fmap_app, Hsplit. reflexivity.
- rewrite Hkeys, <- list_fmap_compose.
  change (sg_segment ∘ _) with (@fst Segment SegmentStats).
  rewrite fmap_reverse, reverse_Permutation, <- fmap_app, Hsplit.
  apply segmentStatsOf_keys.
- apply Forall_fmap, Forall_forall. intros [k st] Hin. cbn [fa_segment fa_stats compose fst snd].
  apply list_elem_of_In, filter_In in Hin as [Hin Hlt]. cbn [snd] in Hlt.
  split; [|apply Qltb_true, Hlt]. rewrite <- Hperm. apply list_elem_of_In, Hin.
- apply Forall_fmap, Forall_forall. intros [k st] Hin. cbn [sg_segment sg_stats compose fst snd].
  apply elem_of_reverse, list_elem_of_In, filter_In in Hin as [Hin Hge]. cbn [snd] in Hge.
  split; [|apply Qle_bool_iff, Hge]. rewrite <- Hperm. apply list_elem_of_In, Hin.
- apply (StronglySorted_fmap _ (fun a b : Segment * SegmentStats => (st_avg a.2 <= st_avg b.2)%Q));
    [intros x y Hxy; exact Hxy|].
  apply filter_StronglySorted, Hsorted.
- apply (StronglySorted_fmap _ (fun a b : Segment * SegmentStats => (st_avg b.2 <= st_avg a.2)%Q));
    [intros x y Hxy; exact Hxy|].
  assert (H : forall l : list (Segment * SegmentStats),
            StronglySorted (fun a b => (st_avg a.2 <= st_avg b.2)%Q) l ->
            StronglySorted (fun a b => (st_avg b.2 <= st_avg a.2)%Q) (reverse l)).
  { induction 1 as [|a l Hl IH Ha]; [constructor|].
    rewrite reverse_cons. apply StronglySorted_app_2; [|exact IH|repeat constructor].
    intros b c Hb Hc%list_elem_of_singleton. subst c.
    rewrite elem_of_reverse in Hb. rewrite Forall_forall in Ha. apply Ha, Hb. }
  apply H, filter_StronglySorted, Hsorted.
Qed.

(** The theorem on a session where everything is poor at first. *)
Lemma analyzeSession_areas_witness :
  NoDup ((fa_segment <$> focusAreas (analyzeSession (session [30; 30; 30; 30; 30; 30; 80; 90]%Z)))
         ++ (sg_segment <$> strengths (analyzeSession (session [30; 30; 30; 30; 30; 30; 80; 90]%Z)))).
Proof.
apply (analyzeSession_areas (session [30; 30; 30; 30; 30; 30; 80; 90]%Z)).
vm_compute. lia.
Defined.

(** X20. [generateTopTips] always returns between 1 and 5 tips and the
    cut after 5 never drops one.  Without focus areas the one tip is
    the congratulation.  With focus areas the tips are, in this order:
    the advice to take one body part at a time if there are 3 focus
    areas or more, the priority fix, the praise if some segment has a
    trend above 8, the warning if some segment has a trend below -8,
    and the closing tip. *)
Theorem generateTopTips_spec (focusAreas : list FocusArea)
  (segmentStats : list (Segment * SegmentStats)) (overallAvg : Q) :
  let tips := generateTopTips focusAreas segmentStats overallAvg in
  1 <= length tips <= 5 /\
  match focusAreas with
  | [] => icon <$> tips = ["🌟"%string]
  | worst :: _ =>
    icon <$> tips
    = (if 3 <=? length focusAreas then ["🎯"%string] else []) ++ ["⚡"%string]
      ++ (if existsb (fun e : Segment * SegmentStats => trendAbove 8 (trend e.2)) segmentStats
          then ["📈"%string] else [])
      ++ (if existsb (fun e : Segment * SegmentStats => trendBelow (-8) (trend e.2)) segmentStats
          then ["💤"%string] else [])
      ++ ["💡"%string]
  end.
Proof.
assert (Hex : forall (p : Segment * SegmentStats -> bool) l,
          (0 <? length ((fun e : Segment * SegmentStats => st_label e.2) <$> List.filter p l))
          = existsb p l).
{ intros p l. rewrite length_fmap. induction l as [|e l IH]; [reflexivity|].
  cbn [List.filter existsb]. destruct (p e); [reflexivity|exact IH]. }
unfold generateTopTips. destruct focusAreas as [|worst rest]; cbv zeta.
- split; [cbn; lia|reflexivity].
- rewrite !Hex.
  destruct (3 <=? length (worst :: rest)), (existsb _ segmentStats), (existsb _ segmentStats);
    cbn [app take length fmap list_fmap icon]; (split; [lia|reflexivity]).
Qed.

(** *** The tips of a session *)

Lemma filter_head_sorted {A : Type} (key : A -> Q) (bound : Q) (l : list A) (a : A)
  (rest : list A) :
  StronglySorted (fun a b => (key a <= key b)%Q) l ->
  List.filter (fun e => Qltb (key e) bound) l = a :: rest ->
  forall e, e ∈ l -> (key a <= key e)%Q.
Proof.
intros Hsorted Hf. destruct Hsorted as [|e0 l Hl Hall]; [discriminate Hf|].
cbn [List.filter] in Hf. rewrite Forall_forall in Hall.
destruct (Qltb (key e0) bound) eqn:E.
- injection Hf as <- _. intros e [->|He]%elem_of_cons; [apply Qle_refl|apply Hall, He].
- exfalso. apply Qltb_false in E.
  assert (Hin : a ∈ List.filter (fun e => Qltb (key e) bound) l) by (rewrite Hf; left).
  apply list_elem_of_In, filter_In in Hin as [Hin Hlt]. apply Qltb_true in Hlt.
  apply list_elem_of_In, Hall in Hin. lra.
Qed.

(** X21. In the analysis of a session of 3 samples or more: there is
    no focus area exactly when every segment with data averages 70 or
    more, and then the one tip is the congratulation.  Otherwise the
    first focus area is a segment of lowest average, and the tips
    contain the priority fix that names it with its rounded average. *)
Theorem analyzeSession_tips (sessionData : list SessionSample) :
  3 <= length sessionData ->
  let a := analyzeSession sessionData in
  let stats := segmentStatsOf sessionData in
  segmentStats a = Some stats /\
  (focusAreas a = [] <-> forall e, e ∈ stats -> (70 <= st_avg e.2)%Q) /\
  (focusAreas a = [] -> icon <$> tips a = ["🌟"%string]) /\
  (forall worst rest, focusAreas a = worst :: rest ->
     (fa_segment worst, fa_stats worst) ∈ stats /\
     (forall e, e ∈ stats -> (st_avg (fa_stats worst) <= st_avg e.2)%Q) /\
     mkTip "⚡" ("Priority fix: your " +:+ toLowerCase (st_label (fa_stats worst)) +:+ " ("
                 +:+ pretty (Math_round (st_avg (fa_stats worst)))
                 +:+ "%). Slow to 0.5× and practice just this area.") ∈ tips a).
Proof.
intros Hn. unfold analyzeSession.
destruct (Nat.ltb_spec (length sessionData) 3) as [|_]; [lia|].
cbv zeta. cbn [focusAreas tips segmentStats].
set (stats := segmentStatsOf sessionData).
set (sorted := sort (fun a b : Segment * SegmentStats => (st_avg a.2 - st_avg b.2)%Q) stats).
set (low := List.filter (fun e : Segment * SegmentStats => Qltb (st_avg e.2) 70) sorted).
set (areas := (fun e : Segment * SegmentStats =>
                 mkFocusArea e.1 e.2 (generateSegmentFeedback e.1 e.2) (generateExercises e.1))
              <$> low).
assert (Hperm : sorted ≡ₚ stats) by apply sort_Permutation.
assert (Hsorted : StronglySorted (fun a b : Segment * SegmentStats =>
                    (st_avg a.2 <= st_avg b.2)%Q) sorted)
  by apply (sort_sorted (fun e : Segment * SegmentStats => st_avg e.2)).
split; [reflexivity|]. split; [|split].
- split.
  + intros H%fmap_nil_inv e He. rewrite <- Hperm in He.
    destruct (Qltb (st_avg e.2) 70) eqn:E; [|apply Qltb_false, E].
    assert (Hin : e ∈ low) by (apply list_elem_of_In, filter_In; split;
                               [apply list_elem_of_In, He|exact E]).
    unfold low in Hin. fold low in Hin. rewrite H in Hin. inversion Hin.
  + intros H. unfold areas. replace low with (@nil (Segment * SegmentStats)); [reflexivity|].
    symmetry. destruct low as [|e l] eqn:E; [reflexivity|]. exfalso.
    assert (Hin : e ∈ low) by (rewrite E; left).
    apply list_elem_of_In, filter_In in Hin as [Hin Hlt]. apply Qltb_true in Hlt.
    apply list_elem_of_In in Hin. rewrite Hperm in Hin. specialize (H e Hin). lra.
- intros ->. reflexivity.
- intros worst rest Hareas. unfold areas in Hareas.
  destruct low as [|e l] eqn:Hlow; [discriminate Hareas|].
  rewrite fmap_cons in Hareas. injection Hareas as <- <-. cbn [fa_segment fa_stats].
  assert (Hin : e ∈ low) by (rewrite Hlow; left).
  apply list_elem_of_In, filter_In in Hin as [Hin _]. apply list_elem_of_In in Hin.
  split; [rewrite <- Hperm; destruct e; exact Hin|]. split.
  + intros e' He'. rewrite <- Hperm in He'.
    apply (filter_head_sorted (fun e : Segment * SegmentStats => st_avg e.2) 70 sorted e l
             Hsorted Hlow e' He').
  + unfold generateTopTips. cbv zeta. cbn [fa_stats].
    destruct (3 <=? _), (0 <? _), (0 <? _); cbn [app take];
      first [left|right; left].
Qed.

(** The theorem on a session where everything is poor at first. *)
Lemma analyzeSession_tips_witness :
  segmentStats (analyzeSession (session [30; 30; 30; 30; 30; 30; 80; 90]%Z))
  = Some (segmentStatsOf (session [30; 30; 30; 30; 30; 30; 80; 90]%Z)).
Proof.
apply (analyzeSession_tips (session [30; 30; 30; 30; 30; 30; 80; 90]%Z)).
vm_compute. lia.
Defined.

End SessionFacts.

(** ** The grade tables of feedbackEngine.js and poseSimilarity.js *)

Module GradeFacts.
Import JSQ JSQFacts FeedbackEngine FeedbackEngineFacts.
Import PoseSimilarity(scoreToGrade, scoreToColor).
Local Open Scope Q_scope.

(** *** The two grade tables *)

Lemma Qle_bool_Q2R (a b : Q) : Qle_bool a b = true <-> (Q2R a <= Q2R b)%R.
Proof.
rewrite Qle_bool_iff. split; [apply Qle_Rle|apply Rle_Qle].
Qed.

Lemma Q2R_inject_Z (n : Z) : Q2R (inject_Z n) = IZR n.
Proof. unfold Q2R, inject_Z. cbn [Qnum Qden]. rewrite Rinv_1. ring. Qed.

(** X22. The session grade of [getGrade] and the live grade of
    [scoreToGrade] use the same cuts: both give the same letter for the
    same score. *)
Theorem getGrade_scoreToGrade (score : Q) :
  letter (getGrade score) = scoreToGrade (Some (Q2R score)).
Proof.
unfold getGrade, scoreToGrade.
assert (H : forall n : Z, Qle_bool (n # 1) score = JS.geb (Q2R score) (IZR n)).
{ intros n. change (n # 1) with (inject_Z n). unfold JS.geb.
  destruct (Qle_bool (inject_Z n) score) eqn:E.
  - apply Qle_bool_Q2R in E. rewrite Q2R_inject_Z in E.
    destruct (Rge_dec _ _); [reflexivity|lra].
  - destruct (Rge_dec (Q2R score) (IZR n)) as [Hge|]; [|reflexivity].
    assert (Ht : Qle_bool (inject_Z n) score = true).
    { apply Qle_bool_Q2R. rewrite Q2R_inject_Z. lra. }
    congruence. }
rewrite (H 90%Z), (H 80%Z), (H 70%Z), (H 60%Z), (H 50%Z).
repeat (destruct (JS.geb _ _); [reflexivity|]). reflexivity.
Qed.

End GradeFacts.

(** ** Facts about skeletonRenderer.js *)

Module SkeletonRendererFacts.
Import JS JSFacts PoseNormalizer PoseSimilarity SkeletonRenderer.
Import ScorerRangeFacts(geb_spec, geb_false).
Local Open Scope R_scope.


Ltac eval_includes :=
  repeat match goal with
  | |- context [includes ?l ?i] =>
    let v := eval vm_compute in (includes l i) in change (includes l i) with v
  | H : context [includes ?l ?i] |- _ =>
    let v := eval vm_compute in (includes l i) in change (includes l i) with v in H
  end.

(** The renderer draws, for every segment, exactly the bones the
    scorer compares. *)
Lemma SEGMENT_CONNECTIONS_pairs (segName : Segment) :
  SEGMENT_CONNECTIONS segName = pairs (BODY_SEGMENTS segName).
Proof. destruct segName; reflexivity. Qed.

Lemma keypoint_cases (idx : nat) (scores : list (Segment * option R)) :
  (idx < 33)%nat -> includes SKIP idx = false ->
  exists seg, seg <> torso /\ getKeypointSegmentColor idx scores = colorOf (scoreOf scores seg).
Proof.
intros Hidx Hskip. unfold getKeypointSegmentColor.
do 33 (destruct idx as [|idx];
  [eval_includes; first [discriminate Hskip|eexists; split; [|reflexivity]; discriminate]|]).
lia.
Qed.

(** X23. The keypoints at the two ends of an arm or leg bone get the
    colour of that arm or leg.  No keypoint that is drawn gets the
    colour of the torso: the torso score has no effect on any of them. *)
Theorem getKeypointSegmentColor_spec (scores : list (Segment * option R)) :
  (forall seg c, seg ∈ [leftArm; rightArm; leftLeg; rightLeg] -> c ∈ SEGMENT_CONNECTIONS seg ->
     getKeypointSegmentColor c.1 scores = colorOf (scoreOf scores seg) /\
     getKeypointSegmentColor c.2 scores = colorOf (scoreOf scores seg)) /\
  (forall idx scores', (idx < 33)%nat -> includes SKIP idx = false ->
     (forall seg, seg <> torso -> scoreOf scores seg = scoreOf scores' seg) ->
     getKeypointSegmentColor idx scores = getKeypointSegmentColor idx scores').
Proof.
split.
- intros seg c Hseg Hc.
  repeat (apply elem_of_cons in Hseg; destruct Hseg as [->|Hseg]);
    try (apply elem_of_nil in Hseg; contradiction);
    cbn [SEGMENT_CONNECTIONS] in Hc;
    repeat (apply elem_of_cons in Hc; destruct Hc as [->|Hc]);
    try (apply elem_of_nil in Hc; contradiction);
    split; reflexivity.
- intros idx scores' Hidx Hskip Hsame. unfold getKeypointSegmentColor.
  do 33 (destruct idx as [|idx];
    [eval_includes; cbv iota;
     first [discriminate Hskip|rewrite Hsame by discriminate; reflexivity]|]).
  lia.
Qed.

(** *** The drawing *)

Lemma segmentLines_elem (landmarks : list Landmark) (w h : R)
  (segmentScores : option (list (Segment * option R))) (uniformColor : string)
  (segName : Segment) (line : Line) :
  line ∈ segmentLines landmarks w h segmentScores uniformColor segName ->
  exists c, c ∈ SEGMENT_CONNECTIONS segName /\
    shown (get landmarks c.1) = true /\ shown (get landmarks c.2) = true /\
    moveTo line = (x (get landmarks c.1) * w, y (get landmarks c.1) * h) /\
    lineTo line = (x (get landmarks c.2) * w, y (get landmarks c.2) * h).
Proof.
unfold segmentLines. cbv zeta. intros (c & Hc & Hline)%list_elem_of_omap.
exists c. split; [exact Hc|].
destruct (shown (get landmarks c.1)); [|discriminate].
destruct (shown (get landmarks c.2)); [|discriminate].
cbn [andb] in Hline. injection Hline as <-. auto.
Qed.

Lemma connection_drawn (segName : Segment) (c : nat * nat) :
  c ∈ SEGMENT_CONNECTIONS segName ->
  ((c.1 < 33)%nat /\ includes SKIP c.1 = false) /\
  ((c.2 < 33)%nat /\ includes SKIP c.2 = false).
Proof.
intros Hc. destruct segName; cbn [SEGMENT_CONNECTIONS] in Hc;
  repeat (apply elem_of_cons in Hc; destruct Hc as [->|Hc]);
  try (apply elem_of_nil in Hc; contradiction);
  cbn [fst snd]; (split; (split; [lia|vm_compute; reflexivity])).
Qed.

Lemma length_omap_le {A B : Type} (f : A -> option B) (l : list A) :
  (length (omap f l) <= length l)%nat.
Proof.
induction l as [|a l IH]; [reflexivity|]. cbn [omap list_omap]. destruct (f a); cbn [length]; lia.
Qed.

Lemma length_omap_skip {A B : Type} (p : A -> bool) (g : A -> option B) (l : list A) :
  (length (omap (fun i => if p i then None else g i) l)
   <= length (List.filter (fun i => negb (p i)) l))%nat.
Proof.
induction l as [|a l IH]; [reflexivity|]. cbn [omap list_omap List.filter].
destruct (p a); cbn [negb]; [exact IH|]. destruct (g a); cbn [length]; lia.
Qed.

(** X24. Nothing is drawn for an absent pose or one of fewer than 33
    landmarks.  Otherwise each end of every line carries a keypoint
    that is drawn as well; there are at most 14 lines and 25
    keypoints. *)
Theorem drawSkeleton_spec (landmarks : option (list Landmark)) (w h : R)
  (segmentScores : option (list (Segment * option R))) (uniformColor : string) :
  let d := drawSkeleton landmarks w h segmentScores uniformColor in
  (match landmarks with
   | None => True
   | Some lms => (length lms < 33)%nat
   end -> d = mkDrawing [] []) /\
  (forall line, line ∈ lines d ->
     (exists dot, dot ∈ dots d /\ center dot = moveTo line) /\
     (exists dot, dot ∈ dots d /\ center dot = lineTo line)) /\
  (length (lines d) <= 14)%nat /\ (length (dots d) <= 25)%nat.
Proof.
cbv zeta. unfold drawSkeleton. destruct landmarks as [lms|].
2:{ split; [reflexivity|]. split; [intros line H; inversion H|cbn; lia]. }
destruct (Nat.ltb_spec (length lms) 33) as [Hlt|Hge].
{ split; [reflexivity|]. split; [intros line H; inversion H|cbn; lia]. }
split; [lia|]. cbn [lines dots].
assert (Hdot : forall i, (i < 33)%nat -> includes SKIP i = false ->
          shown (get lms i) = true ->
          exists dot,
            dot ∈ omap (fun i : nat =>
                     if includes SKIP i then None else
                     let lm := get lms i in
                     if shown lm then
                       Some (mkDot (x lm * w, y lm * h)
                               match segmentScores with
                               | Some scores => getKeypointSegmentColor i scores
                               | None => uniformColor
                               end)
                     else None)
                  (seq 0 (Nat.min (length lms) 33)) /\
            center dot = (x (get lms i) * w, y (get lms i) * h)).
{ intros i Hi Hskip Hshown. eexists. split.
  - apply list_elem_of_omap. exists i. split; [apply elem_of_seq; lia|].
    rewrite Hskip. cbv zeta. rewrite Hshown. reflexivity.
  - reflexivity. }
split; [|split].
- intros line (seg & Hline & _)%list_elem_of_bind.
  apply segmentLines_elem in Hline as (c & Hc & H1 & H2 & -> & ->).
  destruct (connection_drawn _ _ Hc) as [[Ha Hsa] [Hb Hsb]].
  split; apply Hdot; assumption.
- assert (Hlen : forall seg,
            (length (segmentLines lms w h segmentScores uniformColor seg)
             <= length (SEGMENT_CONNECTIONS seg))%nat)
    by (intros seg; apply length_omap_le).
  pose proof (Hlen leftArm) as H1. pose proof (Hlen rightArm) as H2.
  pose proof (Hlen leftLeg) as H3. pose proof (Hlen rightLeg) as H4.
  pose proof (Hlen torso) as H5. pose proof (Hlen head) as H6.
  cbn [SEGMENT_CONNECTIONS length] in H1, H2, H3, H4, H5, H6.
  unfold segment_keys. cbn [mbind list_bind]. rewrite !length_app. cbn [length]. lia.
- replace (Nat.min (length lms) 33) with 33%nat by lia.
  etransitivity; [apply (length_omap_skip (includes SKIP))|].
  vm_compute. lia.
Qed.

(** *** Line styles *)

Lemma segmentLines_style (landmarks : list Landmark) (w h : R)
  (segmentScores : option (list (Segment * option R))) (uniformColor : string)
  (segName : Segment) (line : Line) :
  line ∈ segmentLines landmarks w h segmentScores uniformColor segName ->
  match segmentScores with
  | None => strokeStyle line = uniformColor /\ lineWidth line = 3%nat /\ shadowBlur line = 0%nat
  | Some scores =>
    strokeStyle line = colorOf (scoreOf scores segName) /\
    match scoreOf scores segName with
    | Some (Some score) =>
      if ltb score 55 then lineWidth line = 5%nat /\ shadowBlur line = 15%nat
      else lineWidth line = 3%nat /\ shadowBlur line = 0%nat
    | _ => lineWidth line = 3%nat /\ shadowBlur line = 0%nat
    end
  end.
Proof.
unfold segmentLines. cbv zeta. intros (c & Hc & Hline)%list_elem_of_omap.
destruct (shown _ && shown _); [|discriminate]. injection Hline as <-.
cbn [strokeStyle lineWidth shadowBlur].
destruct segmentScores as [scores|]; [|auto]. split; [reflexivity|].
destruct (scoreOf scores segName) as [[score|]|]; [|auto..].
destruct (ltb score 55); auto.
Qed.

(** X25. With live scores that have an entry for every segment, a bone
    is drawn thick (width 5, with a glow of 15) exactly when its colour
    is one of the two colours of a score below 55, and thin (width 3,
    no glow) otherwise.  Without scores every bone is thin and has the
    uniform colour. *)
Theorem drawSkeleton_style (landmarks : option (list Landmark)) (w h : R)
  (scores : list (Segment * option R)) (uniformColor : string) :
  (forall segName, is_Some (scoreOf scores segName)) ->
  Forall (fun line =>
            (lineWidth line = 5%nat /\ shadowBlur line = 15%nat \/
             lineWidth line = 3%nat /\ shadowBlur line = 0%nat) /\
            (lineWidth line = 5%nat <->
             strokeStyle line = "#f97316"%string \/ strokeStyle line = "#ef4444"%string))
         (lines (drawSkeleton landmarks w h (Some scores) uniformColor)) /\
  Forall (fun line => strokeStyle line = uniformColor /\ lineWidth line = 3%nat /\
                      shadowBlur line = 0%nat)
         (lines (drawSkeleton landmarks w h None uniformColor)).
Proof.
intros Hall. unfold drawSkeleton. destruct landmarks as [lms|]; [|split; constructor].
destruct (length lms <? 33)%nat; [split; constructor|]. cbn [lines].
split; apply Forall_forall; intros line (seg & Hline & _)%list_elem_of_bind;
  apply segmentLines_style in Hline; [|exact Hline].
destruct Hline as [Hcolor Hwidth]. specialize (Hall seg).
destruct (scoreOf scores seg) as [[score|]|] eqn:Hscore.
- cbn [colorOf] in Hcolor. unfold scoreToColor in Hcolor.
  destruct (ltb score 55) eqn:Hlt; [apply ltb_true in Hlt|apply ltb_false in Hlt];
    destruct Hwidth as [Hw Hb]; rewrite Hw, Hcolor;
    (split; [auto|]);
    repeat match goal with
    | |- context [geb ?a ?b] =>
      let E := fresh "E" in
      destruct (geb a b) eqn:E; [apply geb_spec in E|apply geb_false in E]
    end; try (exfalso; lra);
    (split; [intros H; first [discriminate H|auto]|intros [H|H]; first [discriminate H|reflexivity]]).
- destruct Hwidth as [Hw Hb]. rewrite Hw, Hcolor. split; [auto|].
  split; [discriminate|intros [H|H]; discriminate H].
- destruct Hall as [? [=]].
Qed.

(** *** Smoothing *)

Lemma foldl_sum_range {A : Type} (g : A -> R) (lo hi : R) (frames : list A) (s : R) :
  Forall (fun f => lo <= g f <= hi) frames ->
  s + INR (length frames) * lo <= foldl (fun s f => s + g f) s frames
  <= s + INR (length frames) * hi.
Proof.
intros H. revert s. induction H as [|f frames Hf _ IH]; intros s.
- cbn. lra.
- cbn [foldl]. specialize (IH (s + g f)). rewrite length_cons, S_INR. lra.
Qed.

Lemma mean_in_range {A : Type} (g : A -> R) (lo hi : R) (frames : list A) (n : nat) :
  length frames = n -> (0 < n)%nat ->
  Forall (fun f => lo <= g f <= hi) frames ->
  lo <= foldl (fun s f => s + g f) 0 frames / INR n <= hi.
Proof.
intros Hlen Hn H. pose proof (foldl_sum_range g lo hi frames 0 H) as Hs. rewrite Hlen in Hs.
assert (Hpos : 0 < INR n) by (apply lt_0_INR; lia).
split.
- apply Rmult_le_reg_r with (INR n); [exact Hpos|]. unfold Rdiv.
  rewrite Rmult_assoc, Rinv_l by lra. lra.
- apply Rmult_le_reg_r with (INR n); [exact Hpos|]. unfold Rdiv.
  rewrite Rmult_assoc, Rinv_l by lra. lra.
Qed.

Lemma smoothAt_range (history : list (list Landmark)) (idx : nat) (o : Landmark) :
  history <> [] -> smoothAt history idx = Some o ->
  forall (g : Landmark -> R) (v : R),
    (g = x /\ v = x o) \/ (g = y /\ v = y o) \/
    ((g = fun l => orZero (z l)) /\ v = orZero (z o)) \/
    ((g = fun l => orZero (visibility l)) /\ v = orZero (visibility o)) ->
  forall lo hi,
    (forall frame l, frame ∈ history -> frame !! idx = Some l -> lo <= g l <= hi) ->
    lo <= v <= hi.
Proof.
intros Hne. unfold smoothAt.
destruct (mapM (fun frame : list Landmark => frame !! idx) history) as [frames|] eqn:Hm;
  [|discriminate].
cbn [mbind option_bind]. intros [= <-] g v Hg lo hi Hall.
assert (Hlen : length frames = length history) by (symmetry; eapply length_mapM, Hm).
assert (Hn : (0 < length history)%nat) by (destruct history; [contradiction|cbn; lia]).
assert (Hframes : Forall (fun l => lo <= g l <= hi) frames).
{ apply mapM_Some_1 in Hm. clear -Hm Hall.
  induction Hm as [|frame l history frames Hl _ IH]; constructor.
  - apply (Hall frame); [left|exact Hl].
  - apply IH. intros frame' l' Hin. apply Hall. right. exact Hin. }
destruct Hg as [[-> ->]|[[-> ->]|[[-> ->]|[-> ->]]]]; cbn [x y z visibility orZero];
  apply (mean_in_range _ lo hi frames _ Hlen Hn Hframes).
Qed.

Lemma smoothLandmarks_cases (histories : Histories) (lms : list Landmark) (channel : Channel) :
  let pushed := history_of histories channel ++ [lms] in
  let history := if (SMOOTHING_WINDOW <? length pushed)%nat then drop 1 pushed else pushed in
  smoothLandmarks histories (Some lms) channel
  = if (length lms =? 0)%nat then (histories, Returned (Some lms))
    else if (length history <? 2)%nat
         then (set_history histories channel history, Returned (Some lms))
         else match mapM (smoothAt history) (seq 0 (length lms)) with
              | Some smoothed => (set_history histories channel history, Returned (Some smoothed))
              | None => (set_history histories channel history, TypeError)
              end.
Proof. reflexivity. Qed.

Lemma history_of_set (histories : Histories) (channel channel' : Channel)
  (history : list (list Landmark)) :
  history_of (set_history histories channel history) channel'
  = if decide (channel' = channel) then history else history_of histories channel'.
Proof. destruct channel, channel'; reflexivity. Qed.

Lemma pushed_window (old : list (list Landmark)) (lms : list Landmark) :
  let pushed := old ++ [lms] in
  let history := if (SMOOTHING_WINDOW <? length pushed)%nat then drop 1 pushed else pushed in
  lms ∈ history /\ history <> [] /\
  ((length old <= SMOOTHING_WINDOW)%nat -> (length history <= SMOOTHING_WINDOW)%nat) /\
  (forall frame, frame ∈ history -> frame = lms \/ frame ∈ old).
Proof.
cbv zeta. unfold SMOOTHING_WINDOW.
assert (Hin : forall frame, frame ∈ old ++ [lms] -> frame = lms \/ frame ∈ old).
{ intros frame [H|H%list_elem_of_singleton]%elem_of_app; auto. }
destruct (Nat.ltb_spec 4 (length (old ++ [lms]))) as [Hlt|Hge].
- rewrite length_app in Hlt. cbn [length] in Hlt.
  destruct old as [|f0 old]; [cbn in Hlt; lia|].
  change (drop 1 ((f0 :: old) ++ [lms])) with (old ++ [lms]).
  split; [apply elem_of_app; right; left|]. split; [destruct old; discriminate|].
  split; [rewrite length_app; cbn [length]; lia|].
  intros frame Hf. apply Hin. right. exact Hf.
- split; [apply elem_of_app; right; left|]. split; [destruct old; discriminate|].
  split; [lia|exact Hin].
Qed.

(** In the exact arithmetic of the model a smoothed coordinate lies
    within any bounds that hold in all the frames of the window. *)
Lemma smoothLandmarks_range_exact (histories after : Histories) (lms out : list Landmark)
  (channel : Channel) :
  smoothLandmarks histories (Some lms) channel = (after, Returned (Some out)) ->
  length out = length lms /\
  forall idx o, out !! idx = Some o ->
  forall lo hi,
    ((forall frame l, frame ∈ history_of after channel -> frame !! idx = Some l ->
        lo <= x l <= hi) -> lo <= x o <= hi) /\
    ((forall frame l, frame ∈ history_of after channel -> frame !! idx = Some l ->
        lo <= y l <= hi) -> lo <= y o <= hi) /\
    ((forall frame l, frame ∈ history_of after channel -> frame !! idx = Some l ->
        lo <= orZero (z l) <= hi) -> lo <= orZero (z o) <= hi) /\
    ((forall frame l, frame ∈ history_of after channel -> frame !! idx = Some l ->
        lo <= orZero (visibility l) <= hi) -> lo <= orZero (visibility o) <= hi).
Proof.
rewrite smoothLandmarks_cases. cbv zeta.
destruct (pushed_window (history_of histories channel) lms) as (Hin & Hne & _ & _).
cbv zeta in Hin, Hne.
set (history := if (SMOOTHING_WINDOW <? length (history_of histories channel ++ [lms]))%nat
                then drop 1 (history_of histories channel ++ [lms])
                else history_of histories channel ++ [lms]) in *.
destruct (Nat.eqb_spec (length lms) 0) as [Hz|Hnz].
{ intros [= <- <-]. split; [reflexivity|]. intros idx o Ho.
  destruct lms; [|discriminate Hz]. rewrite lookup_nil in Ho. discriminate. }
destruct (length history <? 2)%nat.
{ intros [= <- <-]. split; [reflexivity|]. intros idx o Ho lo hi.
  rewrite history_of_set. destruct (decide _); [|contradiction].
  split; [|split; [|split]]; intros Hb; apply (Hb lms o Hin Ho). }
destruct (mapM (smoothAt history) (seq 0 (length lms))) as [smoothed|] eqn:Hm; [|discriminate].
intros [= <- <-]. pose proof (length_mapM _ _ _ Hm) as Hlen. rewrite length_seq in Hlen.
split; [symmetry; exact Hlen|]. intros idx o Ho lo hi.
rewrite history_of_set. destruct (decide _); [|contradiction].
assert (Hat : smoothAt history idx = Some o).
{ apply mapM_Some_1 in Hm.
  destruct (Forall2_lookup_r _ _ _ _ _ Hm Ho) as (i & Hi & Hs).
  apply lookup_seq in Hi as [-> _]. exact Hs. }
pose proof (smoothAt_range history idx o Hne Hat) as Hr.
split; [|split; [|split]]; intros Hb.
- apply (Hr x (x o)); [auto|exact Hb].
- apply (Hr y (y o)); [auto|exact Hb].
- apply (Hr (fun l => orZero (z l)) (orZero (z o))); [auto|exact Hb].
- apply (Hr (fun l => orZero (visibility l)) (orZero (visibility o))); [auto 6|exact Hb].
Qed.

Lemma slack_nonneg (lo hi : R) : 0 <= slack lo hi.
Proof.
unfold slack. pose proof (Rabs_pos lo). pose proof (Rmax_l (Rabs lo) (Rabs hi)). lra.
Qed.

(** X26. A call that returns a pose returns one of the same length, and
    smoothing does not overshoot beyond rounding: when the history
    held at most 4 frames before the call, each coordinate of a
    returned landmark, and its visibility, lies within any bounds [lo]
    and [hi] that hold for that landmark in all the frames of the
    window (which include the frame just passed), up to a billionth of
    the larger of [|lo|] and [|hi|].  So a pose that does not move is
    returned where it is up to a billionth of its coordinates. *)
Theorem smoothLandmarks_range (histories after : Histories) (lms out : list Landmark)
  (channel : Channel) :
  (length (history_of histories channel) <= SMOOTHING_WINDOW)%nat ->
  smoothLandmarks histories (Some lms) channel = (after, Returned (Some out)) ->
  length out = length lms /\
  forall idx o, out !! idx = Some o ->
  forall lo hi,
    ((forall frame l, frame ∈ history_of after channel -> frame !! idx = Some l ->
        lo <= x l <= hi) -> lo - slack lo hi <= x o <= hi + slack lo hi) /\
    ((forall frame l, frame ∈ history_of after channel -> frame !! idx = Some l ->
        lo <= y l <= hi) -> lo - slack lo hi <= y o <= hi + slack lo hi) /\
    ((forall frame l, frame ∈ history_of after channel -> frame !! idx = Some l ->
        lo <= orZero (z l) <= hi) ->
     lo - slack lo hi <= orZero (z o) <= hi + slack lo hi) /\
    ((forall frame l, frame ∈ history_of after channel -> frame !! idx = Some l ->
        lo <= orZero (visibility l) <= hi) ->
     lo - slack lo hi <= orZero (visibility o) <= hi + slack lo hi).
Proof.
intros _ Hcall.
destruct (smoothLandmarks_range_exact histories after lms out channel Hcall) as [Hlen Hr].
split; [exact Hlen|]. intros idx o Ho lo hi.
destruct (Hr idx o Ho lo hi) as (Hx & Hy & Hz & Hv).
pose proof (slack_nonneg lo hi) as Hs.
split; [|split; [|split]]; intros Hb.
- specialize (Hx Hb). lra.
- specialize (Hy Hb). lra.
- specialize (Hz Hb). lra.
- specialize (Hv Hb). lra.
Qed.

(** X27. What a call of [smoothLandmarks] does to the histories: the
    other channel is left alone, a history of at most 4 frames stays at
    most 4 frames long, and a frame that is not empty becomes the
    newest frame of its channel, even when the call throws.  The call
    throws exactly when a frame kept in the window is shorter than the
    pose passed in; frames of equal length, as the pose provider
    delivers them, never throw.  Right after [resetSmoothing] the pose
    is returned as it is. *)
Theorem smoothLandmarks_outcome (histories : Histories) (landmarks : option (list Landmark))
  (channel : Channel) :
  (let after := (smoothLandmarks histories landmarks channel).1 in
  (forall other, other <> channel -> history_of after other = history_of histories other) /\
  ((length (history_of histories channel) <= 4)%nat ->
   (length (history_of after channel) <= 4)%nat) /\
  (forall lms, landmarks = Some lms -> lms <> [] ->
     last (history_of after channel) = Some lms)) /\
  (let r := smoothLandmarks histories landmarks channel in
  (r.2 = TypeError <->
   exists lms frame, landmarks = Some lms /\ frame ∈ history_of r.1 channel /\
     (2 <= length (history_of r.1 channel))%nat /\ (length frame < length lms)%nat) /\
  (forall reset, reset = Some channel \/ reset = None ->
     (smoothLandmarks (resetSmoothing histories reset) landmarks channel).2
     = Returned landmarks)).
Proof.
split.
{ cbv zeta. destruct landmarks as [lms|].
  2:{ cbn. split; [reflexivity|]. split; [auto|]. intros ? [=]. }
  rewrite smoothLandmarks_cases. cbv zeta.
  destruct (pushed_window (history_of histories channel) lms) as (_ & _ & Hlen & _).
  cbv zeta in Hlen.
  set (history := if (SMOOTHING_WINDOW <? length (history_of histories channel ++ [lms]))%nat
                  then drop 1 (history_of histories channel ++ [lms])
                  else history_of histories channel ++ [lms]) in *.
  assert (Hlast : last history = Some lms).
  { unfold history. destruct (_ <? _)%nat eqn:E; [|apply last_snoc].
    destruct (history_of histories channel) as [|f0 old]; [discriminate E|].
    change (drop 1 ((f0 :: old) ++ [lms])) with (old ++ [lms]). apply last_snoc. }
  destruct (Nat.eqb_spec (length lms) 0) as [Hz|Hnz].
  { cbn [fst]. split; [reflexivity|]. split; [auto|].
    intros ? [= <-] Hne. destruct lms; [contradiction|discriminate Hz]. }
  assert (Hafter : (if (length history <? 2)%nat
                    then (set_history histories channel history, Returned (Some lms))
                    else match mapM (smoothAt history) (seq 0 (length lms)) with
                         | Some smoothed =>
                           (set_history histories channel history, Returned (Some smoothed))
                         | None => (set_history histories channel history, TypeError)
                         end).1 = set_history histories channel history).
  { destruct (length history <? 2)%nat; [reflexivity|]. destruct (mapM _ _); reflexivity. }
  rewrite Hafter. split; [|split].
  - intros other Hother. rewrite history_of_set. destruct (decide _); [contradiction|reflexivity].
  - rewrite history_of_set. destruct (decide _); [|contradiction]. exact Hlen.
  - intros ? [= <-] _. rewrite history_of_set. destruct (decide _); [|contradiction]. exact Hlast. }
{ cbv zeta. split.
  - destruct landmarks as [lms|].
    2:{ cbn. split; [discriminate|]. intros (? & ? & [=] & _). }
    rewrite smoothLandmarks_cases. cbv zeta.
    set (history := if (SMOOTHING_WINDOW <? length (history_of histories channel ++ [lms]))%nat
                    then drop 1 (history_of histories channel ++ [lms])
                    else history_of histories channel ++ [lms]) in *.
    destruct (Nat.eqb_spec (length lms) 0) as [Hz|Hnz].
    { cbn [fst snd]. split; [discriminate|]. intros (? & ? & [= <-] & _ & _ & Hlt). lia. }
    destruct (Nat.ltb_spec (length history) 2) as [Hshort|Hlong].
    { cbn [fst snd]. rewrite history_of_set. destruct (decide _); [|contradiction].
      split; [discriminate|]. intros (? & ? & _ & _ & ? & _). lia. }
    destruct (mapM (smoothAt history) (seq 0 (length lms))) as [smoothed|] eqn:Hm;
      cbn [fst snd]; rewrite history_of_set; (destruct (decide _); [|contradiction]).
    + split; [discriminate|]. intros (? & frame & [= <-] & Hframe & _ & Hlt). exfalso.
      apply mapM_Some_1 in Hm.
      destruct (Forall2_lookup_l _ _ _ (length frame) (length frame) Hm) as (o & _ & Ho).
      { apply lookup_seq. split; [reflexivity|exact Hlt]. }
      unfold smoothAt in Ho.
      destruct (mapM (fun frame0 : list Landmark => frame0 !! length frame) history)
        as [frames|] eqn:Hf; [|discriminate].
      apply mapM_Some_1 in Hf. apply list_elem_of_lookup in Hframe as (j & Hj).
      destruct (Forall2_lookup_l _ _ _ _ _ Hf Hj) as (l & _ & Hl).
      apply lookup_lt_Some in Hl. lia.
    + split; [intros _|reflexivity].
      apply mapM_None_1, Exists_exists in Hm as (idx & Hidx & Hnone).
      apply elem_of_seq in Hidx. unfold smoothAt in Hnone.
      destruct (mapM (fun frame0 : list Landmark => frame0 !! idx) history) as [frames|] eqn:Hf;
        [discriminate|].
      apply mapM_None_1, Exists_exists in Hf as (frame & Hframe & Hl).
      apply lookup_ge_None in Hl. exists lms, frame. repeat split; [exact Hframe|lia|lia].
  - intros reset Hreset. destruct landmarks as [lms|]; [|reflexivity].
    rewrite smoothLandmarks_cases. cbv zeta.
    assert (Hempty : history_of (resetSmoothing histories reset) channel = []).
    { destruct Hreset as [-> | ->]; [|destruct channel; reflexivity].
      cbn [resetSmoothing]. rewrite history_of_set. destruct (decide _); [reflexivity|contradiction]. }
    rewrite Hempty. cbn [app length]. destruct (length lms =? 0)%nat; reflexivity. }
Qed.

(** The theorem for the standing figure drawn with a left arm at 40. *)
Lemma drawSkeleton_style_witness :
  Forall (fun line =>
            lineWidth line = 5%nat <->
            strokeStyle line = "#f97316"%string \/ strokeStyle line = "#ef4444"%string)
         (lines (drawSkeleton (Some Poses.standing) 640 480
                   (Some (segments (AudioCoach.lowLeftArm 0))) "#ec4899")).
Proof.
destruct (drawSkeleton_style (Some Poses.standing) 640 480
            (segments (AudioCoach.lowLeftArm 0)) "#ec4899") as [H _].
- intros segName. destruct segName; eexists; reflexivity.
- eapply Forall_impl; [exact H|]. intros line [_ Hline]. exact Hline.
Defined.

(** The theorem for a landmark that moves from (0, 0) to (2, 2): the
    second call returns one landmark. *)
Lemma smoothLandmarks_range_witness :
  exists after out,
    smoothLandmarks (mkHistories [] [[Poses.at_ 1 0 0]]) (Some [Poses.at_ 1 2 2]) user
    = (after, Returned (Some out)) /\
    length out = 1%nat.
Proof.
eexists _, _. split; [reflexivity|].
eapply (smoothLandmarks_range (mkHistories [] [[Poses.at_ 1 0 0]]) _ [Poses.at_ 1 2 2] _ user).
- cbn [history_of h_user length]. unfold SMOOTHING_WINDOW. lia.
- reflexivity.
Defined.

(** *** Valid poses *)

Lemma isPoseValid_visible (lms : list Landmark) :
  (33 <= length lms)%nat ->
  (forall i, i ∈ [11; 12; 23; 24]%nat -> PoseDescriber.visible lms i) ->
  isPoseValid (Some lms) = true.
Proof.
intros Hlen Hvis. unfold isPoseValid.
destruct (Nat.ltb_spec (length lms) 33) as [|_]; [lia|].
apply forallb_forall. intros i Hi%list_elem_of_In.
destruct (Hvis i Hi) as (l & -> & Hl). apply ltb_true. lra.
Qed.

(** X28. A pose that yields a torso posecode passes [isPoseValid]: the
    torso rules ask for more (visibility 0.4 at both shoulders and both
    hips) than the validity check (visibility above 0.3 there). *)
Theorem isPoseValid_torso (lms : list Landmark) (codes : list PoseDescriber.Posecode)
  (c : PoseDescriber.Posecode) :
  PoseDescriber.extractPosecodes (Some lms) = Some codes ->
  c ∈ codes -> PoseDescriber.segment c = torso ->
  isPoseValid (Some lms) = true.
Proof.
unfold PoseDescriber.extractPosecodes.
destruct (Nat.ltb_spec (length lms) 33) as [|Hlen]; [discriminate|].
intros [= <-] Hc Hseg.
assert (Hin : c ∈ PoseDescriber.torsoCodes lms).
{ destruct (PosecodeFacts.armCodes_block lms PoseDescriber.left) as (_ & A & _).
  destruct (PosecodeFacts.armCodes_block lms PoseDescriber.right) as (_ & B & _).
  destruct (PosecodeFacts.legCodes_block lms PoseDescriber.left) as (_ & C & _).
  destruct (PosecodeFacts.legCodes_block lms PoseDescriber.right) as (_ & D & _).
  destruct (PosecodeFacts.headCodes_block lms) as (_ & F & _).
  rewrite Forall_forall in A, B, C, D, F.
  repeat (apply elem_of_app in Hc; destruct Hc as [Hc|Hc]);
    first [exact Hc
          |apply A in Hc|apply B in Hc|apply C in Hc|apply D in Hc|apply F in Hc];
    rewrite Hseg in Hc; discriminate Hc. }
apply PoseDescriberFacts.torsoCodes_gate in Hin as [_ Hv]. rewrite Hseg in Hv.
apply isPoseValid_visible; [exact Hlen|]. apply PoseDescriberFacts.vis_true, Hv.
Qed.

Lemma tilted_torso :
  exists codes c, PoseDescriber.extractPosecodes (Some Poses.tilted) = Some codes /\
    c ∈ codes /\ PoseDescriber.segment c = torso.
Proof.
unfold PoseDescriber.extractPosecodes.
destruct (Nat.ltb_spec (length Poses.tilted) 33) as [Hlt|_]; [cbn in Hlt; lia|].
eexists _, (PoseDescriber.mkPosecode torso "shoulders_tilted"
              "Shoulders are tilted (left shoulder lower)").
split; [reflexivity|]. split; [|reflexivity].
do 4 (apply elem_of_app; right). apply elem_of_app. left.
unfold PoseDescriber.torsoCodes.
assert (Hv : PoseDescriber.vis Poses.tilted
               [PoseDescriber.LM.LEFT_SHOULDER; PoseDescriber.LM.RIGHT_SHOULDER;
                PoseDescriber.LM.LEFT_HIP; PoseDescriber.LM.RIGHT_HIP] = true)
  by PoseDescriberFacts.vis_check.
rewrite Hv. cbv zeta. apply elem_of_app. right. apply elem_of_app. left.
change (y (PoseDescriber.get Poses.tilted PoseDescriber.LM.LEFT_SHOULDER)) with 3.5.
change (y (PoseDescriber.get Poses.tilted PoseDescriber.LM.RIGHT_SHOULDER)) with 3.
assert (H1 : gtb (Rabs (3.5 - 3)) 0.04 = true).
{ apply ltb_true. rewrite Rabs_right by lra. lra. }
assert (H2 : gtb (3.5 - 3) 0 = true) by (apply ltb_true; lra).
rewrite H1, H2. left.
Qed.

(** The theorem on the figure with a raised left shoulder, which has
    the torso posecode [shoulders_tilted]. *)
Lemma isPoseValid_torso_witness : isPoseValid (Some Poses.tilted) = true.
Proof.
destruct tilted_torso as (codes & c & Hcodes & Hc & Hseg).
exact (isPoseValid_torso Poses.tilted codes c Hcodes Hc Hseg).
Defined.

End SkeletonRendererFacts.

(** ** The scorer on mirror images *)

Module ScorerMirrorFacts.
Import JS JSFacts PoseNormalizer NormalizerFacts PoseSimilarity SimilarityFacts.
Import NormalizerFrameFacts ScorerRangeFacts.
Local Open Scope R_scope.

Lemma cosineSim_flipped (ra rb ua ub : Landmark) :
  cosineSim (vecBetween (flipped ra) (flipped rb)) (vecBetween (flipped ua) (flipped ub))
  = cosineSim (vecBetween ra rb) (vecBetween ua ub).
Proof.
unfold cosineSim, vecBetween, flipped. cbn [vx vy vz x y z].
replace ((- x rb - - x ra) ^ 2) with ((x rb - x ra) ^ 2) by ring.
replace ((- x ub - - x ua) ^ 2) with ((x ub - x ua) ^ 2) by ring.
destruct (_ || _); [reflexivity|]. f_equal. ring.
Qed.

Lemma cosineSim_reversed (ra rb ua ub : Landmark) :
  cosineSim (vecBetween rb ra) (vecBetween ub ua)
  = cosineSim (vecBetween ra rb) (vecBetween ua ub).
Proof.
unfold cosineSim, vecBetween. cbn [vx vy vz].
replace ((x ra - x rb) ^ 2) with ((x rb - x ra) ^ 2) by ring.
replace ((y ra - y rb) ^ 2) with ((y rb - y ra) ^ 2) by ring.
replace ((orZero (z ra) - orZero (z rb)) ^ 2) with ((orZero (z rb) - orZero (z ra)) ^ 2) by ring.
replace ((x ua - x ub) ^ 2) with ((x ub - x ua) ^ 2) by ring.
replace ((y ua - y ub) ^ 2) with ((y ub - y ua) ^ 2) by ring.
replace ((orZero (z ua) - orZero (z ub)) ^ 2) with ((orZero (z ub) - orZero (z ua)) ^ 2) by ring.
destruct (_ || _); [reflexivity|]. f_equal. ring.
Qed.

Lemma minVis_reversed (ra rb ua ub : Landmark) : minVis rb ra ub ua = minVis ra rb ua ub.
Proof.
unfold minVis.
generalize (orZero (visibility ra)) (orZero (visibility rb))
           (orZero (visibility ua)) (orZero (visibility ub)).
intros a b c d. unfold Rmin. repeat destruct (Rle_dec _ _); lra.
Qed.

(** A bone read from its other end counts the same. *)
Lemma pairStep_reversed (Qr Qu : list Landmark) (acc : R * nat) (a b : nat) :
  pairStep Qr Qu acc (b, a) = pairStep Qr Qu acc (a, b).
Proof.
unfold pairStep. cbn [fst snd].
destruct (Qr !! a) as [ra|], (Qr !! b) as [rb|],
         (Qu !! a) as [ua|], (Qu !! b) as [ub|]; try reflexivity.
rewrite minVis_reversed, cosineSim_reversed. reflexivity.
Qed.

(** The order in which two bones are counted does not matter. *)
Lemma pairStep_comm (Qr Qu : list Landmark) (acc : R * nat) (p q : nat * nat) :
  pairStep Qr Qu (pairStep Qr Qu acc p) q = pairStep Qr Qu (pairStep Qr Qu acc q) p.
Proof.
unfold pairStep.
destruct (Qr !! p.1) as [ra|], (Qr !! p.2) as [rb|],
         (Qu !! p.1) as [ua|], (Qu !! p.2) as [ub|]; try reflexivity;
destruct (Qr !! q.1) as [ra'|], (Qr !! q.2) as [rb'|],
         (Qu !! q.1) as [ua'|], (Qu !! q.2) as [ub'|]; try reflexivity;
  try (destruct (ltb _ 0.4); reflexivity).
destruct (ltb (minVis ra rb ua ub) 0.4), (ltb (minVis ra' rb' ua' ub') 0.4);
  try reflexivity.
cbn [fst snd]. f_equal. ring.
Qed.

(** A bone of the mirror images counts as the partner bone of the poses. *)
Lemma pairStep_mirror (Qr Qu Mr Mu : list Landmark) (acc : R * nat) (ab : nat * nat) :
  (forall i, Mr !! i = flipped <$> Qr !! partner i) ->
  (forall i, Mu !! i = flipped <$> Qu !! partner i) ->
  pairStep Mr Mu acc ab = pairStep Qr Qu acc (partner ab.1, partner ab.2).
Proof.
intros Hr Hu. unfold pairStep. cbn [fst snd]. rewrite !Hr, !Hu.
destruct (Qr !! partner ab.1) as [ra|], (Qr !! partner ab.2) as [rb|],
         (Qu !! partner ab.1) as [ua|], (Qu !! partner ab.2) as [ub|]; try reflexivity.
cbn [fmap option_fmap option_map]. rewrite cosineSim_flipped. reflexivity.
Qed.

Lemma segmentScore_mirror (Qr Qu Mr Mu : list Landmark) :
  (forall i, Mr !! i = flipped <$> Qr !! partner i) ->
  (forall i, Mu !! i = flipped <$> Qu !! partner i) ->
  segmentScore Mr Mu (BODY_SEGMENTS leftArm) = segmentScore Qr Qu (BODY_SEGMENTS rightArm) /\
  segmentScore Mr Mu (BODY_SEGMENTS rightArm) = segmentScore Qr Qu (BODY_SEGMENTS leftArm) /\
  segmentScore Mr Mu (BODY_SEGMENTS leftLeg) = segmentScore Qr Qu (BODY_SEGMENTS rightLeg) /\
  segmentScore Mr Mu (BODY_SEGMENTS rightLeg) = segmentScore Qr Qu (BODY_SEGMENTS leftLeg) /\
  segmentScore Mr Mu (BODY_SEGMENTS torso) = segmentScore Qr Qu (BODY_SEGMENTS torso) /\
  segmentScore Mr Mu (BODY_SEGMENTS head) = segmentScore Qr Qu (BODY_SEGMENTS head).
Proof.
intros Hr Hu. unfold segmentScore. cbn [BODY_SEGMENTS pairs foldl].
rewrite !(pairStep_mirror Qr Qu Mr Mu _ _ Hr Hu). cbn [fst snd].
change (partner 11) with 12%nat. change (partner 12) with 11%nat.
change (partner 13) with 14%nat. change (partner 14) with 13%nat.
change (partner 15) with 16%nat. change (partner 16) with 15%nat.
change (partner 23) with 24%nat. change (partner 24) with 23%nat.
change (partner 25) with 26%nat. change (partner 26) with 25%nat.
change (partner 27) with 28%nat. change (partner 28) with 27%nat.
change (partner 0) with 0%nat.
repeat split.
- rewrite (pairStep_reversed Qr Qu _ 11 12), (pairStep_reversed Qr Qu _ 23 24).
  rewrite (pairStep_comm Qr Qu (pairStep Qr Qu (0, 0%nat) (11, 12)%nat) (12, 24)%nat (11, 23)%nat).
  reflexivity.
- rewrite (pairStep_comm Qr Qu (0, 0%nat) (0, 12)%nat (0, 11)%nat). reflexivity.
Qed.

Lemma weightStep_mirror (acc : R * R) (a b : option R) (rest : list (Segment * option R)) :
  (foldl weightStep acc ((leftArm, a) :: (rightArm, b) :: rest)
   = foldl weightStep acc ((leftArm, b) :: (rightArm, a) :: rest)) /\
  (foldl weightStep acc ((leftLeg, a) :: (rightLeg, b) :: rest)
   = foldl weightStep acc ((leftLeg, b) :: (rightLeg, a) :: rest)).
Proof.
split; cbn [foldl]; f_equal; unfold weightStep; cbn [fst snd BODY_SEGMENTS weight];
  destruct a as [a|], b as [b|]; cbn [fst snd]; try reflexivity; f_equal; ring.
Qed.

(** In the exact arithmetic of the model mirroring exchanges the scores
    of the two sides and keeps the others. *)
Lemma comparePoses_mirrorPose_exact (now : Z) (r u : list Landmark) :
  length r = 33%nat -> length u = 33%nat ->
  match comparePoses now (Some r) (Some u),
        comparePoses now (mirrorPose (Some r)) (mirrorPose (Some u)) with
  | Some plain, Some mirrored =>
    overall mirrored = overall plain /\
    exists la ra ll rl t h,
      segments plain = [ (leftArm, la); (rightArm, ra); (leftLeg, ll); (rightLeg, rl);
                         (torso, t); (head, h) ] /\
      segments mirrored = [ (leftArm, ra); (rightArm, la); (leftLeg, rl); (rightLeg, ll);
                            (torso, t); (head, h) ]
  | None, None => True
  | _, _ => False
  end.
Proof.
intros Hr Hu. unfold comparePoses.
rewrite (normalize_mirror r Hr), (normalize_mirror u Hu).
destruct (normalizePose (Some r)) as [Qr|] eqn:HQr; [|exact I].
destruct (normalizePose (Some u)) as [Qu|] eqn:HQu.
2:{ cbn [mirrorPose]. destruct (mirrorPose (Some Qr)); exact I. }
assert (HlenQr : length Qr = 33%nat) by (rewrite (normalizePose_length r Qr HQr); exact Hr).
assert (HlenQu : length Qu = 33%nat) by (rewrite (normalizePose_length u Qu HQu); exact Hu).
destruct (mirrorPose_lookup Qr HlenQr) as (Mr & HMr & HMri).
destruct (mirrorPose_lookup Qu HlenQu) as (Mu & HMu & HMui).
rewrite HMr, HMu. cbv zeta. cbn [overall segments].
destruct (segmentScore_mirror Qr Qu Mr Mu HMri HMui) as (E1 & E2 & E3 & E4 & E5 & E6).
unfold segment_keys. cbn [fmap list_fmap]. rewrite E1, E2, E3, E4, E5, E6.
set (la := segmentScore Qr Qu (BODY_SEGMENTS leftArm)).
set (ra := segmentScore Qr Qu (BODY_SEGMENTS rightArm)).
set (ll := segmentScore Qr Qu (BODY_SEGMENTS leftLeg)).
set (rl := segmentScore Qr Qu (BODY_SEGMENTS rightLeg)).
set (t := segmentScore Qr Qu (BODY_SEGMENTS torso)).
set (h := segmentScore Qr Qu (BODY_SEGMENTS head)).
split; [|exists la, ra, ll, rl, t, h; split; reflexivity].
assert (Hsums : foldl weightStep (0, 0)
                  [(leftArm, ra); (rightArm, la); (leftLeg, rl); (rightLeg, ll);
                   (torso, t); (head, h)]
                = foldl weightStep (0, 0)
                  [(leftArm, la); (rightArm, ra); (leftLeg, ll); (rightLeg, rl);
                   (torso, t); (head, h)]).
{ rewrite (proj1 (weightStep_mirror _ ra la _)).
  change (foldl weightStep (0, 0) ((leftArm, la) :: (rightArm, ra) :: ?rest))
    with (foldl weightStep (weightStep (weightStep (0, 0) (leftArm, la)) (rightArm, ra)) rest).
  cbn [foldl]. 
  pose proof (proj2 (weightStep_mirror (weightStep (weightStep (0, 0) (leftArm, la)) (rightArm, ra))
                       rl ll [(torso, t); (head, h)])) as H2.
  cbn [foldl] in H2. exact H2. }
rewrite Hsums. reflexivity.
Qed.

(** X29. Comparing the mirror images of two poses of 33 landmarks gives
    the comparison of the poses with the two sides exchanged: one call
    returns nothing exactly when the other does; the left arm gets the
    score of the right arm and the right arm that of the left, likewise
    the legs, and the head keeps its score, all exactly.  The torso is
    scored in both or in neither and keeps its score up to rounding
    (its four bones are summed in another order), for which a billionth
    is allowed; the overall scores, which are rounded to one decimal,
    differ by one step of 0.1 at most (0.100000001 is allowed). *)
Theorem comparePoses_mirrorPose (now : Z) (r u : list Landmark) :
  length r = 33%nat -> length u = 33%nat ->
  match comparePoses now (Some r) (Some u),
        comparePoses now (mirrorPose (Some r)) (mirrorPose (Some u)) with
  | Some plain, Some mirrored =>
    within 0.100000001 (overall mirrored) (overall plain) /\
    exists la ra ll rl t t' h,
      segments plain = [ (leftArm, la); (rightArm, ra); (leftLeg, ll); (rightLeg, rl);
                         (torso, t); (head, h) ] /\
      segments mirrored = [ (leftArm, ra); (rightArm, la); (leftLeg, rl); (rightLeg, ll);
                            (torso, t'); (head, h) ] /\
      same_score 0.000000001 (torso, t') (torso, t)
  | None, None => True
  | _, _ => False
  end.
Proof.
intros Hr Hu. pose proof (comparePoses_mirrorPose_exact now r u Hr Hu) as H.
destruct (comparePoses now (Some r) (Some u)) as [plain|],
         (comparePoses now (mirrorPose (Some r)) (mirrorPose (Some u))) as [mirrored|];
  try exact H.
destruct H as (Ho & la & ra & ll & rl & t & h & Hp & Hm).
split; [rewrite Ho; unfold within; lra|].
exists la, ra, ll, rl, t, t, h. split; [exact Hp|]. split; [exact Hm|].
split; [reflexivity|]. cbn [snd]. destruct t; [unfold within; lra|exact I].
Qed.

(** The theorem on the standing figure and the figure with the elbow
    drawn up. *)
Lemma comparePoses_mirrorPose_witness :
  match comparePoses 0 (Some Poses.standing) (Some Poses.tucked),
        comparePoses 0 (mirrorPose (Some Poses.standing)) (mirrorPose (Some Poses.tucked)) with
  | Some plain, Some mirrored => within 0.100000001 (overall mirrored) (overall plain)
  | None, None => True
  | _, _ => False
  end.
Proof.
pose proof (comparePoses_mirrorPose 0 Poses.standing Poses.tucked eq_refl eq_refl) as H.
destruct (comparePoses 0 (Some Poses.standing) (Some Poses.tucked)),
         (comparePoses 0 (mirrorPose (Some Poses.standing)) (mirrorPose (Some Poses.tucked)));
  [apply H|exact H..].
Defined.

End ScorerMirrorFacts.

(** ** Posecodes of mirror images *)

Module PosecodeMirrorFacts.
Import JS JSFacts PoseNormalizer NormalizerFacts PoseSimilarity PoseDescriber PoseDescriberFacts.
Import NormalizerFrameFacts(mirrorPose_lookup).
Local Open Scope R_scope.

Section Mirror.
Variables lm M : list Landmark.
Hypothesis Hlen : length lm = 33%nat.
Hypothesis HM : forall i, M !! i = flipped <$> lm !! partner i.

Lemma partner_lt (i : nat) : (i < 33)%nat -> (partner i < 33)%nat.
Proof.
intros Hi. do 33 (destruct i as [|i]; [vm_compute; lia|]). lia.
Qed.

Lemma get_mirror (i : nat) : (i < 33)%nat -> get M i = flipped (get lm (partner i)).
Proof.
intros Hi. unfold get. rewrite HM.
destruct (lookup_33 lm (partner i)) as [l ->]; [lia|apply partner_lt, Hi|]. reflexivity.
Qed.

Lemma vis_mirror (indices : list nat) : vis M indices = vis lm (partner <$> indices).
Proof.
unfold vis. induction indices as [|i indices IH]; [reflexivity|].
rewrite fmap_cons. cbn [forallb]. rewrite IH, HM.
destruct (lm !! partner i); reflexivity.
Qed.

Lemma angle3_flipped (a b c : Landmark) :
  angle3 (flipped a) (flipped b) (flipped c) = angle3 a b c.
Proof.
unfold angle3, flipped. cbn [x y]. cbv zeta.
replace ((- x a - - x b) ^ 2) with ((x a - x b) ^ 2) by ring.
replace ((- x c - - x b) ^ 2) with ((x c - x b) ^ 2) by ring.
replace ((- x a - - x b) * (- x c - - x b)) with ((x a - x b) * (x c - x b)) by ring.
reflexivity.
Qed.

Lemma ltb_ext (a b c d : R) : (a < b <-> c < d) -> ltb a b = ltb c d.
Proof.
intros H. destruct (ltb c d) eqn:E.
- apply ltb_true. apply H. apply ltb_true, E.
- apply ltb_false. apply ltb_false in E. destruct (Rlt_le_dec a b) as [Hlt|Hle]; [|exact Hle].
  apply H in Hlt. lra.
Qed.

Lemma Rabs_flipped (a b : R) : Rabs (- a - - b) = Rabs (a - b).
Proof. replace (- a - - b) with (- (a - b)) by ring. apply Rabs_Ropp. Qed.

Ltac mirror_gets :=
  rewrite ?vis_mirror; cbn [fmap list_fmap];
  repeat match goal with
  | |- context [get M ?i] => rewrite (get_mirror i) by (vm_compute; lia)
  end;
  repeat match goal with
  | |- context [partner ?i] =>
    let v := eval vm_compute in (partner i) in change (partner i) with v
  end;
  rewrite ?angle3_flipped; cbn [x y flipped].

Ltac same_ifs :=
  repeat match goal with
  | |- context [if ?b then _ else _] => destruct b
  | |- context [match ?o with Some _ => _ | None => _ end] => destruct o
  end; reflexivity.

Lemma armCodes_mirror (side : Side) :
  sided <$> armCodes M side
  = mirrored <$> armCodes lm match side with left => right | right => left end.
Proof.
destruct side; unfold armCodes, LM.LEFT_SHOULDER, LM.RIGHT_SHOULDER, LM.LEFT_ELBOW,
  LM.RIGHT_ELBOW, LM.LEFT_WRIST, LM.RIGHT_WRIST, LM.LEFT_HIP, LM.RIGHT_HIP, LM.NOSE;
  cbv zeta; mirror_gets; rewrite !Rabs_flipped.
- replace (gtb (- x (get lm 16)) ((- x (get lm 12) + - x (get lm 11)) / 2 + 0.05))
    with (ltb (x (get lm 16)) ((x (get lm 11) + x (get lm 12)) / 2 - 0.05))
    by (unfold gtb; apply ltb_ext; lra).
  same_ifs.
- replace (ltb (- x (get lm 15)) ((- x (get lm 12) + - x (get lm 11)) / 2 - 0.05))
    with (gtb (x (get lm 15)) ((x (get lm 11) + x (get lm 12)) / 2 + 0.05))
    by (unfold gtb; apply ltb_ext; lra).
  same_ifs.
Qed.

Lemma legCodes_mirror (side : Side) :
  sided <$> legCodes M side
  = mirrored <$> legCodes lm match side with left => right | right => left end.
Proof.
destruct side; unfold legCodes, LM.LEFT_HIP, LM.RIGHT_HIP, LM.LEFT_KNEE, LM.RIGHT_KNEE,
  LM.LEFT_ANKLE, LM.RIGHT_ANKLE; cbv zeta; mirror_gets.
- replace (Rabs (- x (get lm 28) - (- x (get lm 24) + - x (get lm 23)) / 2))
    with (Rabs (x (get lm 28) - (x (get lm 23) + x (get lm 24)) / 2))
    by (rewrite <- Rabs_Ropp; f_equal; lra).
  same_ifs.
- replace (Rabs (- x (get lm 27) - (- x (get lm 24) + - x (get lm 23)) / 2))
    with (Rabs (x (get lm 27) - (x (get lm 23) + x (get lm 24)) / 2))
    by (rewrite <- Rabs_Ropp; f_equal; lra).
  same_ifs.
Qed.

Lemma gtb_opp (t : R) : t <> 0 -> gtb (- t) 0 = negb (gtb t 0).
Proof.
intros Ht. unfold gtb. destruct (ltb 0 t) eqn:E.
- apply ltb_true in E. apply ltb_false. lra.
- apply ltb_false in E. apply ltb_true. lra.
Qed.

Lemma torsoCodes_mirror : sided <$> torsoCodes M = mirrored <$> torsoCodes lm.
Proof.
unfold torsoCodes, midY, LM.LEFT_SHOULDER, LM.RIGHT_SHOULDER, LM.LEFT_HIP, LM.RIGHT_HIP.
cbv zeta. mirror_gets.
replace (vis lm [12; 11; 24; 23]%nat) with (vis lm [11; 12; 23; 24]%nat)
  by (unfold vis; cbn [forallb]; repeat destruct (geb _ 0.4); reflexivity).
destruct (vis lm [11; 12; 23; 24]%nat); [|reflexivity].
set (t := (x (get lm 11) + x (get lm 12)) / 2 - (x (get lm 23) + x (get lm 24)) / 2).
replace ((- x (get lm 12) + - x (get lm 11)) / 2 - (- x (get lm 24) + - x (get lm 23)) / 2)
  with (- t) by (unfold t; lra).
replace (y (get lm 12) - y (get lm 11)) with (- (y (get lm 11) - y (get lm 12))) by ring.
replace ((y (get lm 24) + y (get lm 23)) / 2 - (y (get lm 12) + y (get lm 11)) / 2)
  with ((y (get lm 23) + y (get lm 24)) / 2 - (y (get lm 11) + y (get lm 12)) / 2) by lra.
rewrite !Rabs_Ropp. rewrite !fmap_app. f_equal.
- destruct (gtb (Rabs t) 0.04) eqn:E; [|reflexivity].
  assert (Ht : t <> 0).
  { intros Ht. rewrite Ht, Rabs_R0 in E. apply ltb_true in E. lra. }
  rewrite (gtb_opp t Ht). destruct (gtb t 0); reflexivity.
- same_ifs.
Qed.

Lemma headCodes_mirror : sided <$> headCodes M = mirrored <$> headCodes lm.
Proof.
unfold headCodes, midY, LM.LEFT_SHOULDER, LM.RIGHT_SHOULDER, LM.NOSE.
cbv zeta. mirror_gets.
replace (vis lm [0; 12; 11]%nat) with (vis lm [0; 11; 12]%nat)
  by (unfold vis; cbn [forallb]; repeat destruct (geb _ 0.4); reflexivity).
replace (- x (get lm 0) - (- x (get lm 12) + - x (get lm 11)) / 2)
  with (- (x (get lm 0) - (x (get lm 11) + x (get lm 12)) / 2)) by lra.
replace ((y (get lm 12) + y (get lm 11)) / 2) with ((y (get lm 11) + y (get lm 12)) / 2) by lra.
rewrite !Rabs_Ropp. same_ifs.
Qed.

End Mirror.

(** X30. The posecodes of the mirror image of a pose of 33 landmarks
    are the posecodes of the pose read from the other side: what the
    pose shows for the left arm or leg the mirror image shows for the
    right one and the other way round, a torso leaning right leans
    left, and everything else stays (as a multiset of segment and code,
    the two sides being listed in the other order). *)
Theorem extractPosecodes_mirrorPose (lm : list Landmark) (codes : list Posecode) :
  length lm = 33%nat -> extractPosecodes (Some lm) = Some codes ->
  exists mcodes, extractPosecodes (mirrorPose (Some lm)) = Some mcodes /\
    sided <$> mcodes ≡ₚ mirrored <$> codes.
Proof.
intros Hlen. destruct (mirrorPose_lookup lm Hlen) as (M & HM & HMi). rewrite HM.
assert (HlenM : length M = 33%nat).
{ clear HMi. explode_pose lm Hlen. cbv -[Ropp] in HM. injection HM as <-. reflexivity. }
unfold extractPosecodes. rewrite Hlen, HlenM. cbn [Nat.ltb Nat.leb].
intros [= <-]. eexists. split; [reflexivity|].
rewrite !fmap_app.
rewrite (armCodes_mirror lm M Hlen HMi left), (armCodes_mirror lm M Hlen HMi right),
        (legCodes_mirror lm M Hlen HMi left), (legCodes_mirror lm M Hlen HMi right),
        (torsoCodes_mirror lm M Hlen HMi), (headCodes_mirror lm M Hlen HMi).
set (A := mirrored <$> armCodes lm left). set (B := mirrored <$> armCodes lm right).
set (C := mirrored <$> legCodes lm left). set (D := mirrored <$> legCodes lm right).
set (E := mirrored <$> torsoCodes lm). set (F := mirrored <$> headCodes lm).
rewrite (app_assoc B A), (Permutation_app_comm B A), <- (app_assoc A B).
do 2 apply Permutation_app_head.
rewrite (app_assoc D C), (Permutation_app_comm D C), <- (app_assoc C D). reflexivity.
Qed.

(** The theorem on the standing figure whose nose is hidden. *)
Lemma extractPosecodes_mirrorPose_witness :
  exists codes mcodes,
    extractPosecodes (Some Poses.nose_hidden) = Some codes /\
    extractPosecodes (mirrorPose (Some Poses.nose_hidden)) = Some mcodes /\
    sided <$> mcodes ≡ₚ mirrored <$> codes.
Proof.
destruct nose_hidden_overhead as (codes & Hcodes & _).
destruct (extractPosecodes_mirrorPose Poses.nose_hidden codes eq_refl Hcodes)
  as (mcodes & Hm & Hperm).
exists codes, mcodes. auto.
Defined.

End PosecodeMirrorFacts.

